(** * Three recursive utilities: Towers of Hanoi, Koch snowflake, file sorter

    A shallow embedding of [src/utils/hanoi_towers.py],
    [src/utils/koch_snowflake.py] and [src/utils/file_copier.py], and the
    properties of the specification proved (or refuted) on it.

    Conventions.
    - A Python [int] is a [Z]; a Python [list] is a Rocq [list] in the same
      order, so the top of a peg ([l[-1]]) is [last l], [l.pop()] is
      [removelast l] and [l.append(x)] is [l ++ [x]].
    - A [dict] with [str] keys is a [gmap string _]; [d[k]] on a missing key
      raises [KeyError].
    - A function that mutates its arguments or prints runs in a small
      state-and-exception monad over the objects it shares with its caller.
      When an exception is raised the state is kept as it was at the [raise],
      which is what the caller of the Python function observes.
    - Python's recursion is unbounded in the language and bounded by the call
      stack in an implementation.  Recursive functions take a [fuel : nat]
      that bounds the depth of the call stack (and the turns of a [while]
      loop); running out of it is the outcome [Diverge].
    - A Python [float] is a binary64 number ([PrimFloat.float]).  The code
      that computes with floats is written over an interface of the
      operations it uses, with the floats and the exact rationals as
      instances.
    - A [str] is a [string]: the bytes of its UTF-8 form, so that an ASCII
      character is its own byte.  [lower()] is the algorithm of CPython over
      the characters of the string; the Unicode database it consults is a
      parameter ([UnicodeData]), and what a proof uses of the database is
      stated ([UnicodeFacts]).  A [pathlib.Path] is the list of its
      components, and the file system is a finite map from paths to files
      and directories, on which names differ when their bytes do.
    - A [main] is a function of what its environment gives it ([sys.argv],
      the line [input] reads, the built-ins [int] and [Path] on strings) to
      the way it ends, what it wrote on the two streams and the state it
      leaves; [sys.exit(code)] is the ending [Exited code]. *)

From Stdlib Require Import ZArith QArith Lia List Ascii String.
From Stdlib Require Floats.
From stdpp Require Import gmap strings list fin_maps pretty.

Local Open Scope string_scope.
Local Open Scope list_scope.
Local Open Scope Z_scope.

(** ** Outcomes and the state-and-exception monad *)

Module Effects.

(** The exceptions the three scripts raise or let through. *)
Inductive exn : Type :=
  | ValueError (msg : string)
  | KeyError (key : string)
  | OSError (msg : string).

Inductive outcome (A : Type) : Type :=
  | Return (a : A)
  | Raise (e : exn)
  | Diverge.

Arguments Return {A} a.
Arguments Raise {A} e.
Arguments Diverge {A}.

(** A computation over a state [S]: the outcome and the state it leaves. *)
Definition M (S A : Type) : Type := S -> outcome A * S.

Definition ret {S A} (a : A) : M S A := fun s => (Return a, s).

Definition raise {S A} (e : exn) : M S A := fun s => (Raise e, s).

Definition diverge {S A} : M S A := fun s => (Diverge, s).

Definition bind {S A B} (m : M S A) (k : A -> M S B) : M S B :=
  fun s =>
    match m s with
    | (Return a, s') => k a s'
    | (Raise e, s') => (Raise e, s')
    | (Diverge, s') => (Diverge, s')
    end.

Definition get {S} : M S S := fun s => (Return s, s).

Definition modify {S} (f : S -> S) : M S unit := fun s => (Return tt, f s).

(** [if c: body] with no [else]. *)
Definition when {S} (c : bool) (body : M S unit) : M S unit :=
  if c then body else ret tt.

End Effects.

Import Effects.

Declare Scope py_scope.
Delimit Scope py_scope with py.

Notation "x <- m ;; k" := (bind m (fun x => k))
  (at level 100, m at next level, right associativity) : py_scope.
Notation "m ;;; k" := (bind m (fun _ => k))
  (at level 100, right associativity) : py_scope.

(** ** [hanoi_towers.py] *)

Module Hanoi.

(** The [towers] dict: peg name to the disks on it, bottom first. *)
Abbreviation pegs := (gmap string (list Z)).

(** [list(range(start, stop, -1))]: [start, start-1, ..., stop+1]. *)
Fixpoint countdown (len : nat) (start : Z) : list Z :=
  match len with
  | O => []
  | S len' => start :: countdown len' (start - 1)
  end.

Definition range_desc (start stop : Z) : list Z :=
  countdown (Z.to_nat (start - stop)) start.

Definition initialize_towers (n : Z) : exn + pegs :=
  if n <? 1 then inl (ValueError "Number of disks must be at least 1")
  else inr (<["A" := range_desc n 0]> (<["B" := []]> (<["C" := []]> ∅))).

(** [l.pop()] and [l.append(disk)] on the list object stored under a key. *)
Definition pop_at (peg : string) (towers : pegs) : pegs :=
  alter (fun l : list Z => removelast l) peg towers.

Definition append_at (peg : string) (disk : Z) (towers : pegs) : pegs :=
  alter (fun l : list Z => l ++ [disk]) peg towers.

(** [towers[destination] and towers[destination][-1] < disk]. *)
Definition smaller_on_top (dst : list Z) (disk : Z) : bool :=
  match last dst with
  | Some top => top <? disk
  | None => false
  end.

(** [move_disk] as a function of the dict it receives: the exception it
    raises, or the disk it returns and the dict after the two mutations. *)
Definition move_disk (towers : pegs) (source destination : string)
  : exn + (Z * pegs) :=
  match towers !! source with
  | None => inl (KeyError source)
  | Some src =>
    match last src with
    | None => inl (ValueError ("Cannot move from empty tower " +:+ source))
    | Some disk =>
      match towers !! destination with
      | None => inl (KeyError destination)
      | Some dst =>
        if smaller_on_top dst disk then
          inl (ValueError ("Cannot place disk " +:+ pretty disk +:+
                           " on smaller disk " +:+ pretty (default 0 (last dst))))
        else
          inr (disk, append_at destination disk (pop_at source towers))
      end
    end
  end.

(** What a run leaves behind besides the dict: every mutation [move_disk]
    made (with the dict as it was right after), and what was printed. *)
Record move : Type := Move {
  mv_source : string;
  mv_destination : string;
  mv_disk : Z;
  mv_after : pegs
}.

Inductive output : Type :=
  | PrintLine (s : string)
  | PrintTowers (towers : pegs).

Record world : Type := World {
  towers : pegs;
  trace : list move;
  stdout : list output
}.

Definition print (o : output) : M world unit :=
  modify (fun w => World (towers w) (trace w) (stdout w ++ [o])).

(** The call [move_disk(towers, source, destination)] on the shared dict. *)
Definition call_move_disk (source destination : string) : M world Z :=
  fun w =>
    match move_disk (towers w) source destination with
    | inl e => (Raise e, w)
    | inr (disk, towers') =>
      (Return disk,
       World towers' (trace w ++ [Move source destination disk towers']) (stdout w))
    end.

Definition print_tower_state (message : string) : M world unit :=
  (when (negb (String.eqb message "")) (print (PrintLine message)) ;;;
   w <- get ;;
   print (PrintTowers (towers w)))%py.

(** The two lines both branches of [hanoi_recursive] print after a move. *)
Definition show_move (show_steps : bool) (source destination : string) (disk : Z)
  : M world unit :=
  when show_steps
    (print (PrintLine ("Move disk from " +:+ source +:+ " to " +:+ destination +:+
                       ": " +:+ pretty disk)) ;;;
     print_tower_state "Intermediate state:")%py.

Fixpoint hanoi_recursive (fuel : nat) (n : Z) (source destination auxiliary : string)
  (show_steps : bool) : M world unit :=
  match fuel with
  | O => diverge
  | S fuel' =>
    if n =? 1 then
      (disk <- call_move_disk source destination ;;
       show_move show_steps source destination disk)%py
    else
      (hanoi_recursive fuel' (n - 1) source auxiliary destination show_steps ;;;
       disk <- call_move_disk source destination ;;
       show_move show_steps source destination disk ;;;
       hanoi_recursive fuel' (n - 1) auxiliary destination source show_steps)%py
  end.

(** The world before [solve_hanoi] has built its dict. *)
Definition no_world : world := World ∅ [] [].

Definition solve_hanoi (fuel : nat) (n : Z) (show_steps : bool)
  : outcome pegs * world :=
  if n <? 1 then
    (Raise (ValueError "Number of disks must be at least 1"), no_world)
  else
    match initialize_towers n with
    | inl e => (Raise e, no_world)
    | inr towers0 =>
      (when show_steps (print_tower_state "Initial state:") ;;;
       hanoi_recursive fuel n "A" "C" "B" show_steps ;;;
       when show_steps (print_tower_state "Final state:") ;;;
       w <- get ;;
       ret (towers w))%py (World towers0 [] [])
    end.

(** Strictly decreasing from bottom (first) to top (last). *)
Fixpoint strictly_decreasing (l : list Z) : bool :=
  match l with
  | x :: (y :: _) as l' => (y <? x) && strictly_decreasing l'
  | _ => true
  end.

(** Every peg of a dict is strictly decreasing. *)
Definition pegs_sorted (t : pegs) : Prop :=
  forall (peg : string) (l : list Z), t !! peg = Some l -> strictly_decreasing l = true.

End Hanoi.

Import Hanoi.

(** ** [koch_snowflake.py] *)

Module Koch.

(** The arithmetic [koch_snowflake.py] does on [length]: the number a
    literal or an [int] denotes, division, unary minus and [<=].  The
    functions below are written once over this interface.  Python runs them
    on its [float], the binary64 numbers; the exact rationals are the
    instance in which [length / 3] is the third of [length]. *)
Class Number (num : Type) : Type := {
  lit : Z -> num;
  div : num -> num -> num;
  neg : num -> num;
  leb : num -> num -> bool
}.

(** [float(z)]: the binary64 number nearest to the integer [z]. *)
Definition float_of_int (z : Z) : PrimFloat.float :=
  FloatOps.SF2Prim (SpecFloat.binary_normalize FloatOps.prec FloatOps.emax z 0 false).

#[export] Instance float_number : Number PrimFloat.float := {
  lit := float_of_int;
  div := PrimFloat.div;
  neg := PrimFloat.opp;
  leb := PrimFloat.leb
}.

#[export] Instance Q_number : Number Q := {
  lit := inject_Z;
  div := Qdiv;
  neg := Qopp;
  leb := Qle_bool
}.

(** The calls made on the [turtle] module, the screen and the turtle, in
    order: everything the script draws goes through them. *)
Inductive call (num : Type) : Type :=
  | Screen
  | bgcolor (c : string)
  | title (s : string)
  | Turtle
  | speed (v : Z)
  | color (c : string)
  | penup
  | goto (x y : num)
  | pendown
  | forward (distance : num)
  | left (angle : Z)
  | right (angle : Z)
  | hideturtle
  | mainloop.

Arguments Screen {num}.
Arguments bgcolor {num} c.
Arguments title {num} s.
Arguments Turtle {num}.
Arguments speed {num} v.
Arguments color {num} c.
Arguments penup {num}.
Arguments goto {num} x y.
Arguments pendown {num}.
Arguments forward {num} distance.
Arguments left {num} angle.
Arguments right {num} angle.
Arguments hideturtle {num}.
Arguments mainloop {num}.

Section Curve.

Context {num : Type} `{Number num}.

Definition do (c : call num) : M (list (call num)) unit :=
  modify (fun calls => calls ++ [c]).

Fixpoint koch_curve (fuel : nat) (length : num) (level : Z)
  : M (list (call num)) unit :=
  match fuel with
  | O => diverge
  | S fuel' =>
    if level =? 0 then
      do (forward length)
    else
      let length := div length (lit 3) in
      (koch_curve fuel' length (level - 1) ;;;
       do (left 60) ;;;
       koch_curve fuel' length (level - 1) ;;;
       do (right 120) ;;;
       koch_curve fuel' length (level - 1) ;;;
       do (left 60) ;;;
       koch_curve fuel' length (level - 1))%py
  end.

(** [for _ in range(n): body]. *)
Fixpoint for_range {S : Type} (n : nat) (body : M S unit) : M S unit :=
  match n with
  | O => ret tt
  | Datatypes.S n' => (body ;;; for_range n' body)%py
  end.

Definition draw_koch_snowflake (fuel : nat) (length : num) (level : Z)
  : M (list (call num)) unit :=
  if level <? 0 then
    raise (ValueError "Recursion level must be non-negative")
  else if leb length (lit 0) then
    raise (ValueError "Length must be positive")
  else
    (do Screen ;;;
     do (bgcolor "white") ;;;
     do (title ("Koch Snowflake - Level " +:+ pretty level)) ;;;
     do Turtle ;;;
     do (speed 0) ;;;
     do (color "blue") ;;;
     do penup ;;;
     do (goto (div (neg length) (lit 2)) (div length (lit 3))) ;;;
     do pendown ;;;
     for_range 3 (koch_curve fuel length level ;;; do (right 120)) ;;;
     do hideturtle ;;;
     do mainloop)%py.

(** The arguments of the [forward] calls, in order. *)
Fixpoint forwards (calls : list (call num)) : list num :=
  match calls with
  | [] => []
  | forward distance :: calls' => distance :: forwards calls'
  | _ :: calls' => forwards calls'
  end.

(** The sum of the turns, in degrees, counter-clockwise: [left(a)] turns
    by [a], [right(a)] by [-a]. *)
Fixpoint turning (calls : list (call num)) : Z :=
  match calls with
  | [] => 0
  | left angle :: calls' => angle + turning calls'
  | right angle :: calls' => - angle + turning calls'
  | _ :: calls' => turning calls'
  end.

End Curve.

End Koch.

Import Koch.

(** ** [file_copier.py] *)

Module FileCopier.

(** *** The [str] methods used *)

(** [s.rfind(c)]: the index of the last [c] in [s], or [-1]. *)
Fixpoint rfind (c : ascii) (s : string) : Z :=
  match s with
  | EmptyString => -1
  | String a s' =>
    let r := rfind c s' in
    if 0 <=? r then r + 1 else if Ascii.eqb a c then 0 else -1
  end.

(** [s[n:]] and [s[:n]] for [0 <= n]. *)
Fixpoint slice_from (n : nat) (s : string) : string :=
  match n, s with
  | O, _ => s
  | Datatypes.S n', String _ s' => slice_from n' s'
  | Datatypes.S _, EmptyString => EmptyString
  end.

Fixpoint slice_to (n : nat) (s : string) : string :=
  match n, s with
  | O, _ => EmptyString
  | Datatypes.S n', String a s' => String a (slice_to n' s')
  | Datatypes.S _, EmptyString => EmptyString
  end.

(** [s.lstrip(c)] for a single character [c]. *)
Fixpoint lstrip (c : ascii) (s : string) : string :=
  match s with
  | EmptyString => EmptyString
  | String a s' => if Ascii.eqb a c then lstrip c s' else s
  end.

(** [s.lower()] on an ASCII string: the letters A to Z move to a to z,
    every other byte stays. *)
Definition lower_char (a : ascii) : ascii :=
  let n := nat_of_ascii a in
  if (65 <=? n)%nat && (n <=? 90)%nat then ascii_of_nat (n + 32) else a.

Fixpoint ascii_lower (s : string) : string :=
  match s with
  | EmptyString => EmptyString
  | String a s' => String (lower_char a) (ascii_lower s')
  end.

(** The characters of a [str].  A character is held as the one to four
    bytes of its UTF-8 form (a lone surrogate as the three bytes that
    [surrogatepass] writes), so that every [str] has its bytes.  A byte that
    belongs to no such form stands for no character; it is taken on its own
    and left alone. *)
Definition byte_in (lo hi : nat) (a : ascii) : bool :=
  ((lo <=? nat_of_ascii a) && (nat_of_ascii a <=? hi))%nat.

Definition is_continuation (a : ascii) : bool := byte_in 128 191 a.

Definition sequence2 (a b : ascii) : bool :=
  byte_in 194 223 a && is_continuation b.

Definition sequence3 (a b c : ascii) : bool :=
  (byte_in 224 224 a && byte_in 160 191 b || byte_in 225 239 a && is_continuation b) &&
  is_continuation c.

Definition sequence4 (a b c d : ascii) : bool :=
  (byte_in 240 240 a && byte_in 144 191 b || byte_in 241 243 a && is_continuation b ||
   byte_in 244 244 a && byte_in 128 143 b) &&
  is_continuation c && is_continuation d.

(** [u] is the form of one character. *)
Definition is_character (u : string) : bool :=
  match u with
  | String a "" => byte_in 0 127 a
  | String a (String b "") => sequence2 a b
  | String a (String b (String c "")) => sequence3 a b c
  | String a (String b (String c (String d ""))) => sequence4 a b c d
  | _ => false
  end.

(** The number of bytes of the character that [s] starts with; 1 where it
    starts with none. *)
Definition head_length (s : string) : nat :=
  match s with
  | String a (String b rest) =>
    if sequence2 a b then 2
    else
      match rest with
      | String c rest' =>
        if sequence3 a b c then 3
        else
          match rest' with
          | String d _ => if sequence4 a b c d then 4 else 1
          | _ => 1
          end
      | _ => 1
      end
  | _ => 1
  end%nat.

(** The characters of [s], in order; the first [skip] bytes belong to the
    character before. *)
Fixpoint characters_skipping (skip : nat) (s : string) : list string :=
  match s with
  | "" => []
  | String a s' =>
    match skip with
    | Datatypes.S k => characters_skipping k s'
    | O => slice_to (head_length s) s :: characters_skipping (head_length s - 1) s'
    end
  end.

Definition characters (s : string) : list string := characters_skipping 0 s.

(** [s.isascii()]. *)
Definition is_ascii (s : string) : bool :=
  forallb (byte_in 0 127) (list_ascii_of_string s).

(** What [str.lower] takes from the Unicode database of the interpreter:
    the lowercase mapping of a character (one character or more), and the two
    properties of characters that decide between the two lowercase forms of
    the capital sigma.  Each is given on the bytes of a character. *)
Class UnicodeData : Type := {
  to_lower_full : string -> string;
  is_cased : string -> bool;
  is_case_ignorable : string -> bool
}.

(** U+03A3, U+03C3 and U+03C2. *)
Definition capital_sigma : string := String "206" (String "163" "").
Definition small_sigma : string := String "207" (String "131" "").
Definition final_sigma : string := String "207" (String "130" "").

Section Lowercase.

Context {unicode : UnicodeData}.

Definition cased (u : string) : bool := is_character u && is_cased u.

Definition case_ignorable (u : string) : bool := is_character u && is_case_ignorable u.

(** The first of the characters [text] that is not case-ignorable is
    cased (the second loop of CPython's [handle_capital_sigma]). *)
Fixpoint cased_follows (text : list string) : bool :=
  match text with
  | [] => false
  | u :: text' => if case_ignorable u then cased_follows text' else cased u
  end.

(** The lowercase of the character [u] that the characters [text] follow
    (CPython's [lower_ucs4]).  [after_cased]: the last character before [u]
    that is not case-ignorable is cased.  A capital sigma takes the final form
    when a cased character stands before it and none after it, case-ignorable
    characters apart; every other character takes its lowercase mapping. *)
Definition lower_character (after_cased : bool) (u : string) (text : list string)
  : string :=
  if String.eqb u capital_sigma then
    if after_cased && negb (cased_follows text) then final_sigma else small_sigma
  else if is_character u then to_lower_full u
  else u.

(** Character after character (CPython's [do_lower]). *)
Fixpoint lower_text (after_cased : bool) (text : list string) : string :=
  match text with
  | [] => ""
  | u :: text' =>
    lower_character after_cased u text' +:+
    lower_text (if case_ignorable u then after_cased else cased u) text'
  end.

(** [s.lower()]: an ASCII string takes the short way, as in CPython. *)
Definition lower (s : string) : string :=
  if is_ascii s then ascii_lower s else lower_text false (characters s).

End Lowercase.

(** [c in s]. *)
Fixpoint contains (c : ascii) (s : string) : bool :=
  match s with
  | EmptyString => false
  | String a s' => Ascii.eqb a c || contains c s'
  end.

(** *** [pathlib.Path] *)

(** A path is the list of its components; [p / child] adds one. *)
Abbreviation path := (list string).

Definition joinpath (p : path) (child : string) : path := p ++ [child].

(** [str(p)]. *)
Definition render (p : path) : string := String.concat "/" p.

(** [p.name]: the final component. *)
Definition name (p : path) : string := default "" (last p).

(** [p.suffix] and [p.stem] as [pathlib] computes them (up to Python 3.13):
    the name is cut at its last dot, unless that dot is the first or the
    last character. *)
Definition suffix (p : path) : string :=
  let name := name p in
  let i := rfind "." name in
  if (0 <? i) && (i <? Z.of_nat (String.length name) - 1)
  then slice_from (Z.to_nat i) name else "".

Definition stem (p : path) : string :=
  let name := name p in
  let i := rfind "." name in
  if (0 <? i) && (i <? Z.of_nat (String.length name) - 1)
  then slice_to (Z.to_nat i) name else name.

Definition get_file_extension {unicode : UnicodeData} (file_path : path) : string :=
  let extension := lstrip "." (suffix file_path) in
  if String.eqb extension "" then "no_extension" else lower extension.

(** From Python 3.14 on [p.suffix] follows [os.path.splitext]: the name is
    cut at its last dot unless nothing but dots comes before it, so that a
    final dot is a suffix of its own.  [get_file_extension] on that
    [pathlib]: *)
Definition suffix_splitext (p : path) : string :=
  let name := name p in
  let i := rfind "." name in
  if (0 <=? i) && negb (String.eqb (lstrip "." (slice_to (Z.to_nat i) name)) "")
  then slice_from (Z.to_nat i) name else "".

Definition get_file_extension_splitext {unicode : UnicodeData} (file_path : path)
  : string :=
  let extension := lstrip "." (suffix_splitext file_path) in
  if String.eqb extension "" then "no_extension" else lower extension.

(** *** The file system *)

Inductive node : Type :=
  | File (content : string) (mtime : Z)
  | Dir.

(** What the script acts on: the files and directories by path (the empty
    path is the directory every path starts from), and the two streams. *)
Record machine : Type := Machine {
  files : gmap path node;
  out : list string;
  err : list string
}.

Definition print_out (line : string) : M machine unit :=
  modify (fun m => Machine (files m) (out m ++ [line]) (err m)).

Definition print_err (line : string) : M machine unit :=
  modify (fun m => Machine (files m) (out m) (err m ++ [line])).

(** [try: body / except OSError as e: handler(e); raise]. *)
Definition reraising_OSError {A : Type} (body : M machine A)
  (handler : string -> M machine unit) : M machine A :=
  fun m =>
    match body m with
    | (Raise (OSError msg), m') =>
      match handler msg m' with
      | (Return _, m'') => (Raise (OSError msg), m'')
      | (Raise e, m'') => (Raise e, m'')
      | (Diverge, m'') => (Diverge, m'')
      end
    | r => r
    end.

Definition is_dir (fs : gmap path node) (p : path) : bool :=
  match p, fs !! p with
  | [], _ => true
  | _, Some Dir => true
  | _, _ => false
  end.

Definition is_file (fs : gmap path node) (p : path) : bool :=
  match fs !! p with
  | Some (File _ _) => true
  | _ => false
  end.

Definition exists_ (fs : gmap path node) (p : path) : bool :=
  match p, fs !! p with
  | [], _ => true
  | _, Some _ => true
  | _, None => false
  end.

(** [p.mkdir(parents=True, exist_ok=True)]: every missing directory on the
    way is created; a file on the way, or in the place of [p], is an error. *)
Fixpoint make_dirs (done : path) (todo : list string) (fs : gmap path node)
  : exn + gmap path node :=
  match todo with
  | [] => inr fs
  | child :: todo' =>
    let p := joinpath done child in
    match fs !! p with
    | Some Dir => make_dirs p todo' fs
    | Some (File _ _) => inl (OSError ("File exists: " +:+ render p))
    | None => make_dirs p todo' (<[p := Dir]> fs)
    end
  end.

Definition mkdir (p : path) : M machine unit :=
  fun m =>
    match make_dirs [] p (files m) with
    | inl e => (Raise e, m)
    | inr fs => (Return tt, Machine fs (out m) (err m))
    end.

(** [shutil.copy2(src, dst)] where [dst] names no directory: content and
    modification time go to [dst]. *)
Definition copy2 (src dst : path) : M machine unit :=
  fun m =>
    match files m !! src with
    | Some (File content mtime) =>
      if is_dir (files m) (removelast dst) then
        (Return tt, Machine (<[dst := File content mtime]> (files m)) (out m) (err m))
      else (Raise (OSError ("No such file or directory: " +:+ render dst)), m)
    | _ => (Raise (OSError ("No such file or directory: " +:+ render src)), m)
    end.

Section Traversal.

Context {unicode : UnicodeData}.

(** The order in which the system lists a directory is not specified. *)
Variable listing_order : list path -> list path.

(** [p.iterdir()]: the entries of [p] as they are when the loop starts. *)
Definition iterdir (p : path) : M machine (list path) :=
  fun m =>
    if is_dir (files m) p then
      (Return (listing_order
                 (filter (fun q => q <> [] /\ removelast q = p)
                         (fst <$> map_to_list (files m)))), m)
    else (Raise (OSError ("Not a directory: " +:+ render p)), m).

(** The [while destination_file.exists()] loop; [fuel] bounds its turns. *)
Fixpoint free_name (fuel : nat) (fs : gmap path node) (extension_dir : path)
  (original_stem sfx : string) (destination_file : path) (counter : Z)
  : option path :=
  if exists_ fs destination_file then
    match fuel with
    | O => None
    | Datatypes.S fuel' =>
      let new_name := original_stem +:+ "_" +:+ pretty counter +:+ sfx in
      free_name fuel' fs extension_dir original_stem sfx
                (joinpath extension_dir new_name) (counter + 1)
    end
  else Some destination_file.

Definition copy_file_to_destination (fuel : nat) (file_path destination_base : path)
  : M machine unit :=
  reraising_OSError
    (let extension := get_file_extension file_path in
     let extension_dir := joinpath destination_base extension in
     mkdir extension_dir ;;;
     m <- get ;;
     match free_name fuel (files m) extension_dir (stem file_path) (suffix file_path)
                     (joinpath extension_dir (name file_path)) 1 with
     | None => diverge
     | Some destination_file =>
       copy2 file_path destination_file ;;;
       print_out ("Copied: " +:+ render file_path +:+ " -> " +:+ render destination_file)
     end)%py
    (fun e => print_err ("Error copying file " +:+ render file_path +:+ ": " +:+ e)).

(** [for item in items: body(item)]. *)
Fixpoint for_each {S A : Type} (items : list A) (body : A -> M S unit) : M S unit :=
  match items with
  | [] => ret tt
  | item :: items' => (body item ;;; for_each items' body)%py
  end.

Fixpoint process_directory_recursive (fuel : nat) (source_dir destination_dir : path)
  : M machine unit :=
  match fuel with
  | O => diverge
  | Datatypes.S fuel' =>
    reraising_OSError
      (items <- iterdir source_dir ;;
       for_each items (fun item =>
         m <- get ;;
         if is_file (files m) item then
           copy_file_to_destination fuel item destination_dir
         else if is_dir (files m) item then
           process_directory_recursive fuel' item destination_dir
         else ret tt))%py
      (fun e => print_err ("Error accessing directory " +:+ render source_dir +:+
                           ": " +:+ e))
  end.

End Traversal.

End FileCopier.

Import FileCopier.

(** ** The entry points [main] *)

Module Cli.

(** How a [main] ends: it returns, it leaves through [sys.exit(code)], or
    the depth allowed to the call stack did not suffice. *)
Inductive ending : Type :=
  | Finished
  | Exited (code : Z)
  | Unfinished.

(** [str(e)] for the exceptions of [Effects]. *)
Definition str_exn (e : exn) : string :=
  match e with
  | ValueError msg => msg
  | KeyError key => "'" +:+ key +:+ "'"
  | OSError msg => msg
  end.

(** What the environment gives a [main]: the list [sys.argv], and what the
    one call of [input] does (the line typed, or the exception raised, one
    of [Effects]). *)
Record environment : Type := Environment {
  argv : list string;
  input : exn + string
}.

(** [int(sys.argv[1])] or, without that argument, [int(input(prompt))],
    with what was written on the way; [int_] is the built-in [int] on
    strings, which returns an integer or raises. *)
Definition read_number (int_ : string -> exn + Z) (env : environment)
  : (exn + Z) * bool :=
  match argv env with
  | _ :: arg :: _ => (int_ arg, false)
  | _ => (match input env with inl e => inl e | inr line => int_ line end, true)
  end.

(** What is written on the standard output: the prompt of [input], or what
    a [print] prints. *)
Inductive console (O : Type) : Type :=
  | Prompt (s : string)
  | Printed (o : O).

Arguments Prompt {O} s.
Arguments Printed {O} o.

(** What a [main] leaves behind: how it ended, the two streams, and the
    state [G] of what it acts on besides. *)
Record result (O G : Type) : Type := Result {
  ending_of : ending;
  written : list (console O);
  errors : list string;
  state_of : G
}.

Arguments Result {O G} _ _ _ _.
Arguments ending_of {O G} _.
Arguments written {O G} _.
Arguments errors {O G} _.
Arguments state_of {O G} _.

End Cli.

Import Cli.

Module HanoiCli.

Section Main.

Variable int_ : string -> exn + Z.

(** The two [except] clauses. *)
Definition handle (e : exn) (out : list (console output)) : result output unit :=
  match e with
  | ValueError msg =>
    Result (Exited 1)
           (out ++ [Printed (PrintLine "Usage: python hanoi_towers.py [number_of_disks]")])
           ["Error: " +:+ msg] tt
  | _ => Result (Exited 1) out ["Unexpected error: " +:+ str_exn e] tt
  end.

Definition main (fuel : nat) (env : environment) : result output unit :=
  let '(number, prompted) := read_number int_ env in
  let out := if prompted then [Prompt "Enter number of disks: "] else [] in
  match number with
  | inl e => handle e out
  | inr n =>
    if n <? 1 then handle (ValueError "Number of disks must be at least 1") out
    else
      let out :=
        out ++
        (if 10 <? n then
           [Printed (PrintLine "Warning: Large number of disks will result in many steps");
            Printed (PrintLine ("Total moves required: " +:+ pretty (2 ^ n - 1)))]
         else []) in
      match solve_hanoi fuel n true with
      | (Return _, w) => Result Finished (out ++ (Printed <$> stdout w)) [] tt
      | (Raise e, w) => handle e (out ++ (Printed <$> stdout w))
      | (Diverge, w) => Result Unfinished (out ++ (Printed <$> stdout w)) [] tt
      end
  end.

End Main.

End HanoiCli.

Module KochCli.

Section Main.

Context {num : Type} `{Number num}.

Variable int_ : string -> exn + Z.

(** The two [except] clauses; [calls] is what was drawn until then. *)
Definition handle (e : exn) (out : list (console string)) (calls : list (call num))
  : result string (list (call num)) :=
  match e with
  | ValueError msg =>
    Result (Exited 1) (out ++ [Printed "Usage: python koch_snowflake.py [level]"])
           ["Error: " +:+ msg] calls
  | _ => Result (Exited 1) out ["Unexpected error: " +:+ str_exn e] calls
  end.

Definition main (fuel : nat) (env : environment) : result string (list (call num)) :=
  let '(number, prompted) := read_number int_ env in
  let out :=
    if prompted then [Prompt "Enter recursion level (0-6 recommended): "] else [] in
  match number with
  | inl e => handle e out []
  | inr level =>
    if level <? 0 then handle (ValueError "Recursion level must be non-negative") out []
    else
      let out :=
        out ++
        (if 6 <? level
         then [Printed "Warning: High recursion levels may be slow to render"] else []) ++
        [Printed ("Drawing Koch snowflake with recursion level " +:+ pretty level +:+ "...")] in
      match draw_koch_snowflake fuel (lit 300) level [] with
      | (Return _, calls) => Result Finished out [] calls
      | (Raise e, calls) => handle e out calls
      | (Diverge, calls) => Result Unfinished out [] calls
      end
  end.

End Main.

End KochCli.

Module CopierCli.

Section Main.

Context {unicode : UnicodeData}.

(** [Path(s)] on a string, and the order in which the system lists a
    directory. *)
Variable to_path : string -> path.
Variable listing_order : list path -> list path.

Definition parse_arguments (args : list string) : M machine (path * path) :=
  match args with
  | [] => raise (ValueError "Source directory is required")
  | source :: rest =>
    let source_dir := to_path source in
    let destination_dir :=
      match rest with
      | destination :: _ => to_path destination
      | [] => to_path "dist"
      end in
    (m <- get ;;
     if negb (exists_ (files m) source_dir) then
       raise (ValueError ("Source directory does not exist: " +:+ render source_dir))
     else if negb (is_dir (files m) source_dir) then
       raise (ValueError ("Source path is not a directory: " +:+ render source_dir))
     else ret (source_dir, destination_dir))%py
  end.

(** The [try] block of [main]; [argv] is [sys.argv]. *)
Definition run (fuel : nat) (argv : list string) : M machine unit :=
  (dirs <- parse_arguments (tail argv) ;;
   let '(source_dir, destination_dir) := dirs in
   print_out ("Source directory: " +:+ render source_dir) ;;;
   print_out ("Destination directory: " +:+ render destination_dir) ;;;
   print_out "Starting file copying process..." ;;;
   process_directory_recursive listing_order fuel source_dir destination_dir ;;;
   print_out (String "010" "File copying completed successfully!"))%py.

Definition usage : string :=
  "Usage: python file_copier.py <source_directory> [destination_directory]".

(** [main] with its three [except] clauses. *)
Definition main (fuel : nat) (argv : list string) (m : machine) : ending * machine :=
  match run fuel argv m with
  | (Return _, m') => (Finished, m')
  | (Raise (ValueError msg), m') =>
    (Exited 1, Machine (files m') (out m' ++ [usage]) (err m' ++ ["Error: " +:+ msg]))
  | (Raise (OSError msg), m') =>
    (Exited 1, Machine (files m') (out m') (err m' ++ ["Error: " +:+ msg]))
  | (Raise e, m') =>
    (Exited 1, Machine (files m') (out m') (err m' ++ ["Unexpected error: " +:+ str_exn e]))
  | (Diverge, m') => (Unfinished, m')
  end.

End Main.

End CopierCli.

(* ================================================================== *)
(** * Vocabulary of the properties *)

(** ** Towers of Hanoi: output, equal runs, traces *)

(** What [print_tower_state] and [show_move] append to the output. *)
Definition tower_state_lines (message : string) (t : pegs) : list output :=
  (if String.eqb message "" then [] else [PrintLine message]) ++ [PrintTowers t].

Definition show_move_lines (show_steps : bool) (s d : string) (disk : Z) (t : pegs)
  : list output :=
  if show_steps then
    PrintLine ("Move disk from " +:+ s +:+ " to " +:+ d +:+ ": " +:+ pretty disk)
      :: tower_state_lines "Intermediate state:" t
  else [].

(** Two runs made the same moves: same outcome, same dict, same mutations. *)
Definition same_moves {A : Type} (r1 r2 : outcome A * world) : Prop :=
  fst r1 = fst r2 /\ towers (snd r1) = towers (snd r2) /\ trace (snd r1) = trace (snd r2).

(** The recorded moves are the successive states of the dict: each entry is
    the result of [move_disk] on the state the previous entry left. *)
Fixpoint replays (t : pegs) (ms : list move) : Prop :=
  match ms with
  | [] => True
  | m :: ms' =>
    move_disk t (mv_source m) (mv_destination m) = inr (mv_disk m, mv_after m) /\
    replays (mv_after m) ms'
  end.

Definition state_after (t : pegs) (ms : list move) : pegs :=
  match last ms with
  | Some m => mv_after m
  | None => t
  end.

(** A run extends the trace by moves that replay from where it started and
    lead to where it ended. *)
Definition extends {A : Type} (w : world) (r : outcome A * world) : Prop :=
  exists new, trace (snd r) = trace w ++ new /\
              replays (towers w) new /\
              towers (snd r) = state_after (towers w) new.

(** The disks on the pegs, peg after peg. *)
Definition disks_on (t : pegs) : list Z := flat_map snd (map_to_list t).

(** The textbook plan for [k] disks from [s] to [d] by way of [a]: the pegs
    of each move, in order. *)
Fixpoint transfer_plan (k : nat) (s d a : string) : list (string * string) :=
  match k with
  | O => []
  | Datatypes.S k' => transfer_plan k' s a d ++ [(s, d)] ++ transfer_plan k' a d s
  end.

Definition pegs_of (m : move) : string * string := (mv_source m, mv_destination m).

(** What the moves [ms] print when the steps are shown. *)
Definition trace_lines (ms : list move) : list output :=
  flat_map (fun m => show_move_lines true (mv_source m) (mv_destination m) (mv_disk m)
                       (mv_after m)) ms.

(** A run printed its moves, and nothing else. *)
Definition prints_its_moves {A : Type} (w : world) (r : outcome A * world) : Prop :=
  exists new, trace (snd r) = trace w ++ new /\
              stdout (snd r) = stdout w ++ trace_lines new.

(** The lines [Intermediate state:] among what [main] wrote: one per move
    shown. *)
Definition shows_a_move (c : console output) : bool :=
  match c with
  | Printed (PrintLine s) => String.eqb s "Intermediate state:"
  | _ => false
  end.

Definition moves_shown (out : list (console output)) : Z :=
  Z.of_nat (length (List.filter shows_a_move out)).

(** ** Koch snowflake *)

(** [length] after [k] times [length /= 3.0]. *)
Definition thirds {num : Type} `{Number num} (k : nat) (length : num) : num :=
  Nat.iter k (fun x => div x (lit 3)) length.

(** The calls [koch_curve] makes at level [k]. *)
Fixpoint curve_calls {num : Type} `{Number num} (k : nat) (length : num)
  : list (call num) :=
  match k with
  | O => [forward length]
  | Datatypes.S k' =>
    let length := div length (lit 3) in
    curve_calls k' length ++ [left 60] ++ curve_calls k' length ++ [right 120] ++
    curve_calls k' length ++ [left 60] ++ curve_calls k' length
  end.

(** The angles of the left and of the right turns, in order. *)
Fixpoint lefts {num : Type} (calls : list (call num)) : list Z :=
  match calls with
  | [] => []
  | left angle :: calls' => angle :: lefts calls'
  | _ :: calls' => lefts calls'
  end.

Fixpoint rights {num : Type} (calls : list (call num)) : list Z :=
  match calls with
  | [] => []
  | right angle :: calls' => angle :: rights calls'
  | _ :: calls' => rights calls'
  end.

(** ** File sorter *)

(** The concrete case of the specification: a directory [src] that holds
    exactly [a.txt], [b.TXT] and [README], and an empty directory [dest]. *)
Definition three_files (a b readme : node) : gmap path node :=
  <[ ["src"] := Dir ]>
    (<[ ["src"; "a.txt"] := a ]>
       (<[ ["src"; "b.TXT"] := b ]>
          (<[ ["src"; "README"] := readme ]>
             (<[ ["dest"] := Dir ]> ∅)))).

(** The same with the copies in their buckets. *)
Definition three_files_sorted (a b readme : node) : gmap path node :=
  <[ ["dest"; "txt"] := Dir ]>
    (<[ ["dest"; "txt"; "a.txt"] := a ]>
       (<[ ["dest"; "txt"; "b.TXT"] := b ]>
          (<[ ["dest"; "no_extension"] := Dir ]>
             (<[ ["dest"; "no_extension"; "README"] := readme ]>
                (three_files a b readme))))).

(** The paths of the files (not the directories) below [dir]. *)
Definition files_below (dir : path) (fs : gmap path node) : list path :=
  filter (fun q => is_file fs q = true /\ take (Datatypes.length dir) q = dir)
         (fst <$> map_to_list fs).

(** The name the [while] loop of [copy_file_to_destination] tries at
    [counter]. *)
Definition numbered (original_stem sfx : string) (counter : Z) : string :=
  original_stem +:+ "_" +:+ pretty counter +:+ sfx.

(** A run only adds entries: whatever was there is still there, as it was. *)
Definition only_adds {A : Type} (m : machine) (r : outcome A * machine) : Prop :=
  files m ⊆ files (snd r).

(** The characters [text], one after the other. *)
Fixpoint join (text : list string) : string :=
  match text with
  | [] => ""
  | u :: text' => u +:+ join text'
  end.

(** The continuation bytes [s] starts with, [n] at most. *)
Fixpoint continuation_prefix (n : nat) (s : string) : string :=
  match n, s with
  | Datatypes.S n', String a s' =>
    if is_continuation a then String a (continuation_prefix n' s') else ""
  | _, _ => ""
  end.

(** A character that [lower] leaves as it is, whatever stands around it. *)
Definition is_lowercase {unicode : UnicodeData} (u : string) : Prop :=
  u <> capital_sigma /\ (is_character u = true -> to_lower_full u = u).

(** What the proofs use of the Unicode database.  On an ASCII character
    the mapping is the one of [lower_char]; the lowercase of a character is
    a text (characters, one at least), each of which is lowercase; a dot
    comes from a dot only; the two lowercase sigmas are lowercase.  Each holds
    at every code point of the database that CPython 3.11 has (Unicode 14). *)
Class UnicodeFacts {unicode : UnicodeData} : Prop := {
  lower_of_ascii : forall a,
    byte_in 0 127 a = true -> to_lower_full (String a "") = String (lower_char a) "";
  lower_is_text : forall u,
    is_character u = true ->
    to_lower_full u <> "" /\
    Forall (fun v => is_character v = true) (characters (to_lower_full u));
  lower_is_lowercase : forall u v,
    is_character u = true -> In v (characters (to_lower_full u)) -> is_lowercase v;
  lower_keeps_dots_out : forall u,
    is_character u = true -> u <> "." -> contains "." (to_lower_full u) = false;
  sigmas_are_lowercase :
    to_lower_full small_sigma = small_sigma /\ to_lower_full final_sigma = final_sigma
}.

(** A fragment of the Unicode database, for the examples: the ASCII
    letters, a few Latin and Greek letters, the capital I with a dot (whose
    lowercase is two characters) and the Kelvin sign, the bytes 226 132 170
    (whose lowercase is the ASCII k).  Every other character is taken as its
    own lowercase. *)
Definition sample_lowercase : list (string * string) :=
  [("Ä", "ä"); ("Ö", "ö"); ("Α", "α"); ("Σ", "σ"); ("İ", "i̇");
   (String "226" (String "132" (String "170" "")), "k")].

Definition sample_cased : list string :=
  ["Ä"; "ä"; "Ö"; "ö"; "Α"; "α"; "Σ"; "σ"; "ς"; "İ";
   String "226" (String "132" (String "170" ""))].

Definition sample_case_ignorable : list string := ["."; "'"; ":"; "^"; "`"; "̇"].

Fixpoint table_lookup (u : string) (table : list (string * string)) : option string :=
  match table with
  | [] => None
  | (k, v) :: table' => if String.eqb u k then Some v else table_lookup u table'
  end.

Definition is_ascii_letter (u : string) : bool :=
  match u with
  | String a "" => byte_in 65 90 a || byte_in 97 122 a
  | _ => false
  end.

Definition unicode_sample : UnicodeData := {|
  to_lower_full u :=
    match u with
    | String a "" => String (lower_char a) ""
    | _ => default u (table_lookup u sample_lowercase)
    end;
  is_cased u := is_ascii_letter u || existsb (String.eqb u) sample_cased;
  is_case_ignorable u := existsb (String.eqb u) sample_case_ignorable
|}.

(* ================================================================== *)
(** * Properties *)

(** ** The monad *)

Section MonadFacts.

Context {S A B : Type}.

Lemma bind_Return (m : M S A) (k : A -> M S B) s a s' :
  m s = (Return a, s') -> bind m k s = k a s'.
Proof. intros H. unfold bind. now rewrite H. Qed.

Lemma bind_Raise (m : M S A) (k : A -> M S B) s e s' :
  m s = (Raise e, s') -> bind m k s = (Raise e, s').
Proof. intros H. unfold bind. now rewrite H. Qed.

Lemma bind_Diverge (m : M S A) (k : A -> M S B) s s' :
  m s = (Diverge, s') -> bind m k s = (Diverge, s').
Proof. intros H. unfold bind. now rewrite H. Qed.

End MonadFacts.

(** ** Towers of Hanoi *)

Section HanoiLists.

Lemma strictly_decreasing_cons x l :
  strictly_decreasing (x :: l) = true <->
  (forall y, head l = Some y -> y < x) /\ strictly_decreasing l = true.
Proof.
  destruct l as [|y l]; simpl.
  - split; [intros _; split; [intros y Hy; discriminate | reflexivity] | reflexivity].
  - rewrite andb_true_iff, Z.ltb_lt. split.
    + intros [Hlt Hsd]. split; [intros z Hz; injection Hz as <-; exact Hlt | exact Hsd].
    + intros [Hlt Hsd]. split; [apply Hlt; reflexivity | exact Hsd].
Qed.

(** The Boolean test says what the specification's words say: a disk
    further up is smaller than any disk below it. *)
Lemma strictly_decreasing_lookup l :
  strictly_decreasing l = true <->
  (forall (i j : nat) (x y : Z), (i < j)%nat -> l !! i = Some x -> l !! j = Some y -> y < x).
Proof.
  induction l as [|a l IH].
  - split; [intros _ i j x y _ Hi; now rewrite lookup_nil in Hi | reflexivity].
  - rewrite strictly_decreasing_cons, IH. split.
    + intros [Hhd Hl] i j x y Hij Hi Hj.
      destruct j as [|j]; [lia|]. simpl in Hj.
      destruct i as [|i]; simpl in Hi.
      * injection Hi as <-.
        destruct l as [|b l]; [now rewrite lookup_nil in Hj|].
        specialize (Hhd b eq_refl).
        destruct j as [|j]; simpl in Hj; [injection Hj as <-; exact Hhd|].
        enough (y < b) by lia.
        apply (Hl O (Datatypes.S j) b y); [lia | reflexivity | exact Hj].
      * apply (Hl i j x y); [lia | exact Hi | exact Hj].
    + intros H. split.
      * intros y Hy. destruct l as [|b l]; [discriminate|]. injection Hy as <-.
        apply (H O 1%nat a b); [lia | reflexivity | reflexivity].
      * intros i j x y Hij Hi Hj.
        apply (H (Datatypes.S i) (Datatypes.S j) x y); [lia | exact Hi | exact Hj].
Qed.

Lemma strictly_decreasing_app_l l1 l2 :
  strictly_decreasing (l1 ++ l2) = true -> strictly_decreasing l1 = true.
Proof.
  rewrite !strictly_decreasing_lookup. intros H i j x y Hij Hi Hj.
  apply (H i j x y Hij); apply lookup_app_l_Some; assumption.
Qed.

Lemma strictly_decreasing_snoc l x :
  strictly_decreasing (l ++ [x]) = true <->
  strictly_decreasing l = true /\ (forall top, last l = Some top -> x < top).
Proof.
  induction l as [|a l IH].
  - split; [intros _; split; [reflexivity | intros top Ht; discriminate] | reflexivity].
  - change ((a :: l) ++ [x]) with (a :: (l ++ [x])).
    rewrite !strictly_decreasing_cons, IH. destruct l as [|b l].
    + split.
      * intros [Hhd _]. split; [split; [intros y Hy; discriminate | reflexivity]|].
        intros top Ht. injection Ht as <-. apply Hhd. reflexivity.
      * intros [_ Htop]. split; [|split; [reflexivity | intros top Ht; discriminate]].
        intros y Hy. injection Hy as <-. apply Htop. reflexivity.
    + change (last (a :: b :: l)) with (last (b :: l)).
      change (head ((b :: l) ++ [x])) with (head (b :: l)). tauto.
Qed.

Lemma strictly_decreasing_countdown l len k :
  strictly_decreasing (l ++ [k]) = true ->
  strictly_decreasing (l ++ countdown len k) = true.
Proof.
  revert l k. induction len as [|len IH]; intros l k H; simpl.
  - rewrite app_nil_r. now apply strictly_decreasing_app_l in H.
  - change (k :: countdown len (k - 1)) with ([k] ++ countdown len (k - 1)).
    rewrite app_assoc. apply IH. apply strictly_decreasing_snoc. split; [exact H|].
    intros top Ht. rewrite last_snoc in Ht. injection Ht as <-. lia.
Qed.

Lemma strictly_decreasing_lower l x y :
  strictly_decreasing (l ++ [x]) = true -> y <= x ->
  strictly_decreasing (l ++ [y]) = true.
Proof.
  rewrite !strictly_decreasing_snoc. intros [Hl Htop] Hy. split; [exact Hl|].
  intros top Ht. specialize (Htop top Ht). lia.
Qed.

Lemma strictly_decreasing_push l x y :
  strictly_decreasing (l ++ [x]) = true -> y < x ->
  strictly_decreasing ((l ++ [x]) ++ [y]) = true.
Proof.
  intros H Hy. apply strictly_decreasing_snoc. split; [exact H|].
  intros top Ht. rewrite last_snoc in Ht. injection Ht as <-. exact Hy.
Qed.

Lemma smaller_on_top_false l x :
  strictly_decreasing (l ++ [x]) = true -> smaller_on_top l x = false.
Proof.
  rewrite strictly_decreasing_snoc. intros [_ Htop]. unfold smaller_on_top.
  destruct (last l) as [top|]; [|reflexivity].
  apply Z.ltb_ge. specialize (Htop top eq_refl). lia.
Qed.

Lemma range_desc_cons start stop :
  stop < start -> range_desc start stop = start :: range_desc (start - 1) stop.
Proof.
  intros H. unfold range_desc.
  replace (Z.to_nat (start - stop)) with (Datatypes.S (Z.to_nat (start - 1 - stop))) by lia.
  reflexivity.
Qed.

Lemma range_desc_nil start stop : start <= stop -> range_desc start stop = [].
Proof.
  intros H. unfold range_desc. replace (Z.to_nat (start - stop)) with O by lia.
  reflexivity.
Qed.

End HanoiLists.

Section HanoiRuns.

Implicit Types (t : pegs) (w : world) (s d a : string).

Lemma pop_at_lookup t s l :
  t !! s = Some l -> pop_at s t = <[s := removelast l]> t.
Proof.
  intros H. unfold pop_at. apply map_eq. intros p.
  rewrite lookup_alter, lookup_insert. case_decide; [now rewrite H | reflexivity].
Qed.

Lemma append_at_lookup t d x l :
  t !! d = Some l -> append_at d x t = <[d := l ++ [x]]> t.
Proof.
  intros H. unfold append_at. apply map_eq. intros p.
  rewrite lookup_alter, lookup_insert. case_decide; [now rewrite H | reflexivity].
Qed.

(** A legal move between two different pegs, as an update of the dict. *)
Lemma move_disk_legal t s d ls ld x :
  s <> d -> t !! s = Some (ls ++ [x]) -> t !! d = Some ld ->
  smaller_on_top ld x = false ->
  move_disk t s d = inr (x, <[d := ld ++ [x]]> (<[s := ls]> t)).
Proof.
  intros Hsd Hs Hd Htop. unfold move_disk.
  rewrite Hs, last_snoc, Hd, Htop.
  rewrite (pop_at_lookup _ _ _ Hs), removelast_last.
  rewrite (append_at_lookup _ _ _ ld); [reflexivity|].
  now rewrite lookup_insert_ne.
Qed.

Lemma pegs_sorted_insert t p l :
  pegs_sorted t -> strictly_decreasing l = true -> pegs_sorted (<[p := l]> t).
Proof.
  intros Ht Hl q l'. rewrite lookup_insert. case_decide.
  - intros [= <-]. exact Hl.
  - apply Ht.
Qed.

Lemma print_tower_state_run message w :
  print_tower_state message w =
  (Return tt, World (towers w) (trace w) (stdout w ++ tower_state_lines message (towers w))).
Proof.
  destruct w as [t tr out]. unfold print_tower_state, tower_state_lines, bind, when, print,
    modify, get, ret. simpl.
  destruct (String.eqb message ""); simpl; [reflexivity|].
  now rewrite <- app_assoc.
Qed.

Lemma show_move_run show_steps s d disk w :
  show_move show_steps s d disk w =
  (Return tt,
   World (towers w) (trace w) (stdout w ++ show_move_lines show_steps s d disk (towers w))).
Proof.
  unfold show_move, show_move_lines, when. destruct show_steps.
  - unfold bind at 1. unfold print at 1. unfold modify.
    rewrite print_tower_state_run. simpl. now rewrite <- app_assoc.
  - destruct w as [t tr out]. unfold ret. simpl. now rewrite app_nil_r.
Qed.

Lemma show_move_lines_silent s d disk t : show_move_lines false s d disk t = [].
Proof. reflexivity. Qed.

Lemma hanoi_recursive_unfold fuel n s d a show_steps :
  hanoi_recursive (Datatypes.S fuel) n s d a show_steps =
  if n =? 1 then
    (disk <- call_move_disk s d ;; show_move show_steps s d disk)%py
  else
    (hanoi_recursive fuel (n - 1) s a d show_steps ;;;
     disk <- call_move_disk s d ;;
     show_move show_steps s d disk ;;;
     hanoi_recursive fuel (n - 1) a d s show_steps)%py.
Proof. reflexivity. Qed.

Lemma call_move_disk_legal w s d ls ld x :
  s <> d -> towers w !! s = Some (ls ++ [x]) -> towers w !! d = Some ld ->
  smaller_on_top ld x = false ->
  call_move_disk s d w =
  (Return x,
   let t' := <[d := ld ++ [x]]> (<[s := ls]> (towers w)) in
   World t' (trace w ++ [Move s d x t']) (stdout w)).
Proof.
  intros Hsd Hs Hd Htop. unfold call_move_disk.
  now rewrite (move_disk_legal _ _ _ _ _ _ Hsd Hs Hd Htop).
Qed.

(** The transfer of a stack of [n] disks: where [n, ..., 1] sit on top of
    [ls] on the source and both other pegs accept disk [n], the call returns
    once the stack depth allows it, having moved the stack onto the
    destination in [2^n - 1] moves, every one of which leaves all pegs
    strictly decreasing. *)
Lemma hanoi_recursive_transfer (k : nat) :
  forall (fuel : nat) (n : Z) s d a (show_steps : bool) w ls ld la,
    n = Z.of_nat (Datatypes.S k) -> (Datatypes.S k <= fuel)%nat ->
    s <> d -> s <> a -> d <> a ->
    towers w !! s = Some (ls ++ range_desc n 0) ->
    towers w !! d = Some ld ->
    towers w !! a = Some la ->
    strictly_decreasing (ls ++ [n]) = true ->
    strictly_decreasing (ld ++ [n]) = true ->
    strictly_decreasing (la ++ [n]) = true ->
    pegs_sorted (towers w) ->
    exists (new : list move) (out : list output),
      hanoi_recursive fuel n s d a show_steps w =
        (Return tt,
         World (<[d := ld ++ range_desc n 0]> (<[s := ls]> (towers w)))
               (trace w ++ new) (stdout w ++ out)) /\
      Z.of_nat (length new) = 2 ^ n - 1 /\
      Forall (fun m => pegs_sorted (mv_after m)) new /\
      (show_steps = false -> out = []).
Proof.
  induction k as [|k IH];
    intros fuel n s d a show_steps w ls ld la Hn Hfuel Hsd Hsa Hda Hs Hd Ha Hls Hld Hla Hw;
    (destruct fuel as [|fuel]; [lia|]); rewrite hanoi_recursive_unfold.
  - (* n = 1: one move *)
    assert (n = 1) as -> by lia. simpl (1 =? 1).
    rewrite (range_desc_cons 1 0), (range_desc_nil (1 - 1) 0) in * by lia.
    pose proof (smaller_on_top_false _ _ Hld) as Htop.
    rewrite (bind_Return _ _ _ _ _ (call_move_disk_legal _ _ _ _ _ _ Hsd Hs Hd Htop)).
    cbv zeta. rewrite show_move_run. simpl.
    eexists [_], _. split; [reflexivity|]. split; [reflexivity|]. split.
    + constructor; [|constructor]. simpl.
      apply pegs_sorted_insert; [apply pegs_sorted_insert|]; try assumption.
      now apply strictly_decreasing_app_l in Hls.
    + intros ->. reflexivity.
  - (* n > 1 *)
    destruct (Z.eqb_spec n 1) as [|_]; [lia|].
    rewrite (range_desc_cons n 0) in * by lia.
    change (n :: range_desc (n - 1) 0) with ([n] ++ range_desc (n - 1) 0) in *.
    rewrite app_assoc in Hs.
    (* the upper n-1 disks go to the auxiliary peg *)
    destruct (IH fuel (n - 1) s a d show_steps w (ls ++ [n]) la ld)
      as (new1 & out1 & Hrun1 & Hlen1 & Hinv1 & Hout1);
      try assumption; try lia; try congruence.
    { apply strictly_decreasing_push; [assumption | lia]. }
    { apply strictly_decreasing_lower with n; [assumption | lia]. }
    { apply strictly_decreasing_lower with n; [assumption | lia]. }
    rewrite (bind_Return _ _ _ _ _ Hrun1). clear Hrun1.
    set (t1 := <[a := la ++ range_desc (n - 1) 0]> (<[s := ls ++ [n]]> (towers w))).
    assert (pegs_sorted t1) as Ht1.
    { apply pegs_sorted_insert; [apply pegs_sorted_insert|]; try assumption.
      apply strictly_decreasing_countdown.
      apply strictly_decreasing_lower with n; [assumption | lia]. }
    (* the largest disk goes to the destination *)
    pose proof (smaller_on_top_false _ _ Hld) as Htop.
    assert (t1 !! s = Some (ls ++ [n])) as Hs1.
    { unfold t1. rewrite lookup_insert_ne by congruence. apply lookup_insert_eq. }
    assert (t1 !! d = Some ld) as Hd1.
    { unfold t1. now rewrite !lookup_insert_ne by congruence. }
    rewrite (bind_Return _ _ _ _ _
               (call_move_disk_legal (World t1 _ _) s d ls ld n Hsd Hs1 Hd1 Htop)).
    cbv zeta. simpl towers. simpl trace. simpl stdout.
    set (t2 := <[d := ld ++ [n]]> (<[s := ls]> t1)).
    assert (pegs_sorted t2) as Ht2.
    { apply pegs_sorted_insert; [apply pegs_sorted_insert|]; try assumption.
      now apply strictly_decreasing_app_l in Hls. }
    rewrite (bind_Return _ _ _ _ _ (show_move_run _ _ _ _ _)).
    simpl towers. simpl trace. simpl stdout.
    (* the n-1 disks follow from the auxiliary peg *)
    match goal with |- context [hanoi_recursive fuel (n - 1) a d s show_steps ?w2] =>
      destruct (IH fuel (n - 1) a d s show_steps w2 la (ld ++ [n]) ls)
        as (new2 & out2 & Hrun2 & Hlen2 & Hinv2 & Hout2)
    end; try assumption; try lia; try congruence.
    { simpl. unfold t2. rewrite !lookup_insert_ne by congruence.
      unfold t1. apply lookup_insert_eq. }
    { simpl. unfold t2. apply lookup_insert_eq. }
    { simpl. unfold t2. rewrite lookup_insert_ne by congruence. apply lookup_insert_eq. }
    { apply strictly_decreasing_lower with n; [assumption | lia]. }
    { apply strictly_decreasing_push; [assumption | lia]. }
    { apply strictly_decreasing_lower with n; [assumption | lia]. }
    rewrite Hrun2. clear Hrun2. simpl towers. simpl trace. simpl stdout.
    exists (new1 ++ [Move s d n t2] ++ new2).
    eexists. split; [|split; [|split]].
    + f_equal. f_equal.
      * rewrite <- app_assoc. apply map_eq. intros p. unfold t2, t1.
        rewrite !lookup_insert. repeat case_decide; congruence.
      * now rewrite <- !app_assoc.
      * rewrite <- !app_assoc. reflexivity.
    + rewrite !length_app. simpl length.
      replace (2 ^ n) with (2 * 2 ^ (n - 1)); [lia|].
      rewrite <- Z.pow_succ_r by lia. f_equal. lia.
    + apply Forall_app. split; [assumption|]. constructor; assumption.
    + intros ->. rewrite (Hout1 eq_refl), (Hout2 eq_refl). reflexivity.
Qed.

End HanoiRuns.

Section HanoiSolve.

Implicit Types (t : pegs) (w : world) (s d a : string).

Lemma range_desc_lookup n (i : nat) :
  (i < Z.to_nat n)%nat -> range_desc n 0 !! i = Some (n - Z.of_nat i).
Proof.
  unfold range_desc. rewrite Z.sub_0_r. generalize (Z.to_nat n) as len.
  intros len. revert n i. induction len as [|len IH]; intros n i Hi; [lia|].
  destruct i as [|i]; simpl.
  - f_equal. lia.
  - rewrite IH by lia. f_equal. lia.
Qed.

Lemma range_desc_length n : length (range_desc n 0) = Z.to_nat n.
Proof.
  unfold range_desc. rewrite Z.sub_0_r. generalize (Z.to_nat n) as len.
  intros len. revert n. induction len as [|len IH]; intros n; simpl; [reflexivity|].
  now rewrite IH.
Qed.

Lemma initialize_towers_sorted n t0 :
  initialize_towers n = inr t0 -> pegs_sorted t0.
Proof.
  unfold initialize_towers. destruct (n <? 1); [discriminate|]. intros [= <-].
  repeat apply pegs_sorted_insert; try reflexivity.
  - intros p l Hp. now rewrite lookup_empty in Hp.
  - apply (strictly_decreasing_countdown [] _ n). reflexivity.
Qed.

(** The whole run of [solve_hanoi] on a valid count, once the call stack
    allows a recursion of depth [n]. *)
Lemma solve_hanoi_run n fuel show_steps :
  1 <= n -> (Z.to_nat n <= fuel)%nat ->
  exists t0 (new : list move) (out : list output),
    let final := <["A" := []]> (<["B" := []]> (<["C" := range_desc n 0]> ∅)) in
    initialize_towers n = inr t0 /\
    solve_hanoi fuel n show_steps = (Return final, World final new out) /\
    Z.of_nat (length new) = 2 ^ n - 1 /\
    Forall (fun m => pegs_sorted (mv_after m)) new /\
    (show_steps = false -> out = []).
Proof.
  intros Hn Hfuel. unfold solve_hanoi.
  destruct (initialize_towers n) as [e|t0] eqn:Hinit.
  { unfold initialize_towers in Hinit. destruct (Z.ltb_spec n 1); [lia | discriminate]. }
  pose proof (initialize_towers_sorted _ _ Hinit) as Hsorted.
  unfold initialize_towers in Hinit. destruct (Z.ltb_spec n 1) as [|_]; [lia|].
  injection Hinit as <-.
  set (t0 := <["A" := range_desc n 0]> (<["B" := []]> (<["C" := []]> ∅))) in *.
  set (w0 := World t0 [] (if show_steps then tower_state_lines "Initial state:" t0 else [])).
  assert ((when show_steps (print_tower_state "Initial state:")) (World t0 [] []) =
          (Return tt, w0)) as Hfirst.
  { destruct show_steps; [apply print_tower_state_run | reflexivity]. }
  rewrite (bind_Return _ _ _ _ _ Hfirst).
  destruct (hanoi_recursive_transfer (Z.to_nat n - 1) fuel n "A" "C" "B" show_steps
              w0 [] [] [])
    as (new & out & Hrun & Hlen & Hinv & Hout);
    try reflexivity; try discriminate; try lia.
  { destruct show_steps; assumption. }
  rewrite (bind_Return _ _ _ _ _ Hrun). clear Hrun.
  replace (towers w0) with t0 by (now destruct show_steps).
  replace (trace w0) with (@nil move) by (now destruct show_steps).
  set (final := <["A" := []]> (<["B" := []]> (<["C" := range_desc n 0]> ∅))).
  assert (<["C" := [] ++ range_desc n 0]> (<["A" := []]> t0) = final) as ->.
  { apply map_eq. intros p. unfold final, t0. simpl.
    rewrite !lookup_insert. repeat case_decide; congruence. }
  exists t0, new.
  destruct show_steps.
  - eexists. split; [reflexivity|]. split; [|split; [|split]]; try assumption.
    + unfold when. rewrite (bind_Return _ _ _ _ _ (print_tower_state_run _ _)).
      reflexivity.
    + discriminate.
  - exists []. split; [reflexivity|]. split; [|split; [|split]]; try assumption.
    + rewrite (Hout eq_refl). reflexivity.
    + reflexivity.
Qed.

(** Without a positive count the recursion never reaches its base case
    [n == 1]: whatever the depth allowed, the call neither returns nor
    raises, and it has touched nothing. *)
Lemma hanoi_recursive_nonpositive fuel :
  forall n s d a show_steps w,
    n < 1 -> hanoi_recursive fuel n s d a show_steps w = (Diverge, w).
Proof.
  induction fuel as [|fuel IH]; intros n s d a show_steps w Hn; [reflexivity|].
  rewrite hanoi_recursive_unfold. destruct (Z.eqb_spec n 1) as [|_]; [lia|].
  apply bind_Diverge. apply IH. lia.
Qed.

End HanoiSolve.

Section HanoiShowSteps.

Implicit Types (w : world) (s d a : string).

Lemma same_moves_bind {A B : Type} (m1 m2 : M world A) (k1 k2 : A -> M world B) w1 w2 :
  same_moves (m1 w1) (m2 w2) ->
  (forall x w1' w2', towers w1' = towers w2' -> trace w1' = trace w2' ->
                     same_moves (k1 x w1') (k2 x w2')) ->
  same_moves (bind m1 k1 w1) (bind m2 k2 w2).
Proof.
  unfold same_moves, bind. intros (Hr & Ht & Htr) Hk.
  destruct (m1 w1) as [[x1|e1|] w1'], (m2 w2) as [[x2|e2|] w2'];
    simpl in *; try discriminate.
  - injection Hr as <-. now apply Hk.
  - injection Hr as <-. repeat split; assumption.
  - repeat split; assumption.
Qed.

Lemma same_moves_call_move_disk s d w1 w2 :
  towers w1 = towers w2 -> trace w1 = trace w2 ->
  same_moves (call_move_disk s d w1) (call_move_disk s d w2).
Proof.
  intros Ht Htr. unfold same_moves, call_move_disk. rewrite Ht.
  destruct (move_disk (towers w2) s d) as [e|[disk t']]; simpl.
  - repeat split; assumption.
  - rewrite Htr. repeat split.
Qed.

Lemma same_moves_show_move b1 b2 s d disk w1 w2 :
  towers w1 = towers w2 -> trace w1 = trace w2 ->
  same_moves (show_move b1 s d disk w1) (show_move b2 s d disk w2).
Proof.
  intros Ht Htr. rewrite !show_move_run. repeat split; assumption.
Qed.

Lemma same_moves_hanoi_recursive fuel :
  forall n s d a w1 w2,
    towers w1 = towers w2 -> trace w1 = trace w2 ->
    same_moves (hanoi_recursive fuel n s d a true w1)
               (hanoi_recursive fuel n s d a false w2).
Proof.
  induction fuel as [|fuel IH]; intros n s d a w1 w2 Ht Htr.
  - repeat split; assumption.
  - rewrite !hanoi_recursive_unfold. destruct (n =? 1).
    + apply same_moves_bind; [now apply same_moves_call_move_disk|].
      intros disk w1' w2'. apply same_moves_show_move.
    + apply same_moves_bind; [now apply IH|]. intros _ w1' w2' Ht' Htr'.
      apply same_moves_bind; [now apply same_moves_call_move_disk|].
      intros disk w1'' w2'' Ht'' Htr''.
      apply same_moves_bind; [now apply same_moves_show_move|].
      intros _ w1''' w2'''. apply IH.
Qed.

(** With [show_steps=False] nothing is printed. *)
Lemma call_move_disk_stdout s d w :
  stdout (snd (call_move_disk s d w)) = stdout w.
Proof.
  unfold call_move_disk.
  destruct (move_disk (towers w) s d) as [e|[disk t']]; reflexivity.
Qed.

Lemma silent_bind {A B : Type} (m : M world A) (k : A -> M world B) w :
  stdout (snd (m w)) = stdout w ->
  (forall x w', stdout (snd (k x w')) = stdout w') ->
  stdout (snd (bind m k w)) = stdout w.
Proof.
  intros Hm Hk. unfold bind. destruct (m w) as [[x|e|] w']; simpl in *;
    try assumption.
  now rewrite Hk.
Qed.

Lemma hanoi_recursive_silent fuel :
  forall n s d a w, stdout (snd (hanoi_recursive fuel n s d a false w)) = stdout w.
Proof.
  induction fuel as [|fuel IH]; intros n s d a w; [reflexivity|].
  rewrite hanoi_recursive_unfold. destruct (n =? 1).
  - apply silent_bind; [apply call_move_disk_stdout | reflexivity].
  - apply silent_bind; [apply IH|]. intros _ w1.
    apply silent_bind; [apply call_move_disk_stdout|]. intros disk w2.
    apply silent_bind; [reflexivity|]. intros _ w3. apply IH.
Qed.

End HanoiShowSteps.

Section HanoiTrace.

Implicit Types (t : pegs) (w : world) (s d a : string).

Lemma state_after_cons t m ms :
  state_after t (m :: ms) = state_after (mv_after m) ms.
Proof.
  unfold state_after. rewrite last_cons. now destruct (last ms).
Qed.

Lemma replays_app t ms1 ms2 :
  replays t ms1 -> replays (state_after t ms1) ms2 -> replays t (ms1 ++ ms2).
Proof.
  revert t. induction ms1 as [|m ms1 IH]; intros t H1 H2; [exact H2|].
  destruct H1 as [Hm H1]. split; [exact Hm|]. apply IH; [exact H1|].
  now rewrite <- state_after_cons with (t := t).
Qed.

Lemma state_after_app t ms1 ms2 :
  state_after (state_after t ms1) ms2 = state_after t (ms1 ++ ms2).
Proof.
  unfold state_after. destruct ms2 as [|m ms2 _] using rev_ind.
  - now rewrite app_nil_r.
  - now rewrite app_assoc, !last_snoc.
Qed.

Lemma extends_refl {A : Type} (o : outcome A) w : extends w (o, w).
Proof. exists []. simpl. now rewrite app_nil_r. Qed.

Lemma extends_stdout {A : Type} (o : outcome A) w out :
  extends w (o, World (towers w) (trace w) out).
Proof. exists []. simpl. now rewrite app_nil_r. Qed.

Lemma extends_bind {A B : Type} (m : M world A) (k : A -> M world B) w :
  extends w (m w) -> (forall x w', extends w' (k x w')) -> extends w (bind m k w).
Proof.
  intros (new1 & Htr1 & Hre1 & Hst1) Hk. unfold bind.
  destruct (m w) as [[x|e|] w1]; simpl in *;
    try (exists new1; repeat split; assumption).
  destruct (Hk x w1) as (new2 & Htr2 & Hre2 & Hst2).
  exists (new1 ++ new2). split; [|split].
  - now rewrite Htr2, Htr1, app_assoc.
  - apply replays_app; [exact Hre1 | now rewrite <- Hst1].
  - now rewrite Hst2, Hst1, state_after_app.
Qed.

Lemma extends_call_move_disk s d w : extends w (call_move_disk s d w).
Proof.
  unfold call_move_disk. destruct (move_disk (towers w) s d) as [e|[disk t']] eqn:Hmove.
  - apply extends_refl.
  - exists [Move s d disk t']. simpl. repeat split. exact Hmove.
Qed.

Lemma extends_hanoi_recursive fuel :
  forall n s d a show_steps w, extends w (hanoi_recursive fuel n s d a show_steps w).
Proof.
  induction fuel as [|fuel IH]; intros n s d a show_steps w; [apply extends_refl|].
  rewrite hanoi_recursive_unfold.
  assert (forall disk w', extends w' (show_move show_steps s d disk w')) as Hshow.
  { intros disk w'. rewrite show_move_run. apply extends_stdout. }
  destruct (n =? 1).
  - apply extends_bind; [apply extends_call_move_disk | exact Hshow].
  - apply extends_bind; [apply IH|]. intros _ w1.
    apply extends_bind; [apply extends_call_move_disk|]. intros disk w2.
    apply extends_bind; [apply Hshow|]. intros _ w3. apply IH.
Qed.

End HanoiTrace.

Section HanoiSolver.

Implicit Types (t : pegs) (w : world) (s d a : string).

(** The test-suite's cases for [move_disk] and [solve_hanoi]. *)
Example test_move_disk_valid_move :
  move_disk (<["A" := [3; 2; 1]]> (<["B" := []]> (<["C" := []]> ∅))) "A" "C" =
  inr (1, <["A" := [3; 2]]> (<["B" := []]> (<["C" := [1]]> ∅))).
Proof. vm_compute. reflexivity. Qed.

Example test_move_disk_to_occupied_tower :
  move_disk (<["A" := [2]]> (<["B" := []]> (<["C" := [3]]> ∅))) "A" "C" =
  inr (2, <["A" := []]> (<["B" := []]> (<["C" := [3; 2]]> ∅))).
Proof. vm_compute. reflexivity. Qed.

Example test_move_disk_invalid_move_larger_on_smaller :
  move_disk (<["A" := [3; 2]]> (<["B" := []]> (<["C" := [1]]> ∅))) "A" "C" =
  inl (ValueError "Cannot place disk 2 on smaller disk 1").
Proof. vm_compute. reflexivity. Qed.

Example test_move_disk_from_empty_tower :
  move_disk (<["A" := [3; 2; 1]]> (<["B" := []]> (<["C" := []]> ∅))) "B" "C" =
  inl (ValueError "Cannot move from empty tower B").
Proof. vm_compute. reflexivity. Qed.

Example test_solve_hanoi_two_disks :
  fst (solve_hanoi 2 2 false) =
    Return (<["A" := []]> (<["B" := []]> (<["C" := [2; 1]]> ∅))) /\
  map (fun m => (mv_source m, mv_destination m, mv_disk m))
      (trace (snd (solve_hanoi 2 2 false))) =
    [("A", "B", 1); ("A", "C", 2); ("B", "C", 1)].
Proof. vm_compute. split; reflexivity. Qed.

Example test_solve_hanoi_step_output_format :
  In (PrintLine "Move disk from A to C: 1") (stdout (snd (solve_hanoi 3 3 true))) /\
  In (PrintLine "Move disk from A to B: 2") (stdout (snd (solve_hanoi 3 3 true))) /\
  In (PrintLine "Intermediate state:") (stdout (snd (solve_hanoi 3 3 true))).
Proof. vm_compute. tauto. Qed.

(** C1. For every [n >= 1], [solve_hanoi(n)] returns (given a call stack of
    depth [n]) after exactly [2^n - 1] disk moves, and the dict it returns
    has pegs A and B empty and peg C holding the [n] disks [n, n-1, ..., 1]
    from bottom to top. *)
Theorem solve_hanoi_moves_and_final_state (n : Z) (fuel : nat) (show_steps : bool) :
  1 <= n -> (Z.to_nat n <= fuel)%nat ->
  exists w,
    solve_hanoi fuel n show_steps = (Return (towers w), w) /\
    towers w = <["A" := []]> (<["B" := []]> (<["C" := range_desc n 0]> ∅)) /\
    Z.of_nat (length (trace w)) = 2 ^ n - 1 /\
    length (range_desc n 0) = Z.to_nat n /\
    (forall i : nat, (i < Z.to_nat n)%nat -> range_desc n 0 !! i = Some (n - Z.of_nat i)).
Proof.
  intros Hn Hfuel.
  destruct (solve_hanoi_run n fuel show_steps Hn Hfuel)
    as (t0 & new & out & _ & Hrun & Hlen & _ & _).
  cbv zeta in Hrun.
  exists (World (<["A" := []]> (<["B" := []]> (<["C" := range_desc n 0]> ∅))) new out).
  split; [exact Hrun|]. simpl.
  split; [reflexivity|]. split; [exact Hlen|].
  split; [apply range_desc_length | apply range_desc_lookup].
Qed.

Lemma solve_hanoi_moves_and_final_state_witness :
  1 <= 3 /\ (Z.to_nat 3 <= 3)%nat /\
  exists w,
    solve_hanoi 3 3 false = (Return (towers w), w) /\
    towers w = <["A" := []]> (<["B" := []]> (<["C" := range_desc 3 0]> ∅)) /\
    Z.of_nat (length (trace w)) = 2 ^ 3 - 1 /\
    length (range_desc 3 0) = Z.to_nat 3 /\
    (forall i : nat, (i < Z.to_nat 3)%nat -> range_desc 3 0 !! i = Some (3 - Z.of_nat i)).
Proof.
  split; [lia|]. split; [lia|].
  apply (solve_hanoi_moves_and_final_state 3 3 false); lia.
Defined.

(** C2. For every [n >= 1], every state of the dict during [solve_hanoi(n)]
    has all its pegs strictly decreasing from bottom to top: the initial
    state, the state after each disk move (the recorded moves being the
    successive states, each obtained from the one before by [move_disk]),
    and the final state. *)
Theorem solve_hanoi_pegs_stay_sorted (n : Z) (fuel : nat) (show_steps : bool) :
  1 <= n -> (Z.to_nat n <= fuel)%nat ->
  exists t0 w,
    initialize_towers n = inr t0 /\
    solve_hanoi fuel n show_steps = (Return (towers w), w) /\
    replays t0 (trace w) /\
    towers w = state_after t0 (trace w) /\
    pegs_sorted t0 /\
    Forall (fun m => pegs_sorted (mv_after m)) (trace w) /\
    pegs_sorted (towers w).
Proof.
  intros Hn Hfuel.
  destruct (solve_hanoi_run n fuel show_steps Hn Hfuel)
    as (t0 & new & out & Hinit & Hrun & _ & Hinv & _).
  cbv zeta in Hrun. exists t0.
  exists (World (<["A" := []]> (<["B" := []]> (<["C" := range_desc n 0]> ∅))) new out).
  split; [exact Hinit|]. split; [exact Hrun|]. simpl.
  assert (replays t0 new /\
          <["A" := []]> (<["B" := []]> (<["C" := range_desc n 0]> ∅)) = state_after t0 new)
    as [Hre Hst].
  { revert Hrun. unfold solve_hanoi. rewrite Hinit.
    destruct (Z.ltb_spec n 1) as [|_]; [lia|].
    set (w0 := World t0 [] (if show_steps then tower_state_lines "Initial state:" t0 else [])).
    assert ((when show_steps (print_tower_state "Initial state:")) (World t0 [] []) =
            (Return tt, w0)) as Hfirst.
    { destruct show_steps; [apply print_tower_state_run | reflexivity]. }
    rewrite (bind_Return _ _ _ _ _ Hfirst).
    destruct (extends_hanoi_recursive fuel n "A" "C" "B" show_steps w0)
      as (new' & Htr & Hre & Hst).
    replace (towers w0) with t0 in * by (now destruct show_steps).
    replace (trace w0) with (@nil move) in * by (now destruct show_steps).
    unfold bind at 1.
    destruct (hanoi_recursive fuel n "A" "C" "B" show_steps w0) as [[[]|e|] w1];
      try discriminate.
    simpl in Htr, Hst. destruct w1 as [t1 tr1 out1]. simpl in *. subst tr1 t1.
    destruct show_steps.
    - unfold when. rewrite (bind_Return _ _ _ _ _ (print_tower_state_run _ _)).
      unfold bind, ret, get. simpl.
      intros Heq. simplify_eq. split; [exact Hre | congruence].
    - unfold bind, ret, get. simpl.
      intros Heq. simplify_eq. split; [exact Hre | congruence]. }
  split; [exact Hre|]. split; [exact Hst|].
  split; [now apply initialize_towers_sorted with n|]. split; [exact Hinv|].
  repeat apply pegs_sorted_insert; try reflexivity.
  - intros p l Hp. now rewrite lookup_empty in Hp.
  - apply (strictly_decreasing_countdown [] _ n). reflexivity.
Qed.

Lemma solve_hanoi_pegs_stay_sorted_witness :
  1 <= 3 /\ (Z.to_nat 3 <= 4)%nat /\
  exists t0 w,
    initialize_towers 3 = inr t0 /\
    solve_hanoi 4 3 true = (Return (towers w), w) /\
    replays t0 (trace w) /\
    towers w = state_after t0 (trace w) /\
    pegs_sorted t0 /\
    Forall (fun m => pegs_sorted (mv_after m)) (trace w) /\
    pegs_sorted (towers w).
Proof.
  split; [lia|]. split; [lia|].
  apply (solve_hanoi_pegs_stay_sorted 3 4 true); lia.
Defined.

End HanoiSolver.

Section HanoiMoves.

Implicit Types (t : pegs) (w : world) (s d a : string).



(** C4, as stated, fails: [hanoi_recursive] has no guard of its own. With
    a count of 0 on the initial state of three disks it raises no exception
    at all, whatever depth the call stack allows. *)
Lemma hanoi_recursive_count_zero_raises_nothing :
  ~ exists (fuel : nat) (e : exn) (w' : world),
      hanoi_recursive fuel 0 "A" "C" "B" false
        (World (<["A" := [3; 2; 1]]> (<["B" := []]> (<["C" := []]> ∅))) [] []) =
      (Raise e, w').
Proof.
  intros (fuel & e & w' & H).
  rewrite hanoi_recursive_nonpositive in H by lia. discriminate.
Qed.

(** C4, amended. For every count [n < 1], [solve_hanoi(n)] (and
    [initialize_towers(n)]) fails with a [ValueError] before any dict is
    built, any move is made or anything is printed.  [hanoi_recursive]
    itself checks nothing: called with [n < 1] it never reaches its base
    case, so at no depth of the call stack does it return or raise a
    [ValueError], and it leaves the pegs, the moves made and the output
    exactly as they were. *)
Theorem invalid_count_rejected_by_solve_hanoi (n : Z) :
  n < 1 ->
  (forall fuel show_steps,
     solve_hanoi fuel n show_steps =
     (Raise (ValueError "Number of disks must be at least 1"), no_world)) /\
  initialize_towers n = inl (ValueError "Number of disks must be at least 1") /\
  (forall fuel s d a show_steps w,
     hanoi_recursive fuel n s d a show_steps w = (Diverge, w)).
Proof.
  intros Hn. split; [|split].
  - intros fuel show_steps. unfold solve_hanoi.
    destruct (Z.ltb_spec n 1); [reflexivity | lia].
  - unfold initialize_towers. destruct (Z.ltb_spec n 1); [reflexivity | lia].
  - intros fuel s d a show_steps w. now apply hanoi_recursive_nonpositive.
Qed.

Lemma invalid_count_rejected_by_solve_hanoi_witness :
  0 < 1 /\
  (forall fuel show_steps,
     solve_hanoi fuel 0 show_steps =
     (Raise (ValueError "Number of disks must be at least 1"), no_world)) /\
  initialize_towers 0 = inl (ValueError "Number of disks must be at least 1") /\
  (forall fuel s d a show_steps w,
     hanoi_recursive fuel 0 s d a show_steps w = (Diverge, w)).
Proof.
  split; [lia|]. apply (invalid_count_rejected_by_solve_hanoi 0). lia.
Defined.

(** C6. For every count, every state of the dict and every depth of the
    call stack, [hanoi_recursive] with [show_steps=True] and with
    [show_steps=False] have the same outcome, make the same sequence of
    moves and leave the same dict, and so does [solve_hanoi]; with
    [show_steps=False] nothing is printed. *)
Theorem show_steps_only_changes_output (fuel : nat) (n : Z) s d a w :
  same_moves (hanoi_recursive fuel n s d a true w) (hanoi_recursive fuel n s d a false w) /\
  stdout (snd (hanoi_recursive fuel n s d a false w)) = stdout w /\
  same_moves (solve_hanoi fuel n true) (solve_hanoi fuel n false) /\
  stdout (snd (solve_hanoi fuel n false)) = [].
Proof.
  split; [now apply same_moves_hanoi_recursive|].
  split; [apply hanoi_recursive_silent|].
  unfold solve_hanoi. destruct (n <? 1); [repeat split|].
  destruct (initialize_towers n) as [e|t0]; [repeat split|]. split.
  - apply same_moves_bind.
    { unfold when. rewrite print_tower_state_run. repeat split. }
    intros _ w1 w2 Ht Htr. apply same_moves_bind.
    { now apply same_moves_hanoi_recursive. }
    intros _ w1' w2' Ht' Htr'. apply same_moves_bind.
    { unfold when. rewrite print_tower_state_run. repeat split; assumption. }
    intros _ w1'' w2'' Ht'' Htr''. unfold bind, get, ret, same_moves. simpl.
    rewrite Ht''. repeat split; assumption.
  - change (@nil output) with (stdout (World t0 [] [])) at 2.
    apply silent_bind; [reflexivity|]. intros _ w1.
    apply silent_bind; [apply hanoi_recursive_silent|]. intros _ w2.
    apply silent_bind; reflexivity.
Qed.

End HanoiMoves.

(** ** Koch snowflake *)

Section KochCurve.

Context {num : Type} `{Number num}.

Implicit Types (calls : list (call num)) (level : Z).

Lemma do_run (c : call num) calls : do c calls = (Return tt, calls ++ [c]).
Proof. reflexivity. Qed.

Lemma forwards_app calls1 calls2 :
  forwards (calls1 ++ calls2) = forwards calls1 ++ forwards calls2.
Proof.
  induction calls1 as [|c calls1 IH]; [reflexivity|].
  destruct c; simpl; rewrite IH; reflexivity.
Qed.

Lemma turning_app calls1 calls2 :
  turning (calls1 ++ calls2) = turning calls1 + turning calls2.
Proof.
  induction calls1 as [|c calls1 IH]; [reflexivity|].
  destruct c; simpl; rewrite IH; lia.
Qed.

Lemma koch_curve_unfold fuel (length : num) level :
  koch_curve (Datatypes.S fuel) length level =
  if level =? 0 then do (forward length)
  else
    let length := div length (lit 3) in
    (koch_curve fuel length (level - 1) ;;;
     do (left 60) ;;;
     koch_curve fuel length (level - 1) ;;;
     do (right 120) ;;;
     koch_curve fuel length (level - 1) ;;;
     do (left 60) ;;;
     koch_curve fuel length (level - 1))%py.
Proof. reflexivity. Qed.

(** One call of [koch_curve] at level [k >= 0], for any arithmetic: it
    returns once the call stack allows depth [k + 1], having made
    [4^k] calls of [forward], each with [length] divided [k] times by 3,
    and turns that add up to zero. *)
Lemma koch_curve_calls (k : nat) :
  forall fuel (length : num) level calls,
    level = Z.of_nat k -> (k < fuel)%nat ->
    exists new,
      koch_curve fuel length level calls = (Return tt, calls ++ new) /\
      forwards new = repeat (thirds k length) (4 ^ k) /\
      turning new = 0 /\
      Forall (fun c => exists x a, c = forward x \/ c = left a \/ c = right a) new.
Proof.
  induction k as [|k IH]; intros fuel length level calls Hlevel Hfuel;
    (destruct fuel as [|fuel]; [lia|]); rewrite koch_curve_unfold.
  - subst level. simpl. exists [forward length]. rewrite do_run.
    split_and!; try reflexivity. constructor; [|constructor].
    exists length, 0. now left.
  - destruct (Z.eqb_spec level 0) as [|_]; [lia|]. cbv zeta.
    set (third := div length (lit 3)).
    assert (forall calls', exists new,
              koch_curve fuel third (level - 1) calls' = (Return tt, calls' ++ new) /\
              forwards new = repeat (thirds (Datatypes.S k) length) (4 ^ k) /\
              turning new = 0 /\
              Forall (fun c => exists x a, c = forward x \/ c = left a \/ c = right a) new)
      as Hsub.
    { intros calls'. destruct (IH fuel third (level - 1) calls') as (new & Hrun & Hfw & Htn);
        [lia | lia |].
      exists new. split; [exact Hrun|]. split; [|exact Htn].
      rewrite Hfw. unfold thirds, third. now rewrite Nat.iter_succ_r. }
    clear IH.
    destruct (Hsub calls) as (new1 & Hrun1 & Hfw1 & Htn1 & Hk1).
    rewrite (bind_Return _ _ _ _ _ Hrun1), (bind_Return _ _ _ _ _ (do_run _ _)).
    destruct (Hsub ((calls ++ new1) ++ [left 60])) as (new2 & Hrun2 & Hfw2 & Htn2 & Hk2).
    rewrite (bind_Return _ _ _ _ _ Hrun2), (bind_Return _ _ _ _ _ (do_run _ _)).
    destruct (Hsub ((((calls ++ new1) ++ [left 60]) ++ new2) ++ [right 120]))
      as (new3 & Hrun3 & Hfw3 & Htn3 & Hk3).
    rewrite (bind_Return _ _ _ _ _ Hrun3), (bind_Return _ _ _ _ _ (do_run _ _)).
    match goal with |- context [koch_curve fuel third (level - 1) ?c] =>
      destruct (Hsub c) as (new4 & Hrun4 & Hfw4 & Htn4 & Hk4)
    end.
    rewrite Hrun4.
    exists (new1 ++ [left 60] ++ new2 ++ [right 120] ++ new3 ++ [left 60] ++ new4).
    split_and!.
    + now rewrite <- !app_assoc.
    + rewrite !forwards_app, Hfw1, Hfw2, Hfw3, Hfw4. simpl.
      rewrite <- !repeat_app. f_equal. lia.
    + rewrite !turning_app, Htn1, Htn2, Htn3, Htn4. reflexivity.
    + repeat (apply Forall_app; split); try assumption;
        (constructor; [|constructor]).
      * exists length, 60. right. now left.
      * exists length, 120. right. now right.
      * exists length, 60. right. now left.
Qed.

(** Below level 0 the recursion never reaches [level == 0]. *)
Lemma koch_curve_negative fuel :
  forall (length : num) level calls,
    level < 0 -> koch_curve fuel length level calls = (Diverge, calls).
Proof.
  induction fuel as [|fuel IH]; intros length level calls Hlevel; [reflexivity|].
  rewrite koch_curve_unfold. destruct (Z.eqb_spec level 0) as [|_]; [lia|].
  apply bind_Diverge. apply IH. lia.
Qed.

End KochCurve.

Section KochProperties.

(** In exact arithmetic, dividing [k] times by 3 is dividing by [3^k]. *)
Lemma thirds_Q (k : nat) (length : Q) :
  (thirds k length == length / inject_Z (3 ^ Z.of_nat k))%Q.
Proof.
  unfold thirds. induction k as [|k IH].
  - simpl. unfold Qdiv. change (/ inject_Z 1)%Q with 1%Q. now rewrite Qmult_1_r.
  - rewrite Nat.iter_succ. simpl div. rewrite IH.
    rewrite Nat2Z.inj_succ, Z.pow_succ_r by lia. rewrite inject_Z_mult.
    assert (~ (inject_Z (3 ^ Z.of_nat k) == 0)%Q) as Hnz.
    { change 0%Q with (inject_Z 0). rewrite inject_Z_injective.
      pose proof (Z.pow_pos_nonneg 3 (Z.of_nat k)). lia. }
    field. exact Hnz.
Qed.

(** The test-suite's cases for [koch_curve], on floats as Python runs them. *)
Example test_koch_curve_level_0 :
  koch_curve 1 (lit 100 : PrimFloat.float) 0 [] = (Return tt, [forward (lit 100)]).
Proof. reflexivity. Qed.

Example test_koch_curve_level_1 :
  snd (koch_curve 2 (lit 90 : PrimFloat.float) 1 []) =
  [forward (lit 30); left 60; forward (lit 30); right 120;
   forward (lit 30); left 60; forward (lit 30)].
Proof. vm_compute. reflexivity. Qed.

Example test_koch_curve_level_2 :
  Datatypes.length (forwards (snd (koch_curve 3 (lit 81 : PrimFloat.float) 2 []))) = 16%nat.
Proof. vm_compute. reflexivity. Qed.

(** C5, as stated, fails on Python's floats: with the default side of 300
    and the default level 3, each of the 64 [forward] calls gets 300 divided
    three times by 3.0, which is not the float [300 / 3^3] (it is the next
    one up): no call has that length. *)
Lemma koch_curve_length_is_rounded_thrice :
  Datatypes.length (forwards (snd (koch_curve 4 (lit 300 : PrimFloat.float) 3 []))) = 64%nat /\
  existsb (fun x => PrimFloat.eqb x (div (lit 300) (lit (3 ^ 3))))
          (forwards (snd (koch_curve 4 (lit 300 : PrimFloat.float) 3 []))) = false.
Proof. vm_compute. split; reflexivity. Qed.

(** C5, amended. For every [depth >= 0] and every [length], in whatever
    arithmetic, one call [koch_curve(t, length, depth)] returns (given a
    call stack of depth [depth + 1]) after exactly [4^depth] calls of
    [forward], each with [length] divided [depth] times by 3.0, and the
    turns it makes, which are its only other calls, add up to zero.  In
    exact arithmetic that length is [length / 3^depth]. *)
Theorem koch_curve_segments_and_turning
  {num : Type} `{Number num}
  (depth : Z) (length : num) (fuel : nat) (calls : list (call num)) :
  0 <= depth -> (Z.to_nat depth < fuel)%nat ->
  (exists new,
     koch_curve fuel length depth calls = (Return tt, calls ++ new) /\
     Z.of_nat (Datatypes.length (forwards new)) = 4 ^ depth /\
     Forall (fun x => x = thirds (Z.to_nat depth) length) (forwards new) /\
     turning new = 0 /\
     Forall (fun c => exists x a, c = forward x \/ c = left a \/ c = right a) new) /\
  (forall q : Q, (thirds (Z.to_nat depth) q == q / inject_Z (3 ^ depth))%Q).
Proof.
  intros Hdepth Hfuel. split.
  - destruct (koch_curve_calls (Z.to_nat depth) fuel length depth calls)
      as (new & Hrun & Hfw & Htn & Hkind); [lia | exact Hfuel |].
    exists new. split_and!; try assumption.
    + rewrite Hfw, repeat_length, Nat2Z.inj_pow. f_equal. lia.
    + rewrite Hfw. apply List.Forall_forall. intros x Hx.
      now apply repeat_spec in Hx.
  - intros q. rewrite thirds_Q. now rewrite Z2Nat.id by exact Hdepth.
Qed.

Lemma koch_curve_segments_and_turning_witness :
  0 <= 3 /\ (Z.to_nat 3 < 4)%nat /\
  (exists new,
     koch_curve 4 (lit 300 : PrimFloat.float) 3 [] = (Return tt, [] ++ new) /\
     Z.of_nat (Datatypes.length (forwards new)) = 4 ^ 3 /\
     Forall (fun x => x = thirds (Z.to_nat 3) (lit 300)) (forwards new) /\
     turning new = 0 /\
     Forall (fun c => exists x a, c = forward x \/ c = left a \/ c = right a) new) /\
  (forall q : Q, (thirds (Z.to_nat 3) q == q / inject_Z (3 ^ 3))%Q).
Proof.
  split; [lia|]. split; [simpl; lia|].
  apply (koch_curve_segments_and_turning 3 (lit 300 : PrimFloat.float) 4 []);
    [lia | simpl; lia].
Defined.

(** A valid call draws: the screen, the turtle's set-up, three curves each
    followed by a right turn of 120 degrees, and the main loop. *)
Example test_draw_koch_snowflake_level_0 :
  draw_koch_snowflake 1 (lit 300 : PrimFloat.float) 0 [] =
  (Return tt,
   [Screen; bgcolor "white"; title "Koch Snowflake - Level 0"; Turtle; speed 0;
    color "blue"; penup; goto (neg (lit 150)) (lit 100); pendown;
    forward (lit 300); right 120; forward (lit 300); right 120;
    forward (lit 300); right 120; hideturtle; mainloop]).
Proof. vm_compute. reflexivity. Qed.

(** C7. For every [level < 0] or [length <= 0], in whatever arithmetic,
    [draw_koch_snowflake(length, level)] raises a [ValueError], and no call
    on the screen or the turtle has been made when it does. *)
Theorem draw_koch_snowflake_rejects_before_drawing
  {num : Type} `{Number num}
  (length : num) (level : Z) (fuel : nat) (calls : list (call num)) :
  level < 0 \/ leb length (lit 0) = true ->
  exists msg,
    draw_koch_snowflake fuel length level calls = (Raise (ValueError msg), calls).
Proof.
  intros Hbad. unfold draw_koch_snowflake.
  destruct (Z.ltb_spec level 0) as [|Hlevel]; [eexists; reflexivity|].
  destruct Hbad as [|Hlen]; [lia|]. rewrite Hlen. eexists; reflexivity.
Qed.

Lemma draw_koch_snowflake_rejects_before_drawing_witness :
  (3 < 0 \/ leb (neg (lit 100) : PrimFloat.float) (lit 0) = true) /\
  exists msg,
    draw_koch_snowflake 5 (neg (lit 100) : PrimFloat.float) 3 [] =
    (Raise (ValueError msg), []).
Proof.
  split; [right; reflexivity|].
  apply (draw_koch_snowflake_rejects_before_drawing (neg (lit 100)) 3 5 []).
  right. reflexivity.
Defined.

(** On the exact rationals [leb length 0] is [length <= 0]. *)
Lemma leb_Q (length : Q) : leb length (lit 0) = true <-> (length <= 0)%Q.
Proof. apply Qle_bool_iff. Qed.

End KochProperties.

(** ** File sorter *)

Section Strings.

Implicit Types (c a : ascii) (s : string).

Lemma rfind_spec c s :
  (rfind c s = -1 /\ contains c s = false) \/
  (0 <= rfind c s < Z.of_nat (String.length s) /\
   exists rest, slice_from (Z.to_nat (rfind c s)) s = String c rest /\
                contains c rest = false).
Proof.
  induction s as [|a s IH]; [left; split; reflexivity|].
  cbn [rfind contains String.length].
  destruct IH as [[Hr Hno] | [Hr (rest & Hslice & Hno)]].
  - rewrite Hr. change (0 <=? -1) with false. cbv beta iota zeta.
    destruct (Ascii.eqb_spec a c) as [->|Hne]; cbv beta iota.
    + right. split; [lia|]. exists s. split; [reflexivity | exact Hno].
    + left. split; [reflexivity | exact Hno].
  - cbv zeta. destruct (Z.leb_spec 0 (rfind c s)) as [_|]; [|lia]. cbv beta iota.
    right. split; [lia|]. exists rest. split; [|exact Hno].
    replace (Z.to_nat (rfind c s + 1)) with (Datatypes.S (Z.to_nat (rfind c s))) by lia.
    exact Hslice.
Qed.

Lemma rfind_last c s : rfind c (s +:+ String c EmptyString) = Z.of_nat (String.length s).
Proof.
  induction s as [|a s IH].
  - simpl. now rewrite Ascii.eqb_refl.
  - change (String a s +:+ String c EmptyString)
      with (String a (s +:+ String c EmptyString)).
    cbn [rfind String.length]. cbv zeta. rewrite IH.
    destruct (Z.leb_spec 0 (Z.of_nat (String.length s))); lia.
Qed.

Lemma length_append s1 s2 :
  String.length (s1 +:+ s2) = (String.length s1 + String.length s2)%nat.
Proof. induction s1 as [|a s1 IH]; simpl; [reflexivity | now rewrite IH]. Qed.

Lemma length_slice_from n s :
  String.length (slice_from n s) = (String.length s - n)%nat.
Proof.
  revert s. induction n as [|n IH]; intros s; simpl; [lia|].
  destruct s as [|a s]; simpl; [reflexivity | apply IH].
Qed.

Lemma lstrip_absent c s : contains c s = false -> lstrip c s = s.
Proof.
  destruct s as [|a s]; [reflexivity|]. simpl.
  destruct (Ascii.eqb a c); [discriminate | reflexivity].
Qed.

End Strings.

(** ** File sorter: characters and [lower] *)

Ltac bytes :=
  unfold sequence2, sequence3, sequence4, is_continuation, byte_in in *;
  repeat match goal with
         | |- _ = false => apply not_true_iff_false; intro
         | H : _ = false |- _ => apply not_true_iff_false in H
         end;
  repeat (rewrite andb_true_iff in * || rewrite orb_true_iff in * ||
          rewrite Nat.leb_le in *);
  try lia.

Section Bytes.

Implicit Types (a b c d : ascii) (s u z : string).

Lemma append_cons a s z : String a s +:+ z = String a (s +:+ z).
Proof. reflexivity. Qed.

Lemma append_nil_l z : "" +:+ z = z.
Proof. reflexivity. Qed.

Lemma append_assoc s1 s2 s3 : (s1 +:+ s2) +:+ s3 = s1 +:+ (s2 +:+ s3).
Proof.
  induction s1 as [|a s1 IH]; [reflexivity|]. rewrite !append_cons. now f_equal.
Qed.

Lemma append_nil_r s : s +:+ "" = s.
Proof. induction s as [|a s IH]; [reflexivity|]. rewrite append_cons. now f_equal. Qed.

Lemma slice_to_from n s : slice_to n s +:+ slice_from n s = s.
Proof.
  revert s. induction n as [|n IH]; intros [|a s]; try reflexivity.
  cbn [slice_to slice_from]. rewrite append_cons. f_equal. apply IH.
Qed.

Lemma length_slice_from_le n s : (String.length (slice_from n s) <= String.length s)%nat.
Proof.
  revert s. induction n as [|n IH]; intros [|a s]; simpl; try lia.
  specialize (IH s). lia.
Qed.

Lemma slice_to_append u z : slice_to (String.length u) (u +:+ z) = u.
Proof.
  induction u as [|a u IH]; [now destruct z|].
  rewrite append_cons. cbn [String.length slice_to]. now f_equal.
Qed.

Lemma slice_from_append u z : slice_from (String.length u) (u +:+ z) = z.
Proof.
  induction u as [|a u IH]; [reflexivity|].
  rewrite append_cons. cbn [String.length slice_from]. exact IH.
Qed.

Lemma head_length_bounds s : (1 <= head_length s <= 4)%nat.
Proof.
  destruct s as [|a [|b [|c [|d s]]]]; simpl; try lia;
    repeat match goal with |- context [if ?x then _ else _] => destruct x end; lia.
Qed.

(** Where no character starts, one byte is taken. *)
Lemma head_length_character s :
  head_length s = 1%nat \/ is_character (slice_to (head_length s) s) = true.
Proof.
  destruct s as [|a [|b [|c [|d s]]]]; simpl; try (now left).
  - destruct (sequence2 a b) eqn:H2; [right; exact H2 | now left].
  - destruct (sequence2 a b) eqn:H2; [right; exact H2|].
    destruct (sequence3 a b c) eqn:H3; [right; exact H3 | now left].
  - destruct (sequence2 a b) eqn:H2; [right; exact H2|].
    destruct (sequence3 a b c) eqn:H3; [right; exact H3|].
    destruct (sequence4 a b c d) eqn:H4; [right; exact H4 | now left].
Qed.

Lemma characters_skipping_slice k s :
  characters_skipping k s = characters (slice_from k s).
Proof.
  revert k. induction s as [|a s IH]; intros [|k]; try reflexivity.
  simpl. apply IH.
Qed.

Lemma characters_cons a s :
  characters (String a s) =
  slice_to (head_length (String a s)) (String a s) ::
  characters (slice_from (head_length (String a s)) (String a s)).
Proof.
  unfold characters at 1. cbn [characters_skipping].
  rewrite characters_skipping_slice.
  pose proof (head_length_bounds (String a s)) as Hn.
  destruct (head_length (String a s)) as [|n]; [lia|].
  simpl. now rewrite Nat.sub_0_r.
Qed.

Lemma join_characters_bounded (fuel : nat) :
  forall s, (String.length s <= fuel)%nat -> join (characters s) = s.
Proof.
  induction fuel as [|fuel IH]; intros [|a s] Hlen; try reflexivity; [simpl in Hlen; lia|].
  rewrite characters_cons. cbn [join]. rewrite IH; [apply slice_to_from|].
  pose proof (head_length_bounds (String a s)) as Hn.
  destruct (head_length (String a s)) as [|n]; [lia|].
  simpl in *. pose proof (length_slice_from_le n s). lia.
Qed.

Lemma join_characters s : join (characters s) = s.
Proof. now apply (join_characters_bounded (String.length s)). Qed.

Lemma is_character_head u z :
  is_character u = true ->
  u <> "" /\ head_length (u +:+ z) = String.length u.
Proof.
  destruct u as [|a [|b [|c [|d [|e u]]]]]; try discriminate; cbn [is_character];
    intros Hu; (split; [discriminate|]);
    rewrite ?append_cons, ?append_nil_l; cbn [String.length]; unfold head_length.
  - destruct z as [|b [|c [|d z]]]; try reflexivity.
    + replace (sequence2 a b) with false by (symmetry; bytes). reflexivity.
    + replace (sequence2 a b) with false by (symmetry; bytes).
      replace (sequence3 a b c) with false by (symmetry; bytes). reflexivity.
    + replace (sequence2 a b) with false by (symmetry; bytes).
      replace (sequence3 a b c) with false by (symmetry; bytes).
      replace (sequence4 a b c d) with false by (symmetry; bytes). reflexivity.
  - now rewrite Hu.
  - replace (sequence2 a b) with false by (symmetry; bytes). now rewrite Hu.
  - replace (sequence2 a b) with false by (symmetry; bytes).
    replace (sequence3 a b c) with false by (symmetry; bytes). now rewrite Hu.
Qed.

Lemma characters_character u z :
  is_character u = true -> characters (u +:+ z) = u :: characters z.
Proof.
  intros Hu. destruct (is_character_head u z Hu) as [Hne Hlen].
  destruct u as [|a u]; [contradiction|].
  change (String a u +:+ z) with (String a (u +:+ z)) in *.
  rewrite characters_cons, Hlen.
  change (String a (u +:+ z)) with (String a u +:+ z).
  now rewrite slice_to_append, slice_from_append.
Qed.

Lemma characters_one u : is_character u = true -> characters u = [u].
Proof.
  intros Hu. rewrite <- (append_nil_r u) at 1. now rewrite characters_character.
Qed.

End Bytes.

Section Texts.

Implicit Types (a b c d : ascii) (s u z : string).

(** A string made of characters is cut the same way whatever follows. *)
Lemma characters_append_bounded (fuel : nat) :
  forall s z, (String.length s <= fuel)%nat ->
    Forall (fun v => is_character v = true) (characters s) ->
    characters (s +:+ z) = characters s ++ characters z.
Proof.
  induction fuel as [|fuel IH]; intros [|a s] z Hlen Htext; try reflexivity;
    [simpl in Hlen; lia|].
  rewrite characters_cons in Htext |- *. apply Forall_cons in Htext as [Hu Hrest].
  rewrite <- (slice_to_from (head_length (String a s)) (String a s)) at 1.
  rewrite append_assoc, (characters_character _ _ Hu). cbn [app]. f_equal.
  apply IH; [|exact Hrest].
  pose proof (head_length_bounds (String a s)) as Hn.
  destruct (head_length (String a s)) as [|n]; [lia|].
  simpl in *. pose proof (length_slice_from_le n s). lia.
Qed.

Lemma characters_append s z :
  Forall (fun v => is_character v = true) (characters s) ->
  characters (s +:+ z) = characters s ++ characters z.
Proof. now apply (characters_append_bounded (String.length s)). Qed.

(** A character starts with a byte that continues none. *)
Lemma is_character_first a u : is_character (String a u) = true -> is_continuation a = false.
Proof.
  destruct u as [|b [|c [|d [|e u]]]]; cbn [is_character]; try discriminate; intros Hu; bytes.
Qed.

Lemma text_first s :
  s <> "" -> Forall (fun v => is_character v = true) (characters s) ->
  exists a s', s = String a s' /\ is_continuation a = false.
Proof.
  destruct s as [|a s]; [contradiction|]. intros _ Htext.
  rewrite characters_cons in Htext. apply Forall_cons in Htext as [Hu _].
  exists a, s. split; [reflexivity|].
  pose proof (head_length_bounds (String a s)) as Hn.
  destruct (head_length (String a s)) as [|n]; [lia|].
  cbn [slice_to] in Hu. now apply is_character_first in Hu.
Qed.

(** Which character a string starts with is decided by its first byte and
    the continuation bytes after it. *)
Lemma no_continuation_no_sequence a b c d :
  (is_continuation b = false ->
   sequence2 a b = false /\ sequence3 a b c = false /\ sequence4 a b c d = false) /\
  (is_continuation c = false -> sequence3 a b c = false /\ sequence4 a b c d = false) /\
  (is_continuation d = false -> sequence4 a b c d = false).
Proof. split_and!; intros H; split_and?; bytes. Qed.

Lemma head_length_continuation_prefix a z :
  head_length (String a z) = head_length (String a (continuation_prefix 3 z)).
Proof.
  destruct z as [|b z]; [reflexivity|]. cbn [continuation_prefix].
  destruct (is_continuation b) eqn:Hb.
  2:{ destruct (no_continuation_no_sequence a b "000" "000") as [H _].
      destruct (H Hb) as [H2 _]. cbn [head_length]. rewrite H2.
      destruct z as [|c z]; [reflexivity|].
      destruct (no_continuation_no_sequence a b c "000") as [H' _].
      destruct (H' Hb) as (_ & H3 & _). rewrite H3.
      destruct z as [|d z]; [reflexivity|].
      destruct (no_continuation_no_sequence a b c d) as [H'' _].
      destruct (H'' Hb) as (_ & _ & H4). now rewrite H4. }
  cbn [head_length]. destruct (sequence2 a b); [reflexivity|].
  destruct z as [|c z]; [reflexivity|]. cbn [continuation_prefix].
  destruct (is_continuation c) eqn:Hc.
  2:{ destruct (no_continuation_no_sequence a b c "000") as (_ & H & _).
      destruct (H Hc) as [H3 _]. rewrite H3.
      destruct z as [|d z]; [reflexivity|].
      destruct (no_continuation_no_sequence a b c d) as (_ & H' & _).
      destruct (H' Hc) as [_ H4]. now rewrite H4. }
  destruct (sequence3 a b c); [reflexivity|].
  destruct z as [|d z]; [reflexivity|]. cbn [continuation_prefix].
  destruct (is_continuation d) eqn:Hd; [reflexivity|].
  destruct (no_continuation_no_sequence a b c d) as (_ & _ & H).
  now rewrite (H Hd).
Qed.

(** A continuation byte starts no character. *)
Lemma head_length_continuation a z : is_continuation a = true -> head_length (String a z) = 1%nat.
Proof.
  intros Ha. destruct z as [|b [|c [|d z]]]; cbn [head_length]; try reflexivity.
  - replace (sequence2 a b) with false by (symmetry; bytes). reflexivity.
  - replace (sequence2 a b) with false by (symmetry; bytes).
    replace (sequence3 a b c) with false by (symmetry; bytes). reflexivity.
  - replace (sequence2 a b) with false by (symmetry; bytes).
    replace (sequence3 a b c) with false by (symmetry; bytes).
    replace (sequence4 a b c d) with false by (symmetry; bytes). reflexivity.
Qed.

Lemma continuation_prefix_first n a s z :
  is_continuation a = false -> continuation_prefix n (String a s +:+ z) = "".
Proof. intros Ha. destruct n; [reflexivity|]. rewrite append_cons. simpl. now rewrite Ha. Qed.

End Texts.

Section AsciiLower.

Implicit Types (a b c d : ascii) (s u z : string).

Lemma lower_char_idempotent a : lower_char (lower_char a) = lower_char a.
Proof. destruct a as [[] [] [] [] [] [] [] []]; reflexivity. Qed.

Lemma lower_char_dot a : Ascii.eqb (lower_char a) "." = Ascii.eqb a ".".
Proof. destruct a as [[] [] [] [] [] [] [] []]; reflexivity. Qed.

Lemma lower_char_ascii a : byte_in 0 127 (lower_char a) = byte_in 0 127 a.
Proof. destruct a as [[] [] [] [] [] [] [] []]; reflexivity. Qed.

Lemma lower_char_capital a : lower_char a = a -> byte_in 65 90 a = false.
Proof. destruct a as [[] [] [] [] [] [] [] []]; (reflexivity || discriminate). Qed.

Lemma ascii_lower_idempotent s : ascii_lower (ascii_lower s) = ascii_lower s.
Proof.
  induction s as [|a s IH]; [reflexivity|]. simpl.
  now rewrite lower_char_idempotent, IH.
Qed.

Lemma contains_dot_ascii_lower s : contains "." (ascii_lower s) = contains "." s.
Proof.
  induction s as [|a s IH]; [reflexivity|]. simpl.
  now rewrite lower_char_dot, IH.
Qed.

Lemma is_ascii_ascii_lower s : is_ascii (ascii_lower s) = is_ascii s.
Proof.
  unfold is_ascii. induction s as [|a s IH]; [reflexivity|]. simpl.
  now rewrite lower_char_ascii, IH.
Qed.

Lemma is_ascii_cons a s : is_ascii (String a s) = byte_in 0 127 a && is_ascii s.
Proof. reflexivity. Qed.

(** An ASCII string is cut into its bytes. *)
Lemma characters_ascii s :
  is_ascii s = true ->
  characters s = List.map (fun a => String a "") (list_ascii_of_string s).
Proof.
  induction s as [|a s IH]; [reflexivity|]. rewrite is_ascii_cons.
  intros Hs. apply andb_true_iff in Hs as [Ha Hs].
  change (String a s) with (String a "" +:+ s).
  rewrite characters_character by exact Ha.
  change (list_ascii_of_string (String a "" +:+ s)) with (a :: list_ascii_of_string s).
  cbn [List.map]. f_equal. now apply IH.
Qed.

Lemma contains_append c s z : contains c (s +:+ z) = contains c s || contains c z.
Proof.
  induction s as [|a s IH]; [reflexivity|]. rewrite append_cons. simpl.
  now rewrite IH, orb_assoc.
Qed.

End AsciiLower.

Section Lower.

Context {unicode : UnicodeData} {facts : UnicodeFacts}.

Implicit Types (a b c d : ascii) (s u z : string) (text : list string).

Lemma capital_sigma_character : is_character capital_sigma = true.
Proof. reflexivity. Qed.

Lemma lower_text_cons st u text :
  lower_text st (u :: text) =
  lower_character st u text +:+
  lower_text (if case_ignorable u then st else cased u) text.
Proof. reflexivity. Qed.

Lemma small_sigma_lowercase : is_lowercase small_sigma.
Proof. split; [discriminate|]. intros _. apply sigmas_are_lowercase. Qed.

Lemma final_sigma_lowercase : is_lowercase final_sigma.
Proof. split; [discriminate|]. intros _. apply sigmas_are_lowercase. Qed.

(** What is written for a character is a text in lowercase, and not empty. *)
Lemma lower_character_text st u text :
  is_character u = true ->
  lower_character st u text <> "" /\
  Forall (fun v => is_character v = true) (characters (lower_character st u text)) /\
  Forall is_lowercase (characters (lower_character st u text)).
Proof.
  intros Hu. unfold lower_character. destruct (String.eqb u capital_sigma).
  - destruct (st && negb (cased_follows text)).
    + change (characters final_sigma) with [final_sigma].
      split_and!; [discriminate | now repeat constructor |].
      constructor; [apply final_sigma_lowercase | constructor].
    + change (characters small_sigma) with [small_sigma].
      split_and!; [discriminate | now repeat constructor |].
      constructor; [apply small_sigma_lowercase | constructor].
  - rewrite Hu. destruct (lower_is_text u Hu) as [Hne Htext].
    split_and!; [exact Hne | exact Htext |].
    apply List.Forall_forall. intros v Hv. now apply (lower_is_lowercase u).
Qed.

(** What is not a character is one byte, and is kept. *)
Lemma lower_character_other st a s text :
  is_character (slice_to (head_length (String a s)) (String a s)) = false ->
  head_length (String a s) = 1%nat /\
  lower_character st (slice_to (head_length (String a s)) (String a s)) text = String a "".
Proof.
  intros Hu. destruct (head_length_character (String a s)) as [Hone|Hchar]; [|congruence].
  split; [exact Hone|]. rewrite Hone in *. cbn [slice_to] in *.
  unfold lower_character. rewrite Hu.
  destruct (String.eqb_spec (String a "") capital_sigma) as [Heq|_]; [discriminate|].
  reflexivity.
Qed.

Lemma continuation_prefix_cons n a s :
  continuation_prefix (Datatypes.S n) (String a s) =
  if is_continuation a then String a (continuation_prefix n s) else "".
Proof. reflexivity. Qed.

Lemma continuation_prefix_lower_text (n : nat) :
  forall st s,
    continuation_prefix n (lower_text st (characters s)) = continuation_prefix n s.
Proof.
  induction n as [|n IHn]; intros st s.
  { now destruct (lower_text st (characters s)), s. }
  destruct s as [|a s]; [reflexivity|].
  rewrite characters_cons, lower_text_cons.
  destruct (is_continuation a) eqn:Ha.
  - assert (head_length (String a s) = 1%nat) as Hone by now apply head_length_continuation.
    rewrite Hone. cbn [slice_to slice_from].
    assert (lower_character st (String a "") (characters s) = String a "") as ->.
    { unfold lower_character.
      destruct (String.eqb_spec (String a "") capital_sigma) as [Heq|_]; [discriminate|].
      replace (is_character (String a "")) with false; [reflexivity|].
      symmetry. cbn [is_character]. bytes. }
    rewrite append_cons, append_nil_l, !continuation_prefix_cons, Ha. f_equal.
    apply IHn.
  - rewrite (continuation_prefix_cons n a s), Ha.
    destruct (is_character (slice_to (head_length (String a s)) (String a s))) eqn:Hu.
    + destruct (lower_character_text st _ (characters (slice_from (head_length (String a s))
                                                          (String a s))) Hu)
        as (Hne & Htext & _).
      destruct (text_first _ Hne Htext) as (b & rest & -> & Hb).
      now apply continuation_prefix_first.
    + destruct (lower_character_other st a s
                  (characters (slice_from (head_length (String a s)) (String a s))) Hu)
        as [Hone ->].
      now apply continuation_prefix_first.
Qed.

(** The lowercase of a string is cut into lowercase characters. *)
Lemma lower_text_lowercase (fuel : nat) :
  forall st s, (String.length s <= fuel)%nat ->
    Forall is_lowercase (characters (lower_text st (characters s))).
Proof.
  induction fuel as [|fuel IH]; intros st [|a s] Hlen; try (constructor; fail);
    [simpl in Hlen; lia|].
  rewrite characters_cons, lower_text_cons.
  set (rest := slice_from (head_length (String a s)) (String a s)).
  assert (String.length rest <= fuel)%nat as Hrest.
  { unfold rest. pose proof (head_length_bounds (String a s)) as Hn.
    destruct (head_length (String a s)) as [|n]; [lia|].
    simpl in *. pose proof (length_slice_from_le n s). lia. }
  destruct (is_character (slice_to (head_length (String a s)) (String a s))) eqn:Hu.
  - destruct (lower_character_text st _ (characters rest) Hu) as (_ & Htext & Hlow).
    rewrite characters_append by exact Htext.
    apply Forall_app. split; [exact Hlow | now apply IH].
  - destruct (lower_character_other st a s (characters rest) Hu) as [Hone ->].
    rewrite append_cons, append_nil_l, characters_cons.
    assert (head_length (String a (lower_text
              (if case_ignorable (slice_to (head_length (String a s)) (String a s))
               then st else cased (slice_to (head_length (String a s)) (String a s)))
              (characters rest))) = 1%nat) as Hone'.
    { rewrite head_length_continuation_prefix.
      rewrite (continuation_prefix_lower_text 3).
      unfold rest. rewrite Hone. cbn [slice_from].
      now rewrite <- head_length_continuation_prefix. }
    rewrite Hone'. cbn [slice_to slice_from]. constructor; [|now apply IH].
    split; [discriminate|]. rewrite Hone in Hu. cbn [slice_to] in Hu. congruence.
Qed.

(** Lowercase characters are written as they are. *)
Lemma lower_text_fixed st text : Forall is_lowercase text -> lower_text st text = join text.
Proof.
  revert st. induction text as [|u text IH]; intros st Hlow; [reflexivity|].
  apply Forall_cons in Hlow as [[Hsigma Hfixed] Hlow].
  rewrite lower_text_cons. cbn [join]. rewrite IH by exact Hlow. f_equal.
  unfold lower_character.
  destruct (String.eqb_spec u capital_sigma) as [Heq|_]; [contradiction|].
  destruct (is_character u) eqn:Hu; [now apply Hfixed | reflexivity].
Qed.

Lemma ascii_character_lowercase a :
  byte_in 0 127 a = true -> is_lowercase (String (lower_char a) "").
Proof.
  intros Ha. split; [discriminate|]. intros _.
  rewrite lower_of_ascii by now rewrite lower_char_ascii.
  now rewrite lower_char_idempotent.
Qed.

Lemma characters_lower s : Forall is_lowercase (characters (lower s)).
Proof.
  unfold lower. destruct (is_ascii s) eqn:Hs.
  - rewrite characters_ascii by now rewrite is_ascii_ascii_lower.
    induction s as [|a s IH]; [constructor|].
    rewrite is_ascii_cons in Hs. apply andb_true_iff in Hs as [Ha Hs].
    cbn [ascii_lower list_ascii_of_string List.map]. constructor; [|now apply IH].
    now apply ascii_character_lowercase.
  - now apply (lower_text_lowercase (String.length s)).
Qed.

(** A string of lowercase characters is its own lowercase. *)
Lemma lower_fixed s : Forall is_lowercase (characters s) -> lower s = s.
Proof.
  intros Hlow. unfold lower. destruct (is_ascii s) eqn:Hs.
  - rewrite characters_ascii in Hlow by exact Hs.
    induction s as [|a s IH]; [reflexivity|].
    rewrite is_ascii_cons in Hs. apply andb_true_iff in Hs as [Ha Hs].
    cbn [list_ascii_of_string List.map] in Hlow.
    apply Forall_cons in Hlow as [[_ Hfixed] Hlow].
    cbn [ascii_lower]. rewrite IH by assumption. f_equal.
    specialize (Hfixed Ha). rewrite lower_of_ascii in Hfixed by exact Ha. congruence.
  - rewrite lower_text_fixed by exact Hlow. apply join_characters.
Qed.

Lemma lower_idempotent s : lower (lower s) = lower s.
Proof. apply lower_fixed, characters_lower. Qed.

Lemma characters_nonempty s : s <> "" -> characters s <> [].
Proof. destruct s as [|a s]; [contradiction|]. now rewrite characters_cons. Qed.

Lemma lower_empty s : lower s = "" -> s = "".
Proof.
  unfold lower. destruct (is_ascii s).
  - now destruct s.
  - destruct s as [|a s]; [reflexivity|]. rewrite characters_cons, lower_text_cons.
    intros Hempty. exfalso.
    destruct (is_character (slice_to (head_length (String a s)) (String a s))) eqn:Hu.
    + destruct (lower_character_text false _
                  (characters (slice_from (head_length (String a s)) (String a s))) Hu)
        as (Hne & _).
      destruct (lower_character _ _ _); [contradiction | discriminate].
    + destruct (lower_character_other false a s
                  (characters (slice_from (head_length (String a s)) (String a s))) Hu)
        as [_ Heq].
      rewrite Heq in Hempty. discriminate.
Qed.

Lemma contains_dot_join text :
  contains "." (join text) = false <-> Forall (fun u => contains "." u = false) text.
Proof.
  induction text as [|u text IH]; [split; [constructor | reflexivity]|].
  cbn [join]. rewrite contains_append, orb_false_iff, IH, Forall_cons. reflexivity.
Qed.

Lemma contains_dot_lower_text st text :
  Forall (fun u => contains "." u = false) text ->
  contains "." (lower_text st text) = false.
Proof.
  revert st. induction text as [|u text IH]; intros st Hno; [reflexivity|].
  apply Forall_cons in Hno as [Hu Hno]. rewrite lower_text_cons, contains_append.
  rewrite IH by exact Hno. rewrite orb_false_r. unfold lower_character.
  destruct (String.eqb u capital_sigma).
  - now destruct (st && negb (cased_follows text)).
  - destruct (is_character u) eqn:Hchar; [|exact Hu].
    apply lower_keeps_dots_out; [exact Hchar|]. intros ->. discriminate.
Qed.

Lemma contains_dot_lower s : contains "." s = false -> contains "." (lower s) = false.
Proof.
  intros Hno. unfold lower. destruct (is_ascii s).
  - now rewrite contains_dot_ascii_lower.
  - apply contains_dot_lower_text. apply contains_dot_join. now rewrite join_characters.
Qed.

End Lower.

Section Sample.

Implicit Types (a b c d : ascii) (s u v : string).

Lemma table_lookup_In u table v : table_lookup u table = Some v -> In (u, v) table.
Proof.
  induction table as [|[k w] table IH]; [discriminate|]. cbn [table_lookup].
  destruct (String.eqb_spec u k) as [->|_].
  - intros [= ->]. now left.
  - intros Hv. right. now apply IH.
Qed.

Lemma sample_entries :
  Forall (fun entry =>
            snd entry <> "" /\
            Forall (fun v => is_character v = true) (characters (snd entry)) /\
            Forall (@is_lowercase unicode_sample) (characters (snd entry)) /\
            contains "." (snd entry) = false)
         sample_lowercase.
Proof.
  repeat (apply Forall_cons; split;
          [split_and!;
           [discriminate
           | vm_compute characters; now repeat constructor
           | vm_compute characters;
             repeat (apply Forall_cons; split; [split; [discriminate | reflexivity]|]);
             constructor
           | reflexivity]|]).
  constructor.
Qed.

Lemma byte_dot a : Ascii.eqb a "." = true -> nat_of_ascii a = 46%nat.
Proof. intros Ha. apply Ascii.eqb_eq in Ha. now subst a. Qed.

(** A character of several bytes holds no dot. *)
Lemma character_dot u : is_character u = true -> contains "." u = true -> u = ".".
Proof.
  destruct u as [|a [|b [|c [|d [|e u]]]]]; cbn [is_character contains]; try discriminate;
    intros Hu Hdot.
  - rewrite orb_false_r in Hdot. apply Ascii.eqb_eq in Hdot. now subst a.
  - exfalso. repeat (apply orb_true_iff in Hdot as [Hdot|Hdot]); try discriminate;
      apply byte_dot in Hdot; bytes.
  - exfalso. repeat (apply orb_true_iff in Hdot as [Hdot|Hdot]); try discriminate;
      apply byte_dot in Hdot; bytes.
  - exfalso. repeat (apply orb_true_iff in Hdot as [Hdot|Hdot]); try discriminate;
      apply byte_dot in Hdot; bytes.
Qed.

Lemma sample_to_lower_full u :
  @to_lower_full unicode_sample u =
  match u with
  | String a "" => String (lower_char a) ""
  | _ => default u (table_lookup u sample_lowercase)
  end.
Proof. reflexivity. Qed.

(** The fragment has the properties that the proofs use of the database. *)
Lemma unicode_sample_facts : @UnicodeFacts unicode_sample.
Proof.
  assert (forall u, is_character u = true ->
            (exists a, u = String a "" /\ byte_in 0 127 a = true /\
                       @to_lower_full unicode_sample u = String (lower_char a) "") \/
            (exists v, In (u, v) sample_lowercase /\ @to_lower_full unicode_sample u = v) \/
            (u <> capital_sigma /\ contains "." u = false /\
             @to_lower_full unicode_sample u = u)) as Hcases.
  { intros u Hu. rewrite sample_to_lower_full.
    destruct u as [|a [|b u]]; [discriminate | left; now exists a |].
    right. destruct (table_lookup (String a (String b u)) sample_lowercase) as [v|] eqn:Hv.
    - left. exists v. split; [now apply table_lookup_In | reflexivity].
    - right. split_and!; [|apply not_true_iff_false|reflexivity].
      + intros Heq. rewrite Heq in Hv. discriminate.
      + intros Hdot. now apply character_dot in Hdot. }
  pose proof sample_entries as Hentries. rewrite List.Forall_forall in Hentries.
  split.
  - reflexivity.
  - intros u Hu. destruct (Hcases u Hu) as [(a & -> & Ha & ->) | [(v & Hin & ->) | (_ & _ & ->)]].
    + assert (is_character (String (lower_char a) "") = true) as Hlow
        by (cbn [is_character]; now rewrite lower_char_ascii).
      split; [discriminate|]. rewrite characters_one by exact Hlow.
      constructor; [exact Hlow | constructor].
    + destruct (Hentries _ Hin) as (Hne & Htext & _). now split.
    + split; [now destruct u|]. rewrite characters_one by exact Hu.
      constructor; [exact Hu | constructor].
  - intros u d Hu Hd.
    destruct (Hcases u Hu) as [(a & -> & Ha & Heq) | [(v & Hin & Heq) | (Hsigma & _ & Heq)]];
      rewrite Heq in Hd.
    + rewrite characters_one in Hd by (cbn [is_character]; now rewrite lower_char_ascii).
      destruct Hd as [<-|[]]. split; [discriminate|]. intros _.
      rewrite sample_to_lower_full. now rewrite lower_char_idempotent.
    + destruct (Hentries _ Hin) as (_ & _ & Hlow & _).
      rewrite List.Forall_forall in Hlow. now apply Hlow.
    + rewrite characters_one in Hd by exact Hu. destruct Hd as [<-|[]].
      split; [exact Hsigma | now intros _].
  - intros u Hu Hdot.
    destruct (Hcases u Hu) as [(a & -> & Ha & ->) | [(v & Hin & ->) | (_ & Hno & ->)]].
    + cbn [contains]. rewrite lower_char_dot, orb_false_r.
      apply not_true_iff_false. intros Heq. apply Ascii.eqb_eq in Heq. now subst a.
    + now destruct (Hentries _ Hin) as (_ & _ & _ & Hno).
    + exact Hno.
  - split; reflexivity.
Qed.

End Sample.

Section LowerCases.

#[local] Existing Instance unicode_sample.

Example sample_bytes :
  "Ä" = String "195" (String "132" "") /\ "Σ" = capital_sigma /\
  "σ" = small_sigma /\ "ς" = final_sigma /\
  Forall (fun entry => is_character (fst entry) = true) sample_lowercase.
Proof. split_and!; try reflexivity. repeat constructor. Qed.

Example lower_sample :
  lower "x.ÄÖ" = "x.äö" /\
  lower "Α.Σ" = "α.ς" /\
  lower "Σ" = "σ" /\
  lower ("İ" +:+ String "226" (String "132" (String "170" ""))) = "i̇k" /\
  lower "document.PDF" = "document.pdf".
Proof. vm_compute. split_and!; reflexivity. Qed.

End LowerCases.

Section Extension.

Context {unicode : UnicodeData} {facts : UnicodeFacts}.

Implicit Types (p : path).

(** [p.suffix] is empty, or a dot followed by at least one character and
    no further dot. *)
Lemma suffix_shape p :
  suffix p = "" \/
  exists rest, suffix p = String "." rest /\ rest <> "" /\ contains "." rest = false.
Proof.
  unfold suffix. cbv zeta.
  destruct ((0 <? rfind "." (name p)) &&
            (rfind "." (name p) <? Z.of_nat (String.length (name p)) - 1)) eqn:Hcut;
    [|now left].
  apply andb_true_iff in Hcut. destruct Hcut as [Hpos Hlt].
  apply Z.ltb_lt in Hpos, Hlt.
  destruct (rfind_spec "." (name p)) as [[Hr _] | [_ (rest & Hslice & Hno)]]; [lia|].
  right. exists rest. split; [exact Hslice|]. split; [|exact Hno].
  intros ->. pose proof (length_slice_from (Z.to_nat (rfind "." (name p))) (name p)) as Hlen.
  rewrite Hslice in Hlen. simpl in Hlen. lia.
Qed.

Lemma suffix_trailing_dot p s : name p = s +:+ "." -> suffix p = "".
Proof.
  intros Hname. unfold suffix. cbv zeta. rewrite Hname, rfind_last, length_append.
  simpl String.length.
  destruct (Z.ltb_spec (Z.of_nat (String.length s))
              (Z.of_nat (String.length s + 1) - 1)); [lia|].
  now rewrite andb_false_r.
Qed.

Lemma get_file_extension_cases p :
  (suffix p = "" /\ get_file_extension p = "no_extension") \/
  (exists rest, suffix p = String "." rest /\ rest <> "" /\ contains "." rest = false /\
                get_file_extension p = lower rest).
Proof.
  unfold get_file_extension. cbv zeta.
  destruct (suffix_shape p) as [-> | (rest & -> & Hne & Hno)]; [now left|].
  right. exists rest. split_and!; try assumption; try reflexivity.
  cbn [lstrip]. rewrite Ascii.eqb_refl, (lstrip_absent _ _ Hno).
  destruct (String.eqb_spec rest ""); [contradiction | reflexivity].
Qed.

(** The test-suite's cases for [get_file_extension]. *)
Example test_get_file_extension_with_extension :
  get_file_extension ["document.txt"] = "txt".
Proof. reflexivity. Qed.

Example test_get_file_extension_uppercase :
  get_file_extension ["document.PDF"] = "pdf".
Proof. reflexivity. Qed.

Example test_get_file_extension_no_extension :
  get_file_extension ["README"] = "no_extension".
Proof. reflexivity. Qed.

(** C9. [get_file_extension] yields ["gz"] for [archive.tar.gz] and the
    sentinel [no_extension] for [.gitignore]. *)
Theorem get_file_extension_concrete_cases :
  get_file_extension ["archive.tar.gz"] = "gz" /\
  get_file_extension [".gitignore"] = "no_extension".
Proof. split; reflexivity. Qed.

(** An ASCII byte of a string is one of its characters. *)
Lemma character_ascii_byte u a :
  is_character u = true -> In a (list_ascii_of_string u) -> byte_in 0 127 a = true ->
  u = String a "".
Proof.
  destruct u as [|b [|c [|d [|e [|f u]]]]]; cbn [is_character list_ascii_of_string];
    try discriminate; intros Hu Hin Ha;
    repeat (destruct Hin as [<-|Hin]; [try reflexivity; exfalso; bytes|]);
    destruct Hin.
Qed.

Lemma list_ascii_of_string_append s z :
  list_ascii_of_string (s +:+ z) = list_ascii_of_string s ++ list_ascii_of_string z.
Proof.
  induction s as [|a s IH]; [reflexivity|]. rewrite append_cons.
  cbn [list_ascii_of_string app]. now f_equal.
Qed.

Lemma ascii_byte_character (fuel : nat) :
  forall s a, (String.length s <= fuel)%nat ->
    In a (list_ascii_of_string s) -> byte_in 0 127 a = true ->
    In (String a "") (characters s).
Proof.
  induction fuel as [|fuel IH]; intros [|b s] a Hlen Hin Ha; try (now destruct Hin);
    try (simpl in Hlen; lia).
  rewrite characters_cons.
  rewrite <- (slice_to_from (head_length (String b s)) (String b s)) in Hin.
  rewrite list_ascii_of_string_append in Hin. apply in_app_or in Hin as [Hin|Hin].
  - left. destruct (head_length_character (String b s)) as [Hone|Hchar].
    + rewrite Hone in *. cbn [slice_to list_ascii_of_string] in *.
      destruct Hin as [->|[]]. reflexivity.
    + now apply character_ascii_byte.
  - right. apply IH; [|exact Hin | exact Ha].
    pose proof (head_length_bounds (String b s)) as Hn.
    destruct (head_length (String b s)) as [|n]; [lia|].
    simpl in *. pose proof (length_slice_from_le n s). lia.
Qed.

(** In a string of lowercase characters no letter A to Z occurs. *)
Lemma lowercase_no_capital s a :
  Forall is_lowercase (characters s) -> In a (list_ascii_of_string s) ->
  byte_in 65 90 a = false.
Proof.
  intros Hlow Hin. destruct (byte_in 0 127 a) eqn:Ha; [|bytes].
  pose proof (ascii_byte_character (String.length s) s a (Nat.le_refl _) Hin Ha) as Hchar.
  rewrite List.Forall_forall in Hlow. destruct (Hlow _ Hchar) as [_ Hfixed].
  specialize (Hfixed Ha). rewrite lower_of_ascii in Hfixed by exact Ha.
  apply lower_char_capital. congruence.
Qed.


(** The three properties and the two concrete cases do not depend on the
    version of [pathlib]. *)
Lemma suffix_splitext_shape p :
  suffix_splitext p = "" \/
  exists rest, suffix_splitext p = String "." rest /\ contains "." rest = false.
Proof.
  unfold suffix_splitext. cbv zeta.
  destruct ((0 <=? rfind "." (name p)) &&
            negb (String.eqb (lstrip "." (slice_to (Z.to_nat (rfind "." (name p))) (name p)))
                             "")) eqn:Hcut;
    [|now left].
  apply andb_true_iff in Hcut. destruct Hcut as [Hpos _]. apply Z.leb_le in Hpos.
  destruct (rfind_spec "." (name p)) as [[Hr _] | [_ (rest & Hslice & Hno)]]; [lia|].
  right. exists rest. split; [exact Hslice | exact Hno].
Qed.

Lemma get_file_extension_splitext_well_formed (file_path : path) :
  get_file_extension_splitext file_path <> "" /\
  contains "." (get_file_extension_splitext file_path) = false /\
  lower (get_file_extension_splitext file_path) = get_file_extension_splitext file_path /\
  get_file_extension_splitext ["archive.tar.gz"] = "gz" /\
  get_file_extension_splitext [".gitignore"] = "no_extension" /\
  get_file_extension_splitext ["notes."] = "no_extension".
Proof.
  assert (get_file_extension_splitext file_path = "no_extension" \/
          exists rest, rest <> "" /\ contains "." rest = false /\
                       get_file_extension_splitext file_path = lower rest) as Hcases.
  { unfold get_file_extension_splitext. cbv zeta.
    destruct (suffix_splitext_shape file_path) as [-> | (rest & -> & Hno)]; [now left|].
    cbn [lstrip]. rewrite Ascii.eqb_refl, (lstrip_absent _ _ Hno).
    destruct (String.eqb_spec rest ""); [now left|].
    right. exists rest. split_and!; try assumption; reflexivity. }
  split_and!; try reflexivity.
  - destruct Hcases as [-> | (rest & Hne & _ & ->)]; [discriminate|].
    intros Hlow. now apply lower_empty in Hlow.
  - destruct Hcases as [-> | (rest & _ & Hno & ->)]; [reflexivity|].
    now apply contains_dot_lower.
  - destruct Hcases as [-> | (rest & _ & _ & ->)]; [reflexivity|].
    apply lower_idempotent.
Qed.

End Extension.

Section ExtensionCases.

#[local] Existing Instance unicode_sample.


End ExtensionCases.

Section CopyThreeFiles.

Context {unicode : UnicodeData}.

Lemma Permutation_three {A : Type} (x y z : A) (l : list A) :
  Permutation l [x; y; z] ->
  l = [x; y; z] \/ l = [x; z; y] \/ l = [y; x; z] \/
  l = [y; z; x] \/ l = [z; x; y] \/ l = [z; y; x].
Proof.
  intros Hperm. pose proof (Permutation_length Hperm) as Hlen.
  destruct l as [|a [|b [|c [|]]]]; try discriminate. clear Hlen.
  destruct (Permutation_vs_cons_inv Hperm) as (l1 & l2 & Hsplit).
  apply Permutation_sym in Hperm.
  assert (Permutation [y; z] (l1 ++ l2)) as Hrest.
  { apply (Permutation_cons_inv (a := x)).
    apply Permutation_trans with [a; b; c]; [exact Hperm|].
    rewrite Hsplit. apply Permutation_sym, Permutation_middle. }
  apply Permutation_length_2_inv in Hrest.
  destruct l1 as [|u [|v [|w l1]]]; simpl in *;
    destruct Hrest as [Hrest|Hrest]; simplify_eq; auto 10.
Qed.

Lemma process_directory_recursive_unfold order fuel source_dir destination_dir :
  process_directory_recursive order (Datatypes.S fuel) source_dir destination_dir =
  reraising_OSError
    (items <- iterdir order source_dir ;;
     for_each items (fun item =>
       m <- get ;;
       if is_file (files m) item then
         copy_file_to_destination (Datatypes.S fuel) item destination_dir
       else if is_dir (files m) item then
         process_directory_recursive order fuel item destination_dir
       else ret tt))%py
    (fun e => print_err ("Error accessing directory " +:+ render source_dir +:+
                         ": " +:+ e)).
Proof. reflexivity. Qed.

End CopyThreeFiles.

Section CopierProperties.

Context {unicode : UnicodeData}.

(** The test-suite's case for a name that is already taken in its bucket. *)
Example test_copy_file_handles_duplicate_names :
  let fs := <[ ["file.txt"] := File "content 1" 1 ]>
              (<[ ["subdir"] := Dir ]>
                 (<[ ["subdir"; "file.txt"] := File "content 2" 2 ]> ∅)) in
  let run := (copy_file_to_destination 3 ["file.txt"] ["dest"] ;;;
              copy_file_to_destination 3 ["subdir"; "file.txt"] ["dest"])%py
               (Machine fs [] []) in
  fst run = Return tt /\
  files (snd run) !! ["dest"; "txt"; "file.txt"] = Some (File "content 1" 1) /\
  files (snd run) !! ["dest"; "txt"; "file_1.txt"] = Some (File "content 2" 2).
Proof. vm_compute. split_and!; reflexivity. Qed.

(** On the three files the run keeps the names, whatever the Unicode
    database: the names are ASCII. *)
Lemma copy_three_files_keeps_names :
  fst (process_directory_recursive (fun l => l) 1 ["src"] ["dest"]
         (Machine (three_files (File "A" 1) (File "B" 2) (File "R" 3)) [] [])) =
    Return tt /\
  files (snd (process_directory_recursive (fun l => l) 1 ["src"] ["dest"]
         (Machine (three_files (File "A" 1) (File "B" 2) (File "R" 3)) [] [])))
    !! ["dest"; "txt"; "b.txt"] = None /\
  fst (iterdir (fun l => l) ["dest"; "txt"]
         (snd (process_directory_recursive (fun l => l) 1 ["src"] ["dest"]
            (Machine (three_files (File "A" 1) (File "B" 2) (File "R" 3)) [] [])))) =
    Return [["dest"; "txt"; "a.txt"]; ["dest"; "txt"; "b.TXT"]].
Proof. vm_compute. split_and!; reflexivity. Qed.

(** C8, amended. Copying a source directory that contains exactly the
    files [a.txt], [b.TXT] and [README] into an empty destination directory
    [dest] produces, in whatever order the directory is listed, exactly the
    files [dest/txt/a.txt], [dest/txt/b.TXT] (the name is kept as it is) and
    [dest/no_extension/README], each with the content and modification time
    of its source, and reports no error. *)
Theorem copy_three_files_into_buckets
  (listing_order : list path -> list path) (fuel : nat)
  (ca cb cr : string) (ma mb mr : Z) :
  (forall l, Permutation (listing_order l) l) -> (1 <= fuel)%nat ->
  exists lines,
    process_directory_recursive listing_order fuel ["src"] ["dest"]
      (Machine (three_files (File ca ma) (File cb mb) (File cr mr)) [] []) =
    (Return tt,
     Machine (three_files_sorted (File ca ma) (File cb mb) (File cr mr)) lines []) /\
    (forall q,
       q ∈ files_below ["dest"] (three_files_sorted (File ca ma) (File cb mb) (File cr mr)) <->
       q = ["dest"; "txt"; "a.txt"] \/ q = ["dest"; "txt"; "b.TXT"] \/
       q = ["dest"; "no_extension"; "README"]).
Proof.
  intros Horder Hfuel. destruct fuel as [|fuel]; [lia|]. clear Hfuel.
  set (m0 := Machine (three_files (File ca ma) (File cb mb) (File cr mr)) [] []).
  rewrite process_directory_recursive_unfold.
  assert (is_dir (files m0) ["src"] = true) as Hdir by (vm_compute; reflexivity).
  assert (filter (fun q => q <> [] /\ removelast q = ["src"])
                 (fst <$> map_to_list (files m0)) =
          [["src"; "a.txt"]; ["src"; "b.TXT"]; ["src"; "README"]]) as Hlist
    by (vm_compute; reflexivity).
  assert (forall items,
            listing_order [["src"; "a.txt"]; ["src"; "b.TXT"]; ["src"; "README"]] = items ->
            iterdir listing_order ["src"] m0 = (Return items, m0)) as Hiter.
  { intros items <-. unfold iterdir. now rewrite Hdir, Hlist. }
  assert (files_below ["dest"]
            (three_files_sorted (File ca ma) (File cb mb) (File cr mr)) =
          [["dest"; "txt"; "a.txt"]; ["dest"; "txt"; "b.TXT"];
           ["dest"; "no_extension"; "README"]]) as Hbelow
    by (vm_compute; reflexivity).
  assert (forall q,
       q ∈ files_below ["dest"] (three_files_sorted (File ca ma) (File cb mb) (File cr mr)) <->
       q = ["dest"; "txt"; "a.txt"] \/ q = ["dest"; "txt"; "b.TXT"] \/
       q = ["dest"; "no_extension"; "README"]) as Hfiles.
  { intros q. rewrite Hbelow, !elem_of_cons, elem_of_nil. tauto. }
  unfold reraising_OSError.
  destruct (Permutation_three _ _ _ _
              (Horder [["src"; "a.txt"]; ["src"; "b.TXT"]; ["src"; "README"]]))
    as [Hl | [Hl | [Hl | [Hl | [Hl | Hl]]]]];
    rewrite (bind_Return _ _ _ _ _ (Hiter _ Hl));
    (eexists; split; [vm_compute; reflexivity | exact Hfiles]).
Qed.

End CopierProperties.

Section CopyThreeFilesCases.

#[local] Existing Instance unicode_sample.

(** C8, as stated, fails: the copy of [b.TXT] is [dest/txt/b.TXT]. Only
    the bucket is named after the lowercased extension; the file keeps its
    name, so [dest/txt] holds [a.txt] and [b.TXT] and neither [b.txt] nor a
    renamed variant of it.  (The run is the same whatever the Unicode
    database; it is stated here on the fragment [unicode_sample].) *)
Lemma copy_three_files_no_lowercase_name :
  fst (process_directory_recursive (fun l => l) 1 ["src"] ["dest"]
         (Machine (three_files (File "A" 1) (File "B" 2) (File "R" 3)) [] [])) =
    Return tt /\
  files (snd (process_directory_recursive (fun l => l) 1 ["src"] ["dest"]
         (Machine (three_files (File "A" 1) (File "B" 2) (File "R" 3)) [] [])))
    !! ["dest"; "txt"; "b.txt"] = None /\
  fst (iterdir (fun l => l) ["dest"; "txt"]
         (snd (process_directory_recursive (fun l => l) 1 ["src"] ["dest"]
            (Machine (three_files (File "A" 1) (File "B" 2) (File "R" 3)) [] [])))) =
    Return [["dest"; "txt"; "a.txt"]; ["dest"; "txt"; "b.TXT"]].
Proof. exact copy_three_files_keeps_names. Qed.

Lemma copy_three_files_into_buckets_witness :
  (forall l : list path, Permutation ((fun l => l) l) l) /\ (1 <= 2)%nat /\
  exists lines,
    process_directory_recursive (fun l => l) 2 ["src"] ["dest"]
      (Machine (three_files (File "A" 1) (File "B" 2) (File "R" 3)) [] []) =
    (Return tt,
     Machine (three_files_sorted (File "A" 1) (File "B" 2) (File "R" 3)) lines []) /\
    (forall q,
       q ∈ files_below ["dest"]
             (three_files_sorted (File "A" 1) (File "B" 2) (File "R" 3)) <->
       q = ["dest"; "txt"; "a.txt"] \/ q = ["dest"; "txt"; "b.TXT"] \/
       q = ["dest"; "no_extension"; "README"]).
Proof.
  split; [intros l; apply Permutation_refl|]. split; [lia|].
  apply (copy_three_files_into_buckets (fun l => l) 2 "A" "B" "R" 1 2 3);
    [intros l; apply Permutation_refl | lia].
Defined.

End CopyThreeFilesCases.

(* ================================================================== *)
(** * Contracts, invariants and the entry points *)

(** ** Towers of Hanoi: [move_disk] *)

Section HanoiMoveFacts.

Implicit Types (t : pegs) (w : world) (s d a : string).

Lemma move_disk_same_peg t s (src : list Z) :
  t !! s = Some src -> src <> [] ->
  exists disk, last src = Some disk /\ move_disk t s s = inr (disk, t).
Proof.
  intros Hs Hne. destruct (last src) as [disk|] eqn:Hlast.
  - exists disk. split; [reflexivity|]. unfold move_disk. rewrite Hs, Hlast.
    unfold smaller_on_top. rewrite Hlast, Z.ltb_irrefl. f_equal. f_equal.
    apply map_eq. intros p. unfold append_at, pop_at.
    rewrite !lookup_alter. case_decide; [subst p|reflexivity].
    rewrite Hs. simpl.
    apply last_Some in Hlast. destruct Hlast as [l' ->].
    rewrite decide_True by reflexivity. simpl. now rewrite removelast_last.
  - apply last_None in Hlast. contradiction.
Qed.

(** X1. A move from a peg onto itself is accepted whenever the peg holds a
    disk: [move_disk] returns the top disk and leaves the dict as it was. *)
Theorem move_disk_onto_itself t s (src : list Z) :
  t !! s = Some src -> src <> [] ->
  exists disk, last src = Some disk /\ move_disk t s s = inr (disk, t).
Proof. exact (move_disk_same_peg t s src). Qed.

Lemma move_disk_onto_itself_witness :
  exists disk, last [3; 2; 1] = Some disk /\
    move_disk (<["A" := [3; 2; 1]]> (<["B" := []]> ∅)) "A" "A" =
    inr (disk, <["A" := [3; 2; 1]]> (<["B" := []]> ∅)).
Proof.
  apply (move_disk_onto_itself (<["A" := [3; 2; 1]]> (<["B" := []]> ∅)) "A" [3; 2; 1]);
    [reflexivity | discriminate].
Defined.

(** What a successful move reads and writes. *)
Lemma move_disk_inv t s d disk t' :
  move_disk t s d = inr (disk, t') ->
  exists src dst,
    t !! s = Some (src ++ [disk]) /\ t !! d = Some dst /\
    smaller_on_top dst disk = false /\
    t' = append_at d disk (pop_at s t).
Proof.
  unfold move_disk. destruct (t !! s) as [src|] eqn:Hs; [|discriminate].
  destruct (last src) as [x|] eqn:Hlast; [|discriminate].
  destruct (t !! d) as [dst|] eqn:Hd; [|discriminate].
  destruct (smaller_on_top dst x) eqn:Htop; [discriminate|].
  intros [= <- <-]. apply last_Some in Hlast. destruct Hlast as [src' ->].
  exists src', dst. split_and!; try reflexivity; assumption.
Qed.

Lemma move_disk_inv_ne t s d disk t' :
  s <> d -> move_disk t s d = inr (disk, t') ->
  exists src dst,
    t !! s = Some (src ++ [disk]) /\ t !! d = Some dst /\
    smaller_on_top dst disk = false /\
    t' = <[d := dst ++ [disk]]> (<[s := src]> t).
Proof.
  intros Hne Hmove. destruct (move_disk_inv _ _ _ _ _ Hmove) as (src & dst & Hs & Hd & Htop & _).
  exists src, dst. split_and!; try assumption.
  rewrite (move_disk_legal _ _ _ _ _ _ Hne Hs Hd Htop) in Hmove. congruence.
Qed.

(** X2. [move_disk] keeps the pegs sorted: when every peg is strictly
    decreasing from bottom to top and the top of the destination is not a
    disk of the same size as the one moved, every peg is strictly decreasing
    after a move that [move_disk] accepts. *)
Theorem move_disk_keeps_pegs_sorted t s d disk t' :
  pegs_sorted t ->
  (forall dst top, t !! d = Some dst -> last dst = Some top -> top <> disk) ->
  move_disk t s d = inr (disk, t') ->
  pegs_sorted t'.
Proof.
  intros Hsorted Hdistinct Hmove.
  destruct (decide (s = d)) as [->|Hne].
  - destruct (move_disk_inv _ _ _ _ _ Hmove) as (src & dst & Hs & Hd & _).
    exfalso. apply (Hdistinct (src ++ [disk]) disk Hs); [apply last_snoc | reflexivity].
  - destruct (move_disk_inv_ne _ _ _ _ _ Hne Hmove) as (src & dst & Hs & Hd & Htop & ->).
    apply pegs_sorted_insert; [apply pegs_sorted_insert; [assumption|]|].
    + apply (strictly_decreasing_app_l src [disk]). now apply Hsorted with s.
    + apply strictly_decreasing_snoc. split; [now apply Hsorted with d|].
      intros top Hlast. specialize (Hdistinct dst top Hd Hlast).
      unfold smaller_on_top in Htop. rewrite Hlast in Htop.
      apply Z.ltb_ge in Htop. lia.
Qed.

Lemma move_disk_keeps_pegs_sorted_witness :
  pegs_sorted (<["A" := [2]]> (<["B" := []]> (<["C" := [3]]> ∅))) /\
  pegs_sorted (<["A" := []]> (<["B" := []]> (<["C" := [3; 2]]> ∅))).
Proof.
  assert (pegs_sorted (<["A" := [2]]> (<["B" := []]> (<["C" := [3]]> ∅)))) as Hsorted.
  { repeat apply pegs_sorted_insert; try reflexivity.
    intros p l Hp. now rewrite lookup_empty in Hp. }
  split; [exact Hsorted|].
  apply (move_disk_keeps_pegs_sorted
           (<["A" := [2]]> (<["B" := []]> (<["C" := [3]]> ∅))) "A" "C" 2);
    [exact Hsorted | | vm_compute; reflexivity].
  intros dst top Hd Hlast. vm_compute in Hd. injection Hd as <-.
  injection Hlast as <-. discriminate.
Defined.

Lemma disks_on_insert t p (l : list Z) :
  t !! p = None -> Permutation (disks_on (<[p := l]> t)) (l ++ disks_on t).
Proof.
  intros Hp. unfold disks_on.
  rewrite (Permutation_flat_map snd (map_to_list_insert t p l Hp)). reflexivity.
Qed.

Lemma disks_on_lookup t p (l : list Z) :
  t !! p = Some l -> Permutation (disks_on t) (l ++ disks_on (delete p t)).
Proof.
  intros Hp. rewrite <- (insert_delete_id t p l Hp) at 1.
  apply disks_on_insert. apply lookup_delete_eq.
Qed.

Lemma move_disk_permutes_disks t s d disk t' :
  move_disk t s d = inr (disk, t') -> Permutation (disks_on t') (disks_on t).
Proof.
  intros Hmove. destruct (decide (s = d)) as [->|Hne].
  - destruct (move_disk_inv _ _ _ _ _ Hmove) as (src & dst & Hs & _).
    destruct (move_disk_same_peg t d (src ++ [disk]) Hs) as (x & _ & Hsame).
    { now destruct src. }
    rewrite Hsame in Hmove. injection Hmove as _ <-. reflexivity.
  - destruct (move_disk_inv_ne _ _ _ _ _ Hne Hmove) as (src & dst & Hs & Hd & _ & ->).
    rewrite (disks_on_lookup t s _ Hs).
    rewrite (disks_on_lookup (delete s t) d dst) by (now rewrite lookup_delete_ne).
    rewrite (disks_on_lookup (<[d := dst ++ [disk]]> (<[s := src]> t)) d (dst ++ [disk]))
      by apply lookup_insert_eq.
    rewrite delete_insert_eq.
    rewrite (disks_on_lookup (delete d (<[s := src]> t)) s src)
      by (rewrite lookup_delete_ne by congruence; apply lookup_insert_eq).
    assert (delete s (delete d (<[s := src]> t)) = delete d (delete s t)) as ->.
    { apply map_eq. intros p. rewrite !lookup_delete, lookup_insert.
      repeat case_decide; congruence. }
    generalize (disks_on (delete d (delete s t))) as rest. intros rest.
    rewrite <- !app_assoc.
    rewrite (app_assoc [disk] src rest), (Permutation_app_comm [disk] src), <- app_assoc.
    rewrite (app_assoc dst src), (Permutation_app_comm dst src), <- app_assoc.
    apply Permutation_app_head.
    rewrite (app_assoc dst [disk]), (Permutation_app_comm dst [disk]), <- app_assoc.
    reflexivity.
Qed.

(** X3. [move_disk] loses no disk and makes none: after a move it accepts,
    whatever the dict and the two pegs (equal or not), the disks on the pegs
    are the disks that were there, each as often as before. *)
Theorem move_disk_keeps_disks t s d disk t' :
  move_disk t s d = inr (disk, t') -> Permutation (disks_on t') (disks_on t).
Proof. exact (move_disk_permutes_disks t s d disk t'). Qed.

Lemma move_disk_keeps_disks_witness :
  move_disk (<["A" := [2]]> (<["B" := []]> (<["C" := [3]]> ∅))) "A" "C" =
    inr (2, <["A" := []]> (<["B" := []]> (<["C" := [3; 2]]> ∅))) /\
  Permutation (disks_on (<["A" := []]> (<["B" := []]> (<["C" := [3; 2]]> ∅))))
              (disks_on (<["A" := [2]]> (<["B" := []]> (<["C" := [3]]> ∅)))).
Proof.
  split; [vm_compute; reflexivity|].
  apply (move_disk_keeps_disks (<["A" := [2]]> (<["B" := []]> (<["C" := [3]]> ∅)))
           "A" "C" 2).
  vm_compute. reflexivity.
Defined.

End HanoiMoveFacts.

(** ** Towers of Hanoi: [hanoi_recursive] *)

Section HanoiContract.

Implicit Types (t : pegs) (w : world) (s d a : string).

(** X4. The contract of [hanoi_recursive] on any three distinct pegs of any
    dict: when the source holds the disks [n, ..., 1] on top of a stack [ls],
    the pegs are sorted and the disk [n] may lie on each of the stacks [ls],
    [ld], [la], the call returns (given a call stack of depth [n]) with the
    [n] disks on top of the destination, the rest of the dict as it was,
    after exactly [2^n - 1] moves, each of which left the pegs sorted. *)
Theorem hanoi_recursive_moves_the_stack
  (n : Z) (fuel : nat) s d a (show_steps : bool) w (ls ld la : list Z) :
  1 <= n -> (Z.to_nat n <= fuel)%nat ->
  s <> d -> s <> a -> d <> a ->
  towers w !! s = Some (ls ++ range_desc n 0) ->
  towers w !! d = Some ld ->
  towers w !! a = Some la ->
  strictly_decreasing (ls ++ [n]) = true ->
  strictly_decreasing (ld ++ [n]) = true ->
  strictly_decreasing (la ++ [n]) = true ->
  pegs_sorted (towers w) ->
  exists w',
    hanoi_recursive fuel n s d a show_steps w = (Return tt, w') /\
    towers w' = <[d := ld ++ range_desc n 0]> (<[s := ls]> (towers w)) /\
    (exists new, trace w' = trace w ++ new /\
                 Z.of_nat (length new) = 2 ^ n - 1 /\
                 Forall (fun m => pegs_sorted (mv_after m)) new).
Proof.
  intros Hn Hfuel Hsd Hsa Hda Hs Hd Ha Hls Hld Hla Hw.
  destruct (hanoi_recursive_transfer (Z.to_nat n - 1) fuel n s d a show_steps w ls ld la)
    as (new & out & Hrun & Hlen & Hinv & _); try assumption; try lia.
  eexists. split; [exact Hrun|]. simpl. split; [reflexivity|].
  exists new. split_and!; [reflexivity | exact Hlen | exact Hinv].
Qed.

Lemma hanoi_recursive_moves_the_stack_witness :
  exists w',
    hanoi_recursive 2 2 "B" "A" "C" false
      (World (<["A" := [5]]> (<["B" := [4; 2; 1]]> (<["C" := [3]]> ∅))) [] []) =
      (Return tt, w') /\
    towers w' = <["A" := [5] ++ range_desc 2 0]>
                  (<["B" := [4]]> (<["A" := [5]]> (<["B" := [4; 2; 1]]> (<["C" := [3]]> ∅)))) /\
    (exists new, trace w' = [] ++ new /\
                 Z.of_nat (length new) = 2 ^ 2 - 1 /\
                 Forall (fun m => pegs_sorted (mv_after m)) new).
Proof.
  pose proof (hanoi_recursive_moves_the_stack 2 2 "B" "A" "C" false
           (World (<["A" := [5]]> (<["B" := [4; 2; 1]]> (<["C" := [3]]> ∅))) [] [])
           [4] [5] [3]) as H.
  cbn [towers trace] in H.
  apply H; try lia; try discriminate; try reflexivity.
  intros p l. rewrite !lookup_insert. repeat case_decide; intros Hl; simplify_eq;
    reflexivity.
Defined.

(** X5. [hanoi_recursive] checks nothing before it starts: asked to move
    [n >= 2] disks from a peg that holds only the [n - 1] disks
    [n-1, ..., 1], it makes the [2^(n-1) - 1] moves that carry them to the
    auxiliary peg, and only then raises the [ValueError] of the empty
    source; the dict is left with the disks on the auxiliary peg. *)
Theorem hanoi_recursive_fails_half_way
  (n : Z) (fuel : nat) s d a (show_steps : bool) w (ld la : list Z) :
  2 <= n -> (Z.to_nat n <= fuel)%nat ->
  s <> d -> s <> a -> d <> a ->
  towers w !! s = Some (range_desc (n - 1) 0) ->
  towers w !! d = Some ld ->
  towers w !! a = Some la ->
  strictly_decreasing (ld ++ [n - 1]) = true ->
  strictly_decreasing (la ++ [n - 1]) = true ->
  pegs_sorted (towers w) ->
  exists w' new,
    hanoi_recursive fuel n s d a show_steps w =
      (Raise (ValueError ("Cannot move from empty tower " +:+ s)), w') /\
    towers w' = <[a := la ++ range_desc (n - 1) 0]> (<[s := []]> (towers w)) /\
    trace w' = trace w ++ new /\
    Z.of_nat (length new) = 2 ^ (n - 1) - 1.
Proof.
  intros Hn Hfuel Hsd Hsa Hda Hs Hd Ha Hld Hla Hw.
  destruct fuel as [|fuel]; [lia|]. rewrite hanoi_recursive_unfold.
  destruct (Z.eqb_spec n 1) as [|_]; [lia|].
  destruct (hanoi_recursive_transfer (Z.to_nat (n - 1) - 1) fuel (n - 1) s a d show_steps
              w [] la ld)
    as (new & out & Hrun & Hlen & _ & _); try assumption; try lia; try congruence.
  { reflexivity. }
  rewrite (bind_Return _ _ _ _ _ Hrun).
  eexists. exists new. split.
  - apply bind_Raise. unfold call_move_disk, move_disk. simpl towers.
    rewrite lookup_insert_ne by congruence. rewrite lookup_insert_eq. reflexivity.
  - simpl. split_and!; [reflexivity | reflexivity | exact Hlen].
Qed.

Lemma hanoi_recursive_fails_half_way_witness :
  exists w' new,
    hanoi_recursive 2 2 "A" "C" "B" false
      (World (<["A" := [1]]> (<["B" := []]> (<["C" := []]> ∅))) [] []) =
      (Raise (ValueError ("Cannot move from empty tower " +:+ "A")), w') /\
    towers w' = <["B" := [] ++ range_desc (2 - 1) 0]>
                  (<["A" := []]> (<["A" := [1]]> (<["B" := []]> (<["C" := []]> ∅)))) /\
    trace w' = [] ++ new /\
    Z.of_nat (length new) = 2 ^ (2 - 1) - 1.
Proof.
  pose proof (hanoi_recursive_fails_half_way 2 2 "A" "C" "B" false
           (World (<["A" := [1]]> (<["B" := []]> (<["C" := []]> ∅))) [] [])
           [] []) as H.
  cbn [towers trace] in H.
  apply H; try lia; try discriminate; try reflexivity.
  intros p l. rewrite !lookup_insert. repeat case_decide; intros Hl; simplify_eq;
    reflexivity.
Defined.

End HanoiContract.

Section HanoiRunFacts.

Implicit Types (t : pegs) (w : world) (s d a : string).

Lemma replays_keeps_disks t (ms : list move) :
  replays t ms -> Permutation (disks_on (state_after t ms)) (disks_on t).
Proof.
  revert t. induction ms as [|m ms IH]; intros t Hre; [reflexivity|].
  destruct Hre as [Hmove Hre]. rewrite state_after_cons.
  rewrite (IH _ Hre). now apply move_disk_permutes_disks in Hmove.
Qed.

(** X6. [hanoi_recursive] loses no disk and makes none, whatever it is
    called on and however it ends (it returns, it raises half way, or the
    call stack gives out): the disks on the pegs of the dict it leaves are
    the disks that were there, each as often as before. *)
Theorem hanoi_recursive_keeps_disks (fuel : nat) (n : Z) s d a (show_steps : bool) w :
  Permutation (disks_on (towers (snd (hanoi_recursive fuel n s d a show_steps w))))
              (disks_on (towers w)).
Proof.
  destruct (extends_hanoi_recursive fuel n s d a show_steps w) as (new & _ & Hre & ->).
  now apply replays_keeps_disks.
Qed.

Lemma bind_assoc {S A B C : Type} (m : M S A) (f : A -> M S B) (g : B -> M S C) st :
  bind (bind m f) g st = bind m (fun x => bind (f x) g) st.
Proof. unfold bind. destruct (m st) as [[x|e|] st']; reflexivity. Qed.

Lemma prints_its_moves_bind {A B : Type} (m : M world A) (k : A -> M world B) w :
  prints_its_moves w (m w) -> (forall x w', prints_its_moves w' (k x w')) ->
  prints_its_moves w (bind m k w).
Proof.
  intros (new1 & Htr1 & Hout1) Hk. unfold bind.
  destruct (m w) as [[x|e|] w1]; simpl in *;
    try (exists new1; split; assumption).
  destruct (Hk x w1) as (new2 & Htr2 & Hout2).
  exists (new1 ++ new2). split.
  - now rewrite Htr2, Htr1, app_assoc.
  - unfold trace_lines in *. now rewrite Hout2, Hout1, flat_map_app, app_assoc.
Qed.

Lemma prints_its_moves_move s d w :
  prints_its_moves w
    (bind (call_move_disk s d) (fun disk => show_move true s d disk) w).
Proof.
  unfold bind, call_move_disk.
  destruct (move_disk (towers w) s d) as [e|[disk t']].
  - exists []. simpl. split; symmetry; apply app_nil_r.
  - rewrite show_move_run. exists [Move s d disk t']. simpl.
    split; reflexivity.
Qed.

Lemma prints_its_moves_hanoi_recursive (fuel : nat) (n : Z) s d a w :
  prints_its_moves w (hanoi_recursive fuel n s d a true w).
Proof.
  revert n s d a w. induction fuel as [|fuel IH]; intros n s d a w.
  - exists []. simpl. split; symmetry; apply app_nil_r.
  - rewrite hanoi_recursive_unfold. destruct (n =? 1).
    + apply prints_its_moves_move.
    + apply prints_its_moves_bind; [apply IH|]. intros _ w1.
      rewrite <- (bind_assoc (call_move_disk s d)
                    (fun disk => show_move true s d disk)
                    (fun _ => hanoi_recursive fuel (n - 1) a d s true)).
      apply prints_its_moves_bind; [apply prints_its_moves_move|].
      intros _ w2. apply IH.
Qed.

(** X7. With the steps shown, [hanoi_recursive] prints its moves and nothing
    else, however it ends: what it appends to the output is, for each move
    it made and in their order, the line [Move disk from s to d: disk], the
    line [Intermediate state:] and the dict as that move left it. *)
Theorem hanoi_recursive_prints_its_moves (fuel : nat) (n : Z) s d a w :
  exists new,
    trace (snd (hanoi_recursive fuel n s d a true w)) = trace w ++ new /\
    stdout (snd (hanoi_recursive fuel n s d a true w)) = stdout w ++ trace_lines new.
Proof. exact (prints_its_moves_hanoi_recursive fuel n s d a w). Qed.

(** Whatever the dict, a call with [n >= 1] ends within depth [n], and the
    pegs of the moves it made are the plan or, when it raised, a proper
    beginning of it. *)
Lemma hanoi_recursive_plan (k : nat) :
  forall (fuel : nat) (n : Z) s d a (show_steps : bool) w,
    n = Z.of_nat (Datatypes.S k) -> (Datatypes.S k <= fuel)%nat ->
    exists new,
      trace (snd (hanoi_recursive fuel n s d a show_steps w)) = trace w ++ new /\
      ((fst (hanoi_recursive fuel n s d a show_steps w) = Return tt /\
        pegs_of <$> new = transfer_plan (Datatypes.S k) s d a) \/
       (exists e rest,
          fst (hanoi_recursive fuel n s d a show_steps w) = Raise e /\
          rest <> [] /\
          transfer_plan (Datatypes.S k) s d a = (pegs_of <$> new) ++ rest)).
Proof.
  induction k as [|k IH]; intros fuel n s d a show_steps w Hn Hfuel;
    (destruct fuel as [|fuel]; [lia|]); rewrite hanoi_recursive_unfold;
    match goal with |- exists new, trace (snd ?r) = _ /\ _ =>
      remember r as res eqn:Hres
    end.
  - destruct (Z.eqb_spec n 1) as [_|]; [|lia]. unfold bind, call_move_disk in Hres.
    destruct (move_disk (towers w) s d) as [e|[disk t']].
    + subst res. exists []. simpl. split; [now rewrite app_nil_r|]. right.
      exists e, [(s, d)]. split_and!; [reflexivity | discriminate | reflexivity].
    + rewrite show_move_run in Hres. subst res. exists [Move s d disk t']. simpl.
      split; [reflexivity|]. left. split; reflexivity.
  - destruct (Z.eqb_spec n 1) as [|_]; [lia|].
    change (transfer_plan (Datatypes.S (Datatypes.S k)) s d a)
      with (transfer_plan (Datatypes.S k) s a d ++ [(s, d)] ++
            transfer_plan (Datatypes.S k) a d s).
    destruct (IH fuel (n - 1) s a d show_steps w) as (new1 & Htr1 & Hcase1); [lia | lia |].
    unfold bind at 1 in Hres.
    destruct (hanoi_recursive fuel (n - 1) s a d show_steps w) as [[[]|e1|] w1];
      cbn [fst snd] in Htr1, Hcase1.
    2:{ subst res. exists new1. split; [exact Htr1|]. right.
        destruct Hcase1 as [[Hret _] | (e & rest & He & Hrest & Hplan)]; [discriminate|].
        exists e1, (rest ++ [(s, d)] ++ transfer_plan (Datatypes.S k) a d s).
        split_and!; [reflexivity | now destruct rest |].
        rewrite Hplan. now rewrite <- !app_assoc. }
    2:{ destruct Hcase1 as [[Hret _] | (e & rest & He & _)]; discriminate. }
    destruct Hcase1 as [[_ Hplan1] | (e & rest & He & _)]; [|discriminate].
    unfold bind at 1 in Hres. unfold call_move_disk at 1 in Hres.
    destruct (move_disk (towers w1) s d) as [e|[disk t']].
    { subst res. exists new1. split; [exact Htr1|]. right.
      exists e, ([(s, d)] ++ transfer_plan (Datatypes.S k) a d s).
      split_and!; [reflexivity | discriminate |].
      rewrite Hplan1. reflexivity. }
    rewrite (bind_Return _ _ _ _ _ (show_move_run _ _ _ _ _)) in Hres.
    cbn [towers trace stdout] in Hres.
    match type of Hres with context [hanoi_recursive fuel (n - 1) a d s show_steps ?w3] =>
      destruct (IH fuel (n - 1) a d s show_steps w3) as (new2 & Htr2 & Hcase2); [lia | lia |];
      destruct (hanoi_recursive fuel (n - 1) a d s show_steps w3) as [[[]|e2|] w4]
    end; cbn [fst snd trace] in Htr2, Hcase2; subst res; cbn [fst snd].
    + exists (new1 ++ [Move s d disk t'] ++ new2).
      split; [rewrite Htr2, Htr1; now rewrite <- !app_assoc|]. left.
      destruct Hcase2 as [[_ Hplan2] | (e & rest & He & _)]; [|discriminate].
      split; [reflexivity|]. rewrite !fmap_app, Hplan1, Hplan2. reflexivity.
    + exists (new1 ++ [Move s d disk t'] ++ new2).
      split; [rewrite Htr2, Htr1; now rewrite <- !app_assoc|]. right.
      destruct Hcase2 as [[Hret _] | (e & rest & He & Hrest & Hplan2)]; [discriminate|].
      exists e2, rest. split_and!; [reflexivity | exact Hrest |].
      rewrite !fmap_app, Hplan1, Hplan2. simpl. now rewrite <- !app_assoc.
    + destruct Hcase2 as [[Hret _] | (e & rest & He & _)]; discriminate.
Qed.

Lemma transfer_plan_length (k : nat) s d a :
  Z.of_nat (length (transfer_plan k s d a)) = 2 ^ Z.of_nat k - 1.
Proof.
  revert s d a. induction k as [|k IH]; intros s d a; [reflexivity|].
  rewrite Nat2Z.inj_succ, Z.pow_succ_r by lia.
  cbn [transfer_plan]. rewrite !length_app, !Nat2Z.inj_add, !IH.
  change (Z.of_nat (length [(s, d)])) with 1. lia.
Qed.

(** X8. Whatever dict and pegs [hanoi_recursive] is called on with
    [n >= 1] (pegs missing from the dict, equal pegs, disks in any order),
    it ends within a call stack of depth [n], and the pegs of the moves it
    made follow the plan fixed by [n] and the three names alone: all
    [2^n - 1] moves of the plan when it returns, fewer, a beginning of the
    plan, when it raises. *)
Theorem hanoi_recursive_ends_along_the_plan
  (n : Z) (fuel : nat) s d a (show_steps : bool) w :
  1 <= n -> (Z.to_nat n <= fuel)%nat ->
  exists new,
    trace (snd (hanoi_recursive fuel n s d a show_steps w)) = trace w ++ new /\
    ((fst (hanoi_recursive fuel n s d a show_steps w) = Return tt /\
      pegs_of <$> new = transfer_plan (Z.to_nat n) s d a /\
      Z.of_nat (length new) = 2 ^ n - 1) \/
     (exists e rest,
        fst (hanoi_recursive fuel n s d a show_steps w) = Raise e /\
        transfer_plan (Z.to_nat n) s d a = (pegs_of <$> new) ++ rest /\
        Z.of_nat (length new) < 2 ^ n - 1)).
Proof.
  intros Hn Hfuel.
  destruct (hanoi_recursive_plan (Z.to_nat n - 1) fuel n s d a show_steps w)
    as (new & Htr & Hcase); [lia | lia |].
  replace (Datatypes.S (Z.to_nat n - 1)) with (Z.to_nat n) in Hcase by lia.
  pose proof (transfer_plan_length (Z.to_nat n) s d a) as Hlen.
  rewrite Z2Nat.id in Hlen by lia.
  exists new. split; [exact Htr|].
  destruct Hcase as [[Hret Hplan] | (e & rest & He & Hrest & Hplan)].
  - left. split_and!; [exact Hret | exact Hplan |].
    rewrite <- Hplan, length_fmap in Hlen. exact Hlen.
  - right. exists e, rest. split_and!; [exact He | exact Hplan |].
    rewrite Hplan, length_app, length_fmap in Hlen.
    destruct rest; [contradiction|]. simpl in Hlen. lia.
Qed.

Lemma hanoi_recursive_ends_along_the_plan_witness :
  1 <= 2 /\ (Z.to_nat 2 <= 2)%nat /\
  exists new,
    trace (snd (hanoi_recursive 2 2 "A" "C" "B" false
                  (World (<["A" := [1]]> (<["C" := []]> ∅)) [] []))) = [] ++ new /\
    ((fst (hanoi_recursive 2 2 "A" "C" "B" false
             (World (<["A" := [1]]> (<["C" := []]> ∅)) [] [])) = Return tt /\
      pegs_of <$> new = transfer_plan (Z.to_nat 2) "A" "C" "B" /\
      Z.of_nat (length new) = 2 ^ 2 - 1) \/
     (exists e rest,
        fst (hanoi_recursive 2 2 "A" "C" "B" false
               (World (<["A" := [1]]> (<["C" := []]> ∅)) [] [])) = Raise e /\
        transfer_plan (Z.to_nat 2) "A" "C" "B" = (pegs_of <$> new) ++ rest /\
        Z.of_nat (length new) < 2 ^ 2 - 1)).
Proof.
  split; [lia|]. split; [simpl; lia|].
  apply (hanoi_recursive_ends_along_the_plan 2 2 "A" "C" "B" false
           (World (<["A" := [1]]> (<["C" := []]> ∅)) [] [])); [lia | simpl; lia].
Defined.

End HanoiRunFacts.

(** ** Towers of Hanoi: [main] *)

Section HanoiMain.

Variable int_ : string -> exn + Z.

Implicit Types (env : environment) (w : world).

(** The whole output of [solve_hanoi] with the steps shown. *)
Lemma solve_hanoi_output n fuel :
  1 <= n -> (Z.to_nat n <= fuel)%nat ->
  exists t0 new,
    let final := <["A" := []]> (<["B" := []]> (<["C" := range_desc n 0]> ∅)) in
    initialize_towers n = inr t0 /\
    Z.of_nat (length new) = 2 ^ n - 1 /\
    solve_hanoi fuel n true =
      (Return final,
       World final new
         (tower_state_lines "Initial state:" t0 ++ trace_lines new ++
          tower_state_lines "Final state:" final)).
Proof.
  intros Hn Hfuel.
  destruct (solve_hanoi_run n fuel true Hn Hfuel) as (t0 & new & out & Hinit & Hrun & Hlen & _).
  exists t0, new. cbv zeta in *. split; [exact Hinit|]. split; [exact Hlen|].
  rewrite Hrun. f_equal. f_equal.
  revert Hrun. unfold solve_hanoi. rewrite Hinit.
  destruct (Z.ltb_spec n 1) as [|_]; [lia|].
  unfold when. rewrite (bind_Return _ _ _ _ _ (print_tower_state_run _ _)).
  cbn [towers trace stdout app].
  set (w0 := World t0 [] (tower_state_lines "Initial state:" t0)).
  destruct (prints_its_moves_hanoi_recursive fuel n "A" "C" "B" w0) as (new' & Htr & Hout).
  unfold bind at 1.
  destruct (hanoi_recursive fuel n "A" "C" "B" true w0) as [[[]|e|] w1]; try discriminate.
  cbn [fst snd] in Htr, Hout.
  rewrite (bind_Return _ _ _ _ _ (print_tower_state_run _ _)).
  unfold bind, get, ret. cbn [towers trace stdout fst snd].
  intros Heq. injection Heq as Hfinal Htowers Htrace Hstdout.
  rewrite <- Hstdout, Hout, Hfinal. cbn [stdout w0]. rewrite Htr in Htrace.
  cbn [trace w0 app] in Htrace. subst new'. now rewrite <- app_assoc.
Qed.

(** X28. What [solve_hanoi] prints with the steps shown, for every
    [n >= 1] and given a call stack of depth [n]: the line [Initial state:]
    and the dict [initialize_towers] made; then for each of its [2^n - 1]
    moves, in order, the move, the line [Intermediate state:] and the dict
    as the move left it; then the line [Final state:] and the dict it
    returns; and nothing else. *)
Theorem solve_hanoi_shows_every_step n fuel :
  1 <= n -> (Z.to_nat n <= fuel)%nat ->
  exists t0,
    initialize_towers n = inr t0 /\
    Z.of_nat (length (trace (snd (solve_hanoi fuel n true)))) = 2 ^ n - 1 /\
    stdout (snd (solve_hanoi fuel n true)) =
      tower_state_lines "Initial state:" t0 ++
      trace_lines (trace (snd (solve_hanoi fuel n true))) ++
      tower_state_lines "Final state:"
        (<["A" := []]> (<["B" := []]> (<["C" := range_desc n 0]> ∅))) /\
    fst (solve_hanoi fuel n true) =
      Return (<["A" := []]> (<["B" := []]> (<["C" := range_desc n 0]> ∅))).
Proof.
  intros Hn Hfuel.
  destruct (solve_hanoi_output n fuel Hn Hfuel) as (t0 & new & Hinit & Hlen & Hrun).
  cbv zeta in Hrun. exists t0. rewrite Hrun. cbn [fst snd trace stdout].
  split_and!; [exact Hinit | exact Hlen | reflexivity | reflexivity].
Qed.

Lemma moves_shown_app out1 out2 :
  moves_shown (out1 ++ out2) = moves_shown out1 + moves_shown out2.
Proof. unfold moves_shown. rewrite List.filter_app, length_app. lia. Qed.

Lemma moves_shown_trace_lines (ms : list move) :
  moves_shown (Printed <$> trace_lines ms) = Z.of_nat (length ms).
Proof.
  induction ms as [|m ms IH]; [reflexivity|].
  unfold trace_lines in *. cbn [flat_map]. rewrite fmap_app, moves_shown_app, IH.
  cbn [length]. rewrite Nat2Z.inj_succ. unfold moves_shown. simpl. lia.
Qed.

(** X9. [main] of the solver on a number [n >= 1] (from the command line
    or, without an argument, from the prompt), given a call stack of depth
    [n]: it returns without writing to the error stream, it shows exactly
    [2^n - 1] moves, the last thing it prints is the dict with all [n] disks
    on peg C, and for [n > 10] the total it announces beforehand is the
    number of moves it then shows. *)
Theorem hanoi_main_solves_and_counts env (fuel : nat) (n : Z) :
  fst (read_number int_ env) = inr n ->
  1 <= n -> (Z.to_nat n <= fuel)%nat ->
  ending_of (HanoiCli.main int_ fuel env) = Finished /\
  errors (HanoiCli.main int_ fuel env) = [] /\
  moves_shown (written (HanoiCli.main int_ fuel env)) = 2 ^ n - 1 /\
  last (written (HanoiCli.main int_ fuel env)) =
    Some (Printed (PrintTowers
                     (<["A" := []]> (<["B" := []]> (<["C" := range_desc n 0]> ∅))))) /\
  (10 < n ->
   In (Printed (PrintLine
                  ("Total moves required: " +:+
                   pretty (moves_shown (written (HanoiCli.main int_ fuel env))))))
      (written (HanoiCli.main int_ fuel env))).
Proof.
  intros Hread Hn Hfuel. unfold HanoiCli.main.
  destruct (read_number int_ env) as [number prompted]. simpl in Hread. subst number.
  destruct (Z.ltb_spec n 1) as [|_]; [lia|].
  destruct (solve_hanoi_output n fuel Hn Hfuel) as (t0 & new & _ & Hlen & Hrun).
  cbv zeta in Hrun. rewrite Hrun. cbn [ending_of written errors stdout].
  set (final := <["A" := []]> (<["B" := []]> (<["C" := range_desc n 0]> ∅))).
  assert (forall pre,
            moves_shown pre = 0 ->
            moves_shown (pre ++ (Printed <$> (tower_state_lines "Initial state:" t0 ++
                                   trace_lines new ++
                                   tower_state_lines "Final state:" final))) = 2 ^ n - 1)
    as Hcount.
  { intros pre Hpre. rewrite !moves_shown_app, Hpre, !fmap_app, !moves_shown_app.
    rewrite moves_shown_trace_lines, Hlen. unfold moves_shown. simpl. lia. }
  assert (moves_shown
            ((if prompted then [Prompt "Enter number of disks: "] else []) ++
             (if 10 <? n
              then [Printed (PrintLine "Warning: Large number of disks will result in many steps");
                    Printed (PrintLine ("Total moves required: " +:+ pretty (2 ^ n - 1)))]
              else [])) = 0) as Hpre.
  { destruct prompted, (10 <? n); reflexivity. }
  split_and!; try reflexivity.
  - now apply Hcount.
  - rewrite last_app, fmap_last, !last_app. unfold tower_state_lines.
    rewrite !last_snoc. reflexivity.
  - intros Hbig. rewrite (Hcount _ Hpre).
    destruct (Z.ltb_spec 10 n) as [_|]; [|lia].
    apply in_or_app. left. apply in_or_app. right. right. left. reflexivity.
Qed.

(** X10. [main] of the solver on a text that [int] rejects with a
    [ValueError], or on a number below 1: it leaves through [sys.exit(1)]
    with one line [Error: ...] on the error stream, the usage line is the
    last thing it prints, and it prints no state of the pegs. *)
Theorem hanoi_main_rejects_bad_number env (fuel : nat) :
  (exists msg, fst (read_number int_ env) = inl (ValueError msg)) \/
  (exists n, fst (read_number int_ env) = inr n /\ n < 1) ->
  ending_of (HanoiCli.main int_ fuel env) = Exited 1 /\
  (exists msg, errors (HanoiCli.main int_ fuel env) = ["Error: " +:+ msg]) /\
  last (written (HanoiCli.main int_ fuel env)) =
    Some (Printed (PrintLine "Usage: python hanoi_towers.py [number_of_disks]")) /\
  Forall (fun c => forall t, c <> Printed (PrintTowers t))
         (written (HanoiCli.main int_ fuel env)).
Proof.
  intros Hbad. unfold HanoiCli.main.
  destruct (read_number int_ env) as [number prompted]. simpl in Hbad.
  assert (forall msg,
            let r := HanoiCli.handle (ValueError msg)
                       (if prompted then [Prompt "Enter number of disks: "] else []) in
            ending_of r = Exited 1 /\
            (exists msg', errors r = ["Error: " +:+ msg']) /\
            last (written r) =
              Some (Printed (PrintLine "Usage: python hanoi_towers.py [number_of_disks]")) /\
            Forall (fun c => forall t, c <> Printed (PrintTowers t)) (written r)) as Hhandle.
  { intros msg. cbn. split_and!; [reflexivity | now exists msg | apply last_snoc |].
    apply Forall_app. split; [|repeat constructor; discriminate].
    destruct prompted; repeat constructor; discriminate. }
  destruct Hbad as [[msg ->] | (n & -> & Hn)]; [apply Hhandle|].
  destruct (Z.ltb_spec n 1); [apply Hhandle | lia].
Qed.

End HanoiMain.

Lemma solve_hanoi_shows_every_step_witness :
  1 <= 2 /\ (Z.to_nat 2 <= 2)%nat /\
  exists t0,
    initialize_towers 2 = inr t0 /\
    Z.of_nat (length (trace (snd (solve_hanoi 2 2 true)))) = 2 ^ 2 - 1 /\
    stdout (snd (solve_hanoi 2 2 true)) =
      tower_state_lines "Initial state:" t0 ++
      trace_lines (trace (snd (solve_hanoi 2 2 true))) ++
      tower_state_lines "Final state:"
        (<["A" := []]> (<["B" := []]> (<["C" := range_desc 2 0]> ∅))) /\
    fst (solve_hanoi 2 2 true) =
      Return (<["A" := []]> (<["B" := []]> (<["C" := range_desc 2 0]> ∅))).
Proof.
  split; [lia|]. split; [simpl; lia|].
  apply (solve_hanoi_shows_every_step 2 2); [lia | simpl; lia].
Defined.

Lemma hanoi_main_solves_and_counts_witness :
  fst (read_number (fun _ => inr 2) (Environment ["hanoi_towers.py"; "2"] (inr ""))) = inr 2 /\
  ending_of (HanoiCli.main (fun _ => inr 2) 2
               (Environment ["hanoi_towers.py"; "2"] (inr ""))) = Finished /\
  moves_shown (written (HanoiCli.main (fun _ => inr 2) 2
                          (Environment ["hanoi_towers.py"; "2"] (inr "")))) = 2 ^ 2 - 1.
Proof.
  split; [reflexivity|].
  pose proof (hanoi_main_solves_and_counts (fun _ => inr 2)
                (Environment ["hanoi_towers.py"; "2"] (inr "")) 2 2) as H.
  destruct H as (Hend & _ & Hcount & _); [reflexivity | lia | simpl; lia |].
  split; [exact Hend | exact Hcount].
Defined.

Lemma hanoi_main_rejects_bad_number_witness :
  fst (read_number (fun _ => inr 0) (Environment ["hanoi_towers.py"] (inr "0"))) = inr 0 /\
  ending_of (HanoiCli.main (fun _ => inr 0) 1
               (Environment ["hanoi_towers.py"] (inr "0"))) = Exited 1 /\
  last (written (HanoiCli.main (fun _ => inr 0) 1
                   (Environment ["hanoi_towers.py"] (inr "0")))) =
    Some (Printed (PrintLine "Usage: python hanoi_towers.py [number_of_disks]")).
Proof.
  split; [reflexivity|].
  pose proof (hanoi_main_rejects_bad_number (fun _ => inr 0)
                (Environment ["hanoi_towers.py"] (inr "0")) 1) as H.
  destruct H as (Hend & _ & Hlast & _).
  { right. exists 0. split; [reflexivity | lia]. }
  split; [exact Hend | exact Hlast].
Defined.

(** ** Koch snowflake: [koch_curve] and [draw_koch_snowflake] *)

Section KochRuns.

Context {num : Type} `{Number num}.

Implicit Types (calls : list (call num)) (level : Z).

Lemma koch_curve_appends (k : nat) :
  forall fuel (length : num) level calls,
    level = Z.of_nat k -> (k < fuel)%nat ->
    koch_curve fuel length level calls = (Return tt, calls ++ curve_calls k length).
Proof.
  induction k as [|k IH]; intros fuel length level calls Hlevel Hfuel;
    (destruct fuel as [|fuel]; [lia|]); rewrite koch_curve_unfold.
  - subst level. reflexivity.
  - destruct (Z.eqb_spec level 0) as [|_]; [lia|]. cbv zeta.
    assert (forall calls',
              koch_curve fuel (div length (lit 3)) (level - 1) calls' =
              (Return tt, calls' ++ curve_calls k (div length (lit 3)))) as Hsub.
    { intros calls'. apply IH; lia. }
    rewrite (bind_Return _ _ _ _ _ (Hsub _)), (bind_Return _ _ _ _ _ (do_run _ _)).
    rewrite (bind_Return _ _ _ _ _ (Hsub _)), (bind_Return _ _ _ _ _ (do_run _ _)).
    rewrite (bind_Return _ _ _ _ _ (Hsub _)), (bind_Return _ _ _ _ _ (do_run _ _)).
    rewrite Hsub. cbn [curve_calls]. cbv zeta. now rewrite <- !app_assoc.
Qed.

Lemma lefts_app calls1 calls2 : lefts (calls1 ++ calls2) = lefts calls1 ++ lefts calls2.
Proof.
  induction calls1 as [|c calls1 IH]; [reflexivity|].
  destruct c; simpl; rewrite IH; reflexivity.
Qed.

Lemma rights_app calls1 calls2 : rights (calls1 ++ calls2) = rights calls1 ++ rights calls2.
Proof.
  induction calls1 as [|c calls1 IH]; [reflexivity|].
  destruct c; simpl; rewrite IH; reflexivity.
Qed.

Lemma curve_calls_turns (k : nat) (length : num) :
  Forall (fun angle => angle = 60) (lefts (curve_calls k length)) /\
  Forall (fun angle => angle = 120) (rights (curve_calls k length)) /\
  3 * Z.of_nat (Datatypes.length (rights (curve_calls k length))) + 1 = 4 ^ Z.of_nat k /\
  Z.of_nat (Datatypes.length (lefts (curve_calls k length))) =
    2 * Z.of_nat (Datatypes.length (rights (curve_calls k length))).
Proof.
  revert length. induction k as [|k IH]; intros length.
  - simpl. split_and!; try constructor; reflexivity.
  - cbn [curve_calls]. cbv zeta.
    destruct (IH (div length (lit 3))) as (Hl & Hr & Hcount & Hdouble).
    rewrite !lefts_app, !rights_app. cbn [lefts rights app].
    rewrite Nat2Z.inj_succ, Z.pow_succ_r by lia.
    split_and!.
    + repeat first [rewrite Forall_app | rewrite Forall_cons].
      repeat split; try assumption; try reflexivity; constructor.
    + repeat first [rewrite Forall_app | rewrite Forall_cons].
      repeat split; try assumption; try reflexivity; constructor.
    + repeat (rewrite length_app || cbn [Datatypes.length]). lia.
    + repeat (rewrite length_app || cbn [Datatypes.length]). lia.
Qed.

(** X11. The turns of [koch_curve]: for every [depth >= 0] and every
    [length], in whatever arithmetic, the call returns (given a call stack of
    depth [depth + 1]) having turned left only by 60 and right only by 120
    degrees, with [(4^depth - 1) / 3] right turns and twice as many left
    turns. *)
Theorem koch_curve_turn_counts
  (depth : Z) (length : num) (fuel : nat) (calls : list (call num)) :
  0 <= depth -> (Z.to_nat depth < fuel)%nat ->
  exists new,
    koch_curve fuel length depth calls = (Return tt, calls ++ new) /\
    Forall (fun angle => angle = 60) (lefts new) /\
    Forall (fun angle => angle = 120) (rights new) /\
    3 * Z.of_nat (Datatypes.length (rights new)) + 1 = 4 ^ depth /\
    Z.of_nat (Datatypes.length (lefts new)) = 2 * Z.of_nat (Datatypes.length (rights new)).
Proof.
  intros Hdepth Hfuel. exists (curve_calls (Z.to_nat depth) length).
  split; [apply koch_curve_appends; [lia | exact Hfuel]|].
  pose proof (curve_calls_turns (Z.to_nat depth) length) as Hturns.
  now rewrite Z2Nat.id in Hturns by exact Hdepth.
Qed.

(** X12. Below level 0 [koch_curve] never reaches the turtle: for every
    [level < 0], at whatever depth the call stack gives out, no call of the
    turtle has been made by then. *)
Theorem koch_curve_below_zero_never_draws
  (level : Z) (length : num) (fuel : nat) (calls : list (call num)) :
  level < 0 -> koch_curve fuel length level calls = (Diverge, calls).
Proof. intros Hlevel. now apply koch_curve_negative. Qed.

Lemma curve_calls_forwards (k : nat) (length : num) :
  forwards (curve_calls k length) = repeat (thirds k length) (4 ^ k).
Proof.
  revert length. induction k as [|k IH]; intros length; [reflexivity|].
  cbn [curve_calls]. cbv zeta. rewrite !forwards_app, !IH. simpl forwards.
  rewrite !app_nil_l, <- !repeat_app. unfold thirds. rewrite Nat.iter_succ_r.
  f_equal. simpl. lia.
Qed.

Lemma curve_calls_turning (k : nat) (length : num) :
  turning (curve_calls k length) = 0.
Proof.
  revert length. induction k as [|k IH]; intros length; [reflexivity|].
  cbn [curve_calls]. cbv zeta. rewrite !turning_app, !IH. reflexivity.
Qed.

Lemma draw_koch_snowflake_calls
  (length : num) (level : Z) (fuel : nat) (calls : list (call num)) :
  0 <= level -> leb length (lit 0) = false -> (Z.to_nat level < fuel)%nat ->
  exists new,
    draw_koch_snowflake fuel length level calls = (Return tt, calls ++ new) /\
    head new = Some Screen /\
    last new = Some mainloop /\
    Z.of_nat (Datatypes.length (forwards new)) = 3 * 4 ^ level /\
    Forall (fun x => x = thirds (Z.to_nat level) length) (forwards new) /\
    turning new = -360.
Proof.
  intros Hlevel Hlength Hfuel. unfold draw_koch_snowflake.
  destruct (Z.ltb_spec level 0) as [|_]; [lia|]. rewrite Hlength.
  set (curve := curve_calls (Z.to_nat level) length).
  assert (forall calls', koch_curve fuel length level calls' = (Return tt, calls' ++ curve))
    as Hcurve.
  { intros calls'. apply koch_curve_appends; [lia | exact Hfuel]. }
  repeat rewrite (bind_Return _ _ _ _ _ (do_run _ _)).
  assert (forall calls',
            bind (koch_curve fuel length level) (fun _ => do (right 120)) calls' =
            (Return tt, calls' ++ curve ++ [right 120])) as Hside.
  { intros calls'. rewrite (bind_Return _ _ _ _ _ (Hcurve _)), do_run.
    now rewrite <- app_assoc. }
  assert (forall calls',
            for_range 3 (bind (koch_curve fuel length level) (fun _ => do (right 120))) calls' =
            (Return tt, calls' ++ (curve ++ [right 120]) ++ (curve ++ [right 120]) ++
                        (curve ++ [right 120]))) as Hloop.
  { intros calls'. cbn [for_range].
    rewrite (bind_Return _ _ _ _ _ (Hside _)), (bind_Return _ _ _ _ _ (Hside _)),
      (bind_Return _ _ _ _ _ (Hside _)).
    unfold ret. now rewrite <- !app_assoc. }
  rewrite (bind_Return _ _ _ _ _ (Hloop _)), (bind_Return _ _ _ _ _ (do_run _ _)), do_run.
  eexists. split; [rewrite <- !app_assoc; reflexivity|].
  cbn [app head]. split; [reflexivity|].
  split.
  { rewrite !app_comm_cons, !app_assoc.
    change [right 120; hideturtle; mainloop] with ([right 120; hideturtle] ++ [@mainloop num]).
    rewrite app_assoc. apply last_snoc. }
  assert (forwards curve = repeat (thirds (Z.to_nat level) length) (4 ^ Z.to_nat level))
    as Hfw by apply curve_calls_forwards.
  assert (turning curve = 0) as Htn by apply curve_calls_turning.
  repeat (rewrite forwards_app || rewrite turning_app || rewrite Hfw || rewrite Htn ||
          cbn [forwards turning]).
  rewrite ?app_nil_r, <- ?repeat_app.
  split_and!.
  - rewrite repeat_length. rewrite !Nat2Z.inj_add, Nat2Z.inj_pow, Z2Nat.id by lia.
    change (Z.of_nat 4) with 4. lia.
  - apply List.Forall_forall. intros x Hx. now apply repeat_spec in Hx.
  - reflexivity.
Qed.

(** X13. The outline [draw_koch_snowflake] draws: for every [level >= 0]
    and every [length] that is not [<= 0], in whatever arithmetic, the call
    returns (given a call stack of depth [level + 1]); it opens the window
    first and enters its main loop last; in between it draws [3 * 4^level]
    segments, each of the length that [level] divisions by 3 leave, and
    turns by -360 degrees in all: one full turn clockwise. *)
Theorem draw_koch_snowflake_outline
  (length : num) (level : Z) (fuel : nat) (calls : list (call num)) :
  0 <= level -> leb length (lit 0) = false -> (Z.to_nat level < fuel)%nat ->
  exists new,
    draw_koch_snowflake fuel length level calls = (Return tt, calls ++ new) /\
    head new = Some Screen /\
    last new = Some mainloop /\
    Z.of_nat (Datatypes.length (forwards new)) = 3 * 4 ^ level /\
    Forall (fun x => x = thirds (Z.to_nat level) length) (forwards new) /\
    turning new = -360.
Proof. exact (draw_koch_snowflake_calls length level fuel calls). Qed.

End KochRuns.

Lemma koch_curve_turn_counts_witness :
  0 <= 1 /\ (Z.to_nat 1 < 2)%nat /\
  exists new,
    koch_curve 2 (inject_Z 9) 1 [] = (Return tt, [] ++ new) /\
    Forall (fun angle => angle = 60) (lefts new) /\
    Forall (fun angle => angle = 120) (rights new) /\
    3 * Z.of_nat (Datatypes.length (rights new)) + 1 = 4 ^ 1 /\
    Z.of_nat (Datatypes.length (lefts new)) = 2 * Z.of_nat (Datatypes.length (rights new)).
Proof.
  split; [lia|]. split; [simpl; lia|].
  apply (koch_curve_turn_counts (num := Q) 1 (inject_Z 9) 2 []); [lia | simpl; lia].
Defined.

Lemma koch_curve_below_zero_never_draws_witness :
  -1 < 0 /\ koch_curve 5 (inject_Z 9) (-1) [] = (Diverge, []).
Proof.
  split; [lia|]. apply (koch_curve_below_zero_never_draws (num := Q) (-1) (inject_Z 9) 5 []). lia.
Defined.

Lemma draw_koch_snowflake_outline_witness :
  0 <= 1 /\ leb (inject_Z 300) (lit 0) = false /\ (Z.to_nat 1 < 2)%nat /\
  exists new,
    draw_koch_snowflake 2 (inject_Z 300) 1 [] = (Return tt, [] ++ new) /\
    head new = Some Screen /\
    last new = Some mainloop /\
    Z.of_nat (Datatypes.length (forwards new)) = 3 * 4 ^ 1 /\
    Forall (fun x => x = thirds (Z.to_nat 1) (inject_Z 300)) (forwards new) /\
    turning new = -360.
Proof.
  split; [lia|]. split; [reflexivity|]. split; [simpl; lia|].
  apply (draw_koch_snowflake_outline (num := Q) (inject_Z 300) 1 2 []);
    [lia | reflexivity | simpl; lia].
Defined.

(** ** Koch snowflake: [main] *)

Section KochMain.

Context {num : Type} `{Number num}.

Variable int_ : string -> exn + Z.

(** X14. [main] of the snowflake on a level [level >= 0] (from the command
    line or, without an argument, from the prompt), given a call stack of
    depth [level + 1] and an arithmetic in which 300 is not [<= 0]: it
    returns without writing to the error stream; the turtle calls it made
    begin with the window and end in its main loop, with [3 * 4^level]
    segments drawn; the last line it prints announces the level; and it
    warns of slow rendering exactly when [level > 6]. *)
Theorem koch_main_draws_the_snowflake (env : environment) (fuel : nat) (level : Z) :
  fst (read_number int_ env) = inr level ->
  0 <= level -> leb (lit 300 : num) (lit 0) = false -> (Z.to_nat level < fuel)%nat ->
  ending_of (KochCli.main (num := num) int_ fuel env) = Finished /\
  errors (KochCli.main (num := num) int_ fuel env) = [] /\
  head (state_of (KochCli.main (num := num) int_ fuel env)) = Some Screen /\
  last (state_of (KochCli.main (num := num) int_ fuel env)) = Some mainloop /\
  Z.of_nat (Datatypes.length (forwards (state_of (KochCli.main (num := num) int_ fuel env))))
    = 3 * 4 ^ level /\
  last (written (KochCli.main (num := num) int_ fuel env)) =
    Some (Printed ("Drawing Koch snowflake with recursion level " +:+ pretty level +:+ "...")) /\
  (In (Printed "Warning: High recursion levels may be slow to render")
      (written (KochCli.main (num := num) int_ fuel env)) <-> 6 < level).
Proof.
  intros Hread Hlevel Hlength Hfuel. unfold KochCli.main.
  destruct (read_number int_ env) as [number prompted]. simpl in Hread. subst number.
  destruct (Z.ltb_spec level 0) as [|_]; [lia|].
  destruct (draw_koch_snowflake_calls (lit 300) level fuel [] Hlevel Hlength Hfuel)
    as (new & Hrun & Hhead & Hlast & Hcount & _ & _).
  rewrite Hrun. cbn [ending_of errors state_of written app].
  split_and!; try assumption; try reflexivity.
  - rewrite !app_assoc. apply last_snoc.
  - destruct (Z.ltb_spec 6 level) as [Hbig|Hsmall].
    + split; [intros _; exact Hbig|]. intros _.
      apply in_or_app. right. left. reflexivity.
    + split; [|lia]. intros Hin. exfalso.
      apply in_app_or in Hin. destruct Hin as [Hin|Hin].
      * destruct prompted; [destruct Hin as [Hin|[]]; discriminate | destruct Hin].
      * destruct Hin as [Hin|[]]. injection Hin as Hin. discriminate.
Qed.

(** X15. [main] of the snowflake on a text that [int] rejects with a
    [ValueError], or on a negative level: it leaves through [sys.exit(1)]
    without a single call of the turtle, with one line [Error: ...] on the
    error stream, and the usage line is the last thing it prints. *)
Theorem koch_main_rejects_bad_level (env : environment) (fuel : nat) :
  (exists msg, fst (read_number int_ env) = inl (ValueError msg)) \/
  (exists level, fst (read_number int_ env) = inr level /\ level < 0) ->
  ending_of (KochCli.main (num := num) int_ fuel env) = Exited 1 /\
  state_of (KochCli.main (num := num) int_ fuel env) = [] /\
  (exists msg, errors (KochCli.main (num := num) int_ fuel env) = ["Error: " +:+ msg]) /\
  last (written (KochCli.main (num := num) int_ fuel env)) =
    Some (Printed "Usage: python koch_snowflake.py [level]").
Proof.
  intros Hbad. unfold KochCli.main.
  destruct (read_number int_ env) as [number prompted]. simpl in Hbad.
  assert (forall msg,
            let r := KochCli.handle (num := num) (ValueError msg)
                       (if prompted
                        then [Prompt "Enter recursion level (0-6 recommended): "] else [])
                       [] in
            ending_of r = Exited 1 /\ state_of r = [] /\
            (exists msg', errors r = ["Error: " +:+ msg']) /\
            last (written r) = Some (Printed "Usage: python koch_snowflake.py [level]"))
    as Hhandle.
  { intros msg. cbn. split_and!; [reflexivity | reflexivity | now exists msg | apply last_snoc]. }
  destruct Hbad as [[msg ->] | (level & -> & Hlevel)]; [apply Hhandle|].
  destruct (Z.ltb_spec level 0); [apply Hhandle | lia].
Qed.

End KochMain.

Lemma koch_main_draws_the_snowflake_witness :
  fst (read_number (fun _ => inr 1) (Environment ["koch_snowflake.py"; "1"] (inr ""))) =
    inr 1 /\
  leb (lit 300 : PrimFloat.float) (lit 0) = false /\
  ending_of (KochCli.main (num := PrimFloat.float) (fun _ => inr 1) 2
               (Environment ["koch_snowflake.py"; "1"] (inr ""))) = Finished /\
  Z.of_nat (Datatypes.length
              (forwards (state_of (KochCli.main (num := PrimFloat.float) (fun _ => inr 1) 2
                                     (Environment ["koch_snowflake.py"; "1"] (inr ""))))))
    = 3 * 4 ^ 1.
Proof.
  split; [reflexivity|]. split; [vm_compute; reflexivity|].
  destruct (koch_main_draws_the_snowflake (num := PrimFloat.float) (fun _ => inr 1)
              (Environment ["koch_snowflake.py"; "1"] (inr "")) 2 1)
    as (Hend & _ & _ & _ & Hcount & _);
    [reflexivity | lia | vm_compute; reflexivity | simpl; lia |].
  split; [exact Hend | exact Hcount].
Defined.

Lemma koch_main_rejects_bad_level_witness :
  fst (read_number (fun _ => inr (-1)) (Environment ["koch_snowflake.py"; "-1"] (inr ""))) =
    inr (-1) /\
  ending_of (KochCli.main (num := PrimFloat.float) (fun _ => inr (-1)) 2
               (Environment ["koch_snowflake.py"; "-1"] (inr ""))) = Exited 1 /\
  state_of (KochCli.main (num := PrimFloat.float) (fun _ => inr (-1)) 2
              (Environment ["koch_snowflake.py"; "-1"] (inr ""))) = [].
Proof.
  split; [reflexivity|].
  destruct (koch_main_rejects_bad_level (num := PrimFloat.float) (fun _ => inr (-1))
              (Environment ["koch_snowflake.py"; "-1"] (inr "")) 2)
    as (Hend & Hstate & _).
  { right. exists (-1). split; [reflexivity | lia]. }
  split; [exact Hend | exact Hstate].
Defined.

(** ** File sorter: the bucket of a file *)

Section BucketCase.

Context {unicode : UnicodeData}.

Implicit Types (c a : ascii) (s : string).

Lemma ascii_lower_length s : String.length (ascii_lower s) = String.length s.
Proof. induction s as [|a s IH]; simpl; [reflexivity | now rewrite IH]. Qed.

Lemma rfind_dot_ascii_lower s : rfind "." (ascii_lower s) = rfind "." s.
Proof.
  induction s as [|a s IH]; [reflexivity|].
  cbn [ascii_lower rfind]. now rewrite IH, lower_char_dot.
Qed.

Lemma slice_from_ascii_lower n s :
  slice_from n (ascii_lower s) = ascii_lower (slice_from n s).
Proof.
  revert s. induction n as [|n IH]; intros s; [reflexivity|].
  destruct s as [|a s]; [reflexivity|]. apply IH.
Qed.

Lemma lstrip_dot_ascii_lower s : lstrip "." (ascii_lower s) = ascii_lower (lstrip "." s).
Proof.
  induction s as [|a s IH]; [reflexivity|].
  cbn [ascii_lower lstrip]. rewrite lower_char_dot.
  destruct (Ascii.eqb a "."); [exact IH | reflexivity].
Qed.

Lemma is_ascii_slice_from n s : is_ascii s = true -> is_ascii (slice_from n s) = true.
Proof.
  revert s. induction n as [|n IH]; intros s Hs; [exact Hs|].
  destruct s as [|a s]; [reflexivity|]. rewrite is_ascii_cons in Hs.
  apply andb_true_iff in Hs as [_ Hs]. now apply IH.
Qed.

Lemma is_ascii_lstrip c s : is_ascii s = true -> is_ascii (lstrip c s) = true.
Proof.
  induction s as [|a s IH]; [reflexivity|]. intros Hs. cbn [lstrip].
  destruct (Ascii.eqb a c); [|exact Hs]. rewrite is_ascii_cons in Hs.
  apply andb_true_iff in Hs as [_ Hs]. now apply IH.
Qed.

Lemma lower_ascii s : is_ascii s = true -> lower s = ascii_lower s.
Proof. intros Hs. unfold lower. now rewrite Hs. Qed.

Lemma name_joined (dir : path) s : name (dir ++ [s]) = s.
Proof. unfold name. now rewrite last_snoc. Qed.

(** X16. For a name made of ASCII characters, the bucket of a file depends
    on the name alone, and not on the case of its letters: for every such
    name [s] and all directories, [get_file_extension] gives the lower-cased
    name in one directory the bucket it gives [s] in the other.  (Beyond
    ASCII the lowercase of a capital sigma depends on what stands before it,
    and the two buckets can differ.) *)
Theorem get_file_extension_ignores_ascii_case (dir dir' : path) s :
  is_ascii s = true ->
  get_file_extension (dir ++ [lower s]) = get_file_extension (dir' ++ [s]).
Proof.
  intros Hs. rewrite (lower_ascii s Hs).
  unfold get_file_extension, suffix. cbv zeta. rewrite !name_joined.
  rewrite rfind_dot_ascii_lower, ascii_lower_length.
  destruct ((0 <? rfind "." s) && (rfind "." s <? Z.of_nat (String.length s) - 1));
    [|reflexivity].
  rewrite slice_from_ascii_lower, lstrip_dot_ascii_lower.
  assert (is_ascii (lstrip "." (slice_from (Z.to_nat (rfind "." s)) s)) = true) as Hext
    by now apply is_ascii_lstrip, is_ascii_slice_from.
  destruct (lstrip "." (slice_from (Z.to_nat (rfind "." s)) s)) as [|a rest];
    [reflexivity|].
  rewrite (lower_ascii _ Hext), lower_ascii by now rewrite is_ascii_ascii_lower.
  rewrite ascii_lower_idempotent. reflexivity.
Qed.

End BucketCase.

Section BucketCaseCases.

#[local] Existing Instance unicode_sample.

Lemma get_file_extension_ignores_ascii_case_witness :
  is_ascii "Photo.JPG" = true /\
  get_file_extension (["a"] ++ [lower "Photo.JPG"]) = "jpg" /\
  get_file_extension (["a"] ++ [lower "Photo.JPG"]) =
    get_file_extension (["b"; "c"] ++ ["Photo.JPG"]).
Proof.
  split; [reflexivity|]. split; [reflexivity|].
  apply (get_file_extension_ignores_ascii_case ["a"] ["b"; "c"] "Photo.JPG").
  reflexivity.
Defined.

(** With a capital sigma the two buckets differ. *)
Example get_file_extension_capital_sigma :
  get_file_extension ["Α.Σ"] = "σ" /\ get_file_extension [lower "Α.Σ"] = "ς".
Proof. vm_compute. split; reflexivity. Qed.

End BucketCaseCases.

(** ** File sorter: nothing is overwritten *)

Section CopierGrowth.

Context {unicode : UnicodeData}.

Implicit Types (fs : gmap path node) (m : machine) (p q : path).

Lemma only_adds_bind {A B : Type} (c : M machine A) (k : A -> M machine B) m :
  only_adds m (c m) -> (forall x m', only_adds m' (k x m')) -> only_adds m (bind c k m).
Proof.
  unfold only_adds, bind. intros Hc Hk.
  destruct (c m) as [[x|e|] m1]; simpl in *; try assumption.
  transitivity (files m1); [assumption | apply Hk].
Qed.

Lemma only_adds_reraising {A : Type} (body : M machine A) (line : string -> string) m :
  only_adds m (body m) ->
  only_adds m (reraising_OSError body (fun e => print_err (line e)) m).
Proof.
  unfold only_adds, reraising_OSError. intros Hbody.
  destruct (body m) as [[x|[msg|key|msg]|] m1]; simpl in *; assumption.
Qed.

Lemma make_dirs_grows todo : forall done fs fs',
  make_dirs done todo fs = inr fs' -> fs ⊆ fs'.
Proof.
  induction todo as [|child todo IH]; intros done fs fs' Hmk; simpl in Hmk.
  - now injection Hmk as <-.
  - destruct (fs !! joinpath done child) as [[content mtime|]|] eqn:Hp.
    + discriminate.
    + now apply IH in Hmk.
    + apply IH in Hmk. transitivity (<[joinpath done child := Dir]> fs); [|exact Hmk].
      now apply insert_subseteq.
Qed.

Lemma only_adds_mkdir p m : only_adds m (mkdir p m).
Proof.
  unfold only_adds, mkdir. destruct (make_dirs [] p (files m)) as [e|fs] eqn:Hmk;
    [reflexivity|]. simpl. now apply make_dirs_grows in Hmk.
Qed.

Lemma exists_false fs p : exists_ fs p = false -> fs !! p = None /\ p <> [].
Proof.
  unfold exists_. destruct p as [|x p]; [discriminate|].
  destruct (fs !! (x :: p)); [discriminate|]. now split.
Qed.

(** The loop ends on a name that is not taken. *)
Lemma free_name_is_free fuel : forall fs dir stm sfx candidate counter p,
  free_name fuel fs dir stm sfx candidate counter = Some p -> exists_ fs p = false.
Proof.
  induction fuel as [|fuel IH]; intros fs dir stm sfx candidate counter p; simpl;
    destruct (exists_ fs candidate) eqn:Hex; try discriminate;
    try (now intros [= <-]).
  apply IH.
Qed.

Lemma only_adds_copy2 src dst m :
  exists_ (files m) dst = false -> only_adds m (copy2 src dst m).
Proof.
  intros Hfree. apply exists_false in Hfree as [Hnone _].
  unfold only_adds, copy2. destruct (files m !! src) as [[content mtime|]|]; try reflexivity.
  destruct (is_dir (files m) (removelast dst)); [|reflexivity].
  simpl. now apply insert_subseteq.
Qed.

Lemma only_adds_print_out line m : only_adds m (print_out line m).
Proof. unfold only_adds. reflexivity. Qed.

Lemma only_adds_copy_file fuel (file_path destination_base : path) m :
  only_adds m (copy_file_to_destination fuel file_path destination_base m).
Proof.
  unfold copy_file_to_destination. apply only_adds_reraising. cbv zeta.
  apply only_adds_bind; [apply only_adds_mkdir|]. intros _ m1.
  unfold bind at 1. unfold get at 1.
  destruct (free_name fuel (files m1) _ _ _ _ 1) as [destination_file|] eqn:Hfree;
    [|unfold only_adds; reflexivity].
  apply free_name_is_free in Hfree.
  apply only_adds_bind; [now apply only_adds_copy2|]. intros _ m2.
  apply only_adds_print_out.
Qed.

Lemma only_adds_for_each {A : Type} (items : list A) (body : A -> M machine unit) m :
  (forall item m', only_adds m' (body item m')) -> only_adds m (for_each items body m).
Proof.
  intros Hbody. revert m. induction items as [|item items IH]; intros m;
    [unfold only_adds; reflexivity|].
  cbn [for_each]. apply only_adds_bind; [apply Hbody|]. intros _ m'. apply IH.
Qed.

Lemma only_adds_process order fuel : forall (source_dir destination_dir : path) m,
  only_adds m (process_directory_recursive order fuel source_dir destination_dir m).
Proof.
  induction fuel as [|fuel IH]; intros source_dir destination_dir m;
    [unfold only_adds; reflexivity|].
  rewrite process_directory_recursive_unfold. apply only_adds_reraising.
  apply only_adds_bind.
  { unfold only_adds, iterdir. destruct (is_dir (files m) source_dir); reflexivity. }
  intros items m1. apply only_adds_for_each. intros item m2.
  unfold bind, get. destruct (is_file (files m2) item); [apply only_adds_copy_file|].
  destruct (is_dir (files m2) item); [apply IH | unfold only_adds; reflexivity].
Qed.

(** X17. The copier never overwrites and never deletes: whatever the
    listing order, the two paths and the file system, and however the run
    ends, every file and directory that was there before
    [process_directory_recursive] (or a single [copy_file_to_destination])
    is there afterwards, with the content and modification time it had. *)
Theorem copier_never_overwrites
  (order : list path -> list path) (fuel : nat) (source_dir destination_dir : path) m
  (p : path) (n : node) :
  files m !! p = Some n ->
  files (snd (process_directory_recursive order fuel source_dir destination_dir m)) !! p =
    Some n /\
  files (snd (copy_file_to_destination fuel source_dir destination_dir m)) !! p = Some n.
Proof.
  intros Hp. split.
  - pose proof (only_adds_process order fuel source_dir destination_dir m) as Hgrow.
    unfold only_adds in Hgrow. rewrite map_subseteq_spec in Hgrow. now apply Hgrow.
  - pose proof (only_adds_copy_file fuel source_dir destination_dir m) as Hgrow.
    unfold only_adds in Hgrow. rewrite map_subseteq_spec in Hgrow. now apply Hgrow.
Qed.

End CopierGrowth.

Section CopierGrowthCases.

#[local] Existing Instance unicode_sample.

Lemma copier_never_overwrites_witness :
  files (Machine (<[ ["src"] := Dir ]> (<[ ["src"; "a.txt"] := File "A" 1 ]> ∅)) [] [])
    !! ["src"; "a.txt"] = Some (File "A" 1) /\
  files (snd (process_directory_recursive (fun l => l) 2 ["src"] ["src"]
                (Machine (<[ ["src"] := Dir ]> (<[ ["src"; "a.txt"] := File "A" 1 ]> ∅))
                         [] [])))
    !! ["src"; "a.txt"] = Some (File "A" 1).
Proof.
  assert (files (Machine (<[ ["src"] := Dir ]> (<[ ["src"; "a.txt"] := File "A" 1 ]> ∅))
                         [] [])
            !! ["src"; "a.txt"] = Some (File "A" 1)) as Hthere
    by (vm_compute; reflexivity).
  split; [exact Hthere|].
  exact (proj1 (copier_never_overwrites (fun l => l) 2 ["src"] ["src"] _ _ _ Hthere)).
Defined.

End CopierGrowthCases.

(** ** File sorter: [copy_file_to_destination] *)

Section CopierCopies.

Context {unicode : UnicodeData}.

Implicit Types (fs : gmap path node) (m : machine) (p q : path).

Lemma bind_Return_inv {S A B : Type} (c : M S A) (k : A -> M S B) st b st' :
  bind c k st = (Return b, st') ->
  exists a st1, c st = (Return a, st1) /\ k a st1 = (Return b, st').
Proof.
  unfold bind. destruct (c st) as [[a|e|] st1]; try discriminate. eauto.
Qed.

Lemma reraising_Return_inv {A : Type} (body : M machine A) handler m a m' :
  reraising_OSError body handler m = (Return a, m') -> body m = (Return a, m').
Proof.
  unfold reraising_OSError. destruct (body m) as [[x|[msg|key|msg]|] m1]; try discriminate;
    try easy.
  destruct (handler msg m1) as [[[]|e|] m2]; discriminate.
Qed.

Lemma make_dirs_adds_directories todo : forall done fs fs' p n,
  make_dirs done todo fs = inr fs' -> fs' !! p = Some n -> fs !! p = Some n \/ n = Dir.
Proof.
  induction todo as [|child todo IH]; intros done fs fs' p n Hmk Hp; simpl in Hmk.
  - injection Hmk as <-. now left.
  - destruct (fs !! joinpath done child) as [[content mtime|]|] eqn:Hq.
    + discriminate.
    + now apply (IH _ _ _ _ _ Hmk).
    + destruct (IH _ _ _ _ _ Hmk Hp) as [Hin|Hdir]; [|now right].
      rewrite lookup_insert in Hin. case_decide; [right; congruence | now left].
Qed.

Lemma is_dir_lookup fs p : fs !! p = Some Dir -> is_dir fs p = true.
Proof. unfold is_dir. destruct p; [reflexivity|]. now intros ->. Qed.

Lemma make_dirs_makes_directory todo : forall done fs fs',
  make_dirs done todo fs = inr fs' -> is_dir fs (done) = true \/ todo <> [] ->
  is_dir fs' (done ++ todo) = true.
Proof.
  induction todo as [|child todo IH]; intros done fs fs' Hmk Hdone; simpl in Hmk.
  - injection Hmk as <-. rewrite app_nil_r. now destruct Hdone.
  - change (done ++ child :: todo) with (done ++ [child] ++ todo). rewrite app_assoc.
    unfold joinpath in Hmk.
    destruct (fs !! (done ++ [child])) as [[content mtime|]|] eqn:Hq; [discriminate| |].
    + apply (IH _ _ _ Hmk). left. now apply is_dir_lookup.
    + apply (IH _ _ _ Hmk). left. apply is_dir_lookup, lookup_insert_eq.
Qed.

Lemma free_name_in_dir fuel : forall fs dir stm sfx candidate counter p,
  (exists nm, candidate = joinpath dir nm) ->
  free_name fuel fs dir stm sfx candidate counter = Some p ->
  exists nm, p = joinpath dir nm.
Proof.
  induction fuel as [|fuel IH]; intros fs dir stm sfx candidate counter p Hcand; simpl;
    destruct (exists_ fs candidate); try discriminate; try (now intros [= <-]).
  apply IH. eauto.
Qed.

Lemma copy_file_to_destination_run
  (fuel : nat) (file_path destination_base : path) m m' :
  copy_file_to_destination fuel file_path destination_base m = (Return tt, m') ->
  exists content mtime nm,
    let destination_file :=
      joinpath (joinpath destination_base (get_file_extension file_path)) nm in
    files m !! file_path = Some (File content mtime) /\
    files m !! destination_file = None /\
    files m' !! destination_file = Some (File content mtime) /\
    is_dir (files m') (joinpath destination_base (get_file_extension file_path)) = true /\
    (forall p n, files m' !! p = Some n ->
                 files m !! p = Some n \/ p = destination_file \/ n = Dir) /\
    out m' = out m ++ ["Copied: " +:+ render file_path +:+ " -> " +:+ render destination_file] /\
    err m' = err m.
Proof.
  intros Hrun. unfold copy_file_to_destination in Hrun.
  apply reraising_Return_inv in Hrun. cbv zeta in Hrun.
  apply bind_Return_inv in Hrun as ([] & m1 & Hmk & Hrun).
  unfold mkdir in Hmk.
  destruct (make_dirs [] (joinpath destination_base (get_file_extension file_path)) (files m))
    as [e|fs1] eqn:Hdirs; [discriminate|]. injection Hmk as <-.
  unfold bind at 1 in Hrun. unfold get at 1 in Hrun. cbn [files] in Hrun.
  destruct (free_name fuel fs1 _ _ _ _ 1) as [destination_file|] eqn:Hfree; [|discriminate].
  destruct (free_name_in_dir _ _ _ _ _ _ _ _ (ex_intro _ _ eq_refl) Hfree) as [nm ->].
  apply free_name_is_free, exists_false in Hfree as [Hnone _].
  apply bind_Return_inv in Hrun as ([] & m2 & Hcopy & Hprint).
  unfold copy2 in Hcopy. cbn [files out err] in Hcopy.
  destruct (fs1 !! file_path) as [[content mtime|]|] eqn:Hsrc; try discriminate.
  destruct (is_dir fs1 (removelast _)) eqn:Hparent; [|discriminate].
  injection Hcopy as <-. unfold print_out, modify in Hprint. injection Hprint as <-.
  cbn [files out err].
  assert (files m ⊆ fs1) as Hgrow by (now apply make_dirs_grows in Hdirs).
  exists content, mtime, nm. cbv zeta. split_and!; try reflexivity.
  - destruct (make_dirs_adds_directories _ _ _ _ _ _ Hdirs Hsrc) as [Hin|]; [exact Hin|].
    discriminate.
  - destruct (files m !! _) as [x|] eqn:Hold; [|reflexivity].
    rewrite map_subseteq_spec in Hgrow. apply Hgrow in Hold. congruence.
  - apply lookup_insert_eq.
  - assert (is_dir fs1 (joinpath destination_base (get_file_extension file_path)) = true)
      as Hbucket.
    { apply (make_dirs_makes_directory _ [] _ _ Hdirs). now left. }
    unfold is_dir in *. unfold joinpath in *.
    destruct (destination_base ++ [get_file_extension file_path]) as [|x l] eqn:Hb;
      [reflexivity|].
    rewrite lookup_insert_ne.
    + exact Hbucket.
    + intros Heq. apply (f_equal (@Datatypes.length string)) in Heq.
      rewrite length_app in Heq. simpl in Heq. lia.
  - intros p n. rewrite lookup_insert. case_decide; [now right; left|].
    intros Hp. destruct (make_dirs_adds_directories _ _ _ _ _ _ Hdirs Hp); [now left|].
    now right; right.
Qed.

(** X18. What one [copy_file_to_destination] that returns has done: the
    source is a file; its content and modification time are at a path in
    the bucket of its extension under the destination, where nothing was
    before; the bucket is a directory; every other entry of the file system
    is an entry that was there, or a directory; one line [Copied: ...] that
    names the two paths went to the output, and nothing to the error
    stream. *)
Theorem copy_file_to_destination_copies
  (fuel : nat) (file_path destination_base : path) m m' :
  copy_file_to_destination fuel file_path destination_base m = (Return tt, m') ->
  exists content mtime nm,
    let destination_file :=
      joinpath (joinpath destination_base (get_file_extension file_path)) nm in
    files m !! file_path = Some (File content mtime) /\
    files m !! destination_file = None /\
    files m' !! destination_file = Some (File content mtime) /\
    is_dir (files m') (joinpath destination_base (get_file_extension file_path)) = true /\
    (forall p n, files m' !! p = Some n ->
                 files m !! p = Some n \/ p = destination_file \/ n = Dir) /\
    out m' = out m ++ ["Copied: " +:+ render file_path +:+ " -> " +:+ render destination_file] /\
    err m' = err m.
Proof. exact (copy_file_to_destination_run fuel file_path destination_base m m'). Qed.

(** The loop tries the name itself, then [stem_1suffix], [stem_2suffix],
    ..., and ends on the first one that is not taken. *)
Lemma free_name_first_free fuel : forall fs dir stm sfx candidate counter p,
  free_name fuel fs dir stm sfx candidate counter = Some p ->
  (p = candidate /\ exists_ fs p = false) \/
  (exists_ fs candidate = true /\
   exists k, counter <= k /\ p = joinpath dir (numbered stm sfx k) /\
             exists_ fs p = false /\
             forall j, counter <= j < k -> exists_ fs (joinpath dir (numbered stm sfx j)) = true).
Proof.
  induction fuel as [|fuel IH]; intros fs dir stm sfx candidate counter p; simpl;
    destruct (exists_ fs candidate) eqn:Hex; try discriminate;
    try (intros [= <-]; now left).
  intros Hfree. right. split; [reflexivity|].
  destruct (IH _ _ _ _ _ _ _ Hfree) as [[-> Hp] | (Htaken & k & Hk & -> & Hp & Hbelow)].
  - exists counter. split_and!; [lia | reflexivity | exact Hp | intros j Hj; lia].
  - exists k. split_and!; [lia | reflexivity | exact Hp |].
    intros j Hj. destruct (decide (j = counter)) as [->|]; [exact Htaken|].
    apply Hbelow. lia.
Qed.

(** X19. How a copy is renamed: when the name of the file is taken in the
    bucket, the loop settles on [stem_k suffix] for the least [k >= 1] whose
    name is free: that name is not taken, and every [stem_j suffix] with
    [1 <= j < k] is. *)
Theorem rename_takes_first_free_number
  (fuel : nat) fs (dir : path) (file_path : path) (p : path) :
  free_name fuel fs dir (stem file_path) (suffix file_path)
            (joinpath dir (name file_path)) 1 = Some p ->
  exists_ fs (joinpath dir (name file_path)) = true ->
  exists k, 1 <= k /\
    p = joinpath dir (numbered (stem file_path) (suffix file_path) k) /\
    exists_ fs p = false /\
    forall j, 1 <= j < k ->
      exists_ fs (joinpath dir (numbered (stem file_path) (suffix file_path) j)) = true.
Proof.
  intros Hfree Htaken.
  destruct (free_name_first_free _ _ _ _ _ _ _ _ Hfree) as [[-> Hp] | (_ & k & Hk)].
  - congruence.
  - exists k. exact Hk.
Qed.

End CopierCopies.

Section CopierCopiesCases.

#[local] Existing Instance unicode_sample.

Lemma copy_file_to_destination_copies_witness :
  exists m',
    copy_file_to_destination 1 ["src"; "a.txt"] ["dest"]
      (Machine (<[ ["src"] := Dir ]> (<[ ["src"; "a.txt"] := File "A" 1 ]> ∅)) [] []) =
    (Return tt, m') /\
    exists nm,
      files m' !! joinpath (joinpath ["dest"] (get_file_extension ["src"; "a.txt"])) nm =
      Some (File "A" 1).
Proof.
  destruct (copy_file_to_destination 1 ["src"; "a.txt"] ["dest"]
              (Machine (<[ ["src"] := Dir ]> (<[ ["src"; "a.txt"] := File "A" 1 ]> ∅)) [] []))
    as [[[]|e|] m'] eqn:Hrun; [| vm_compute in Hrun; discriminate ..].
  exists m'. split; [reflexivity|].
  destruct (copy_file_to_destination_copies _ _ _ _ _ Hrun)
    as (content & mtime & nm & Hsrc & _ & Hdst & _).
  vm_compute in Hsrc. injection Hsrc as <- <-.
  exists nm. exact Hdst.
Defined.

Lemma rename_takes_first_free_number_witness :
  free_name 5 (<[ ["d"; "a.txt"] := File "A" 1 ]> (<[ ["d"; "a_1.txt"] := File "B" 2 ]> ∅))
            ["d"] (stem ["s"; "a.txt"]) (suffix ["s"; "a.txt"])
            (joinpath ["d"] (name ["s"; "a.txt"])) 1 = Some ["d"; "a_2.txt"] /\
  exists k, 1 <= k /\
    ["d"; "a_2.txt"] = joinpath ["d"] (numbered (stem ["s"; "a.txt"]) (suffix ["s"; "a.txt"]) k).
Proof.
  split; [vm_compute; reflexivity|].
  destruct (rename_takes_first_free_number 5
              (<[ ["d"; "a.txt"] := File "A" 1 ]> (<[ ["d"; "a_1.txt"] := File "B" 2 ]> ∅))
              ["d"] ["s"; "a.txt"] ["d"; "a_2.txt"])
    as (k & Hk & Hp & _); [vm_compute; reflexivity | vm_compute; reflexivity |].
  exists k. split; [exact Hk | exact Hp].
Defined.

End CopierCopiesCases.

(** ** File sorter: [process_directory_recursive] *)

Section CopierTraversal.

Context {unicode : UnicodeData}.

Variable order : list path -> list path.
Hypothesis order_permutes : forall l, Permutation (order l) l.

Implicit Types (fs : gmap path node) (m : machine) (p q : path).

Lemma children_elem fs p q :
  q ∈ filter (fun q => q <> [] /\ removelast q = p) (fst <$> map_to_list fs) <->
  q <> [] /\ removelast q = p /\ is_Some (fs !! q).
Proof.
  rewrite list_elem_of_filter, list_elem_of_fmap. split.
  - intros [[Hne Hparent] ([q' n] & -> & Hin)]. apply elem_of_map_to_list in Hin.
    simpl in *. split_and!; [assumption | assumption | now exists n].
  - intros (Hne & Hparent & [n Hn]). split; [now split|].
    exists (q, n). split; [reflexivity|]. now apply elem_of_map_to_list.
Qed.

Lemma iterdir_lists p m items m' :
  iterdir order p m = (Return items, m') ->
  m' = m /\
  forall q, q ∈ items <-> q <> [] /\ removelast q = p /\ is_Some (files m !! q).
Proof.
  unfold iterdir. destruct (is_dir (files m) p); [|discriminate].
  intros [= <- <-]. split; [reflexivity|]. intros q.
  rewrite (order_permutes _). apply children_elem.
Qed.

(** X21. On a source that is no directory, [process_directory_recursive]
    copies nothing and prints nothing: it raises the [OSError] of the
    listing, after one line [Error accessing directory ...] on the error
    stream that names the source and the error. *)
Theorem process_directory_recursive_missing_source
  (fuel : nat) (source_dir destination_dir : path) m :
  (1 <= fuel)%nat -> is_dir (files m) source_dir = false ->
  exists msg,
    process_directory_recursive order fuel source_dir destination_dir m =
    (Raise (OSError msg),
     Machine (files m) (out m)
             (err m ++ ["Error accessing directory " +:+ render source_dir +:+ ": " +:+ msg])).
Proof.
  intros Hfuel Hdir. destruct fuel as [|fuel]; [lia|].
  rewrite process_directory_recursive_unfold. unfold reraising_OSError, bind, iterdir.
  rewrite Hdir. eexists. reflexivity.
Qed.

(** X22. On a directory without entries [process_directory_recursive]
    returns and leaves everything as it is: the file system (no bucket is
    made under the destination) and the two streams. *)
Theorem process_directory_recursive_empty_source
  (fuel : nat) (source_dir destination_dir : path) m :
  (1 <= fuel)%nat -> is_dir (files m) source_dir = true ->
  (forall q, is_Some (files m !! q) -> q <> [] -> removelast q <> source_dir) ->
  process_directory_recursive order fuel source_dir destination_dir m = (Return tt, m).
Proof.
  intros Hfuel Hdir Hempty. destruct fuel as [|fuel]; [lia|].
  rewrite process_directory_recursive_unfold. unfold reraising_OSError, bind.
  destruct (iterdir order source_dir m) as [[items|e|] m1] eqn:Hiter;
    try (unfold iterdir in Hiter; rewrite Hdir in Hiter; discriminate).
  apply iterdir_lists in Hiter as [-> Hitems].
  assert (items = []) as ->.
  { destruct items as [|q items]; [reflexivity|]. exfalso.
    assert (q ∈ q :: items) as Hq by apply list_elem_of_here.
    apply Hitems in Hq as (Hne & Hparent & Hsome). now apply (Hempty q). }
  reflexivity.
Qed.

Lemma for_each_visits {A : Type} (items : list A) (body : A -> M machine unit) :
  (forall item m, only_adds m (body item m)) ->
  forall m m' item,
    for_each items body m = (Return tt, m') -> item ∈ items ->
    exists m1 m2,
      files m ⊆ files m1 /\ body item m1 = (Return tt, m2) /\ files m2 ⊆ files m'.
Proof.
  intros Hbody. induction items as [|x items IH]; intros m m' item Hrun Hin.
  - now apply elem_of_nil in Hin.
  - cbn [for_each] in Hrun. apply bind_Return_inv in Hrun as ([] & mx & Hx & Hrest).
    pose proof (Hbody x m) as Hgrow_x. unfold only_adds in Hgrow_x. rewrite Hx in Hgrow_x.
    pose proof (only_adds_for_each items body mx Hbody) as Hgrow_rest.
    unfold only_adds in Hgrow_rest. rewrite Hrest in Hgrow_rest. simpl in *.
    apply elem_of_cons in Hin as [->|Hin].
    + exists m, mx. split_and!; [reflexivity | exact Hx | exact Hgrow_rest].
    + destruct (IH mx m' item Hrest Hin) as (m1 & m2 & Hpre & Hrun1 & Hpost).
      exists m1, m2. split_and!; [now transitivity (files mx) | exact Hrun1 | exact Hpost].
Qed.

(** When the traversal returns, every file below the source directory has
    its copy in the bucket of its extension. *)
Lemma process_directory_recursive_reaches (fuel : nat) :
  forall (source_dir destination_dir : path) m m' (rel : list string) content mtime,
    process_directory_recursive order fuel source_dir destination_dir m = (Return tt, m') ->
    rel <> [] ->
    files m !! (source_dir ++ rel) = Some (File content mtime) ->
    (forall rel1 rel2, rel = rel1 ++ rel2 -> rel1 <> [] -> rel2 <> [] ->
                       files m !! (source_dir ++ rel1) = Some Dir) ->
    exists nm,
      files m' !! joinpath (joinpath destination_dir
                                     (get_file_extension (source_dir ++ rel))) nm =
      Some (File content mtime).
Proof.
  induction fuel as [|fuel IH];
    intros source_dir destination_dir m m' rel content mtime Hrun Hrel Hfile Hdirs;
    [discriminate|].
  rewrite process_directory_recursive_unfold in Hrun.
  apply reraising_Return_inv in Hrun.
  apply bind_Return_inv in Hrun as (items & m0 & Hiter & Hloop).
  apply iterdir_lists in Hiter as [-> Hitems].
  destruct rel as [|x rel]; [contradiction|]. clear Hrel.
  set (child := source_dir ++ [x]).
  assert (source_dir ++ x :: rel = child ++ rel) as Hpath
    by (unfold child; now rewrite <- app_assoc).
  assert (child ∈ items) as Hin.
  { apply Hitems. unfold child. split_and!.
    - now destruct source_dir.
    - apply removelast_last.
    - destruct rel as [|y rel].
      + rewrite Hfile. eauto.
      + rewrite (Hdirs [x] (y :: rel)); [eauto | reflexivity | discriminate | discriminate]. }
  set (body := fun item : path =>
         (m <- get ;;
          if is_file (files m) item then
            copy_file_to_destination (Datatypes.S fuel) item destination_dir
          else if is_dir (files m) item then
            process_directory_recursive order fuel item destination_dir
          else ret tt)%py) in Hloop.
  assert (forall item m, only_adds m (body item m)) as Hbody.
  { intros item m1. unfold body, bind, get.
    destruct (is_file (files m1) item); [apply only_adds_copy_file|].
    destruct (is_dir (files m1) item); [apply only_adds_process |
                                        unfold only_adds; reflexivity]. }
  destruct (for_each_visits items body Hbody m m' child Hloop Hin)
    as (m1 & m2 & Hpre & Hrun1 & Hpost).
  rewrite map_subseteq_spec in Hpre, Hpost.
  unfold body, bind, get in Hrun1.
  destruct rel as [|y rel].
  - (* the child is the file *)
    rewrite app_nil_r in Hpath. rewrite Hpath in *.
    assert (is_file (files m1) child = true) as Hisfile.
    { unfold is_file. now rewrite (Hpre _ _ Hfile). }
    rewrite Hisfile in Hrun1.
    apply copy_file_to_destination_run in Hrun1
      as (content' & mtime' & nm & Hsrc & _ & Hdst & _).
    rewrite (Hpre _ _ Hfile) in Hsrc. injection Hsrc as <- <-.
    exists nm. now apply Hpost.
  - (* the child is a directory on the way *)
    assert (files m1 !! child = Some Dir) as Hchild.
    { apply Hpre. apply (Hdirs [x] (y :: rel)); [reflexivity | discriminate | discriminate]. }
    assert (is_file (files m1) child = false) as Hnofile.
    { unfold is_file. now rewrite Hchild. }
    rewrite Hnofile, (is_dir_lookup _ _ Hchild) in Hrun1.
    destruct (IH child destination_dir m1 m2 (y :: rel) content mtime Hrun1)
      as (nm & Hcopy); [discriminate | | |].
    + apply Hpre. now rewrite <- Hpath.
    + intros rel1 rel2 Hsplit Hne1 Hne2. apply Hpre. unfold child.
      rewrite <- app_assoc. apply (Hdirs (x :: rel1) rel2); [| discriminate | exact Hne2].
      simpl. now rewrite Hsplit.
    + exists nm. rewrite Hpath. now apply Hpost.
Qed.

(** X23. When [process_directory_recursive] returns, whatever the order in
    which directories are listed, every file below the source directory, at
    whatever depth (the path from the source to the file leading through
    directories), has a copy with its content and modification time in the
    bucket of its extension, directly under the destination. *)
Theorem process_directory_recursive_copies_every_file
  (fuel : nat) (source_dir destination_dir : path) m m' (rel : list string) content mtime :
  process_directory_recursive order fuel source_dir destination_dir m = (Return tt, m') ->
  rel <> [] ->
  files m !! (source_dir ++ rel) = Some (File content mtime) ->
  (forall rel1 rel2, rel = rel1 ++ rel2 -> rel1 <> [] -> rel2 <> [] ->
                     files m !! (source_dir ++ rel1) = Some Dir) ->
  exists nm,
    files m' !! joinpath (joinpath destination_dir
                                   (get_file_extension (source_dir ++ rel))) nm =
    Some (File content mtime).
Proof.
  exact (process_directory_recursive_reaches fuel source_dir destination_dir m m' rel
           content mtime).
Qed.

End CopierTraversal.

Section CopierTraversalCases.

#[local] Existing Instance unicode_sample.

Lemma process_directory_recursive_missing_source_witness :
  (1 <= 1)%nat /\ is_dir (files (Machine ∅ [] [])) ["nowhere"] = false /\
  exists msg,
    process_directory_recursive (fun l => l) 1 ["nowhere"] ["dest"] (Machine ∅ [] []) =
    (Raise (OSError msg),
     Machine (files (Machine ∅ [] [])) (out (Machine ∅ [] []))
             (err (Machine ∅ [] []) ++
              ["Error accessing directory " +:+ render ["nowhere"] +:+ ": " +:+ msg])).
Proof.
  split; [lia|]. split; [reflexivity|].
  apply (process_directory_recursive_missing_source (fun l => l) 1 ["nowhere"] ["dest"]
           (Machine ∅ [] [])); [lia | reflexivity].
Defined.

Lemma process_directory_recursive_empty_source_witness :
  (forall l : list path, Permutation ((fun l => l) l) l) /\
  is_dir (files (Machine (<[ ["src"] := Dir ]> ∅) [] [])) ["src"] = true /\
  process_directory_recursive (fun l => l) 1 ["src"] ["dest"]
    (Machine (<[ ["src"] := Dir ]> ∅) [] []) =
  (Return tt, Machine (<[ ["src"] := Dir ]> ∅) [] []).
Proof.
  split; [intros l; apply Permutation_refl|]. split; [vm_compute; reflexivity|].
  apply (process_directory_recursive_empty_source (fun l => l)
           (fun l => Permutation_refl l) 1 ["src"] ["dest"]
           (Machine (<[ ["src"] := Dir ]> ∅) [] []));
    [lia | vm_compute; reflexivity |].
  intros q [n Hq] _ Hparent. cbn [files] in Hq.
  destruct (decide (q = ["src"])) as [->|Hne]; [discriminate|].
  rewrite lookup_insert_ne in Hq by congruence. now rewrite lookup_empty in Hq.
Defined.

Lemma process_directory_recursive_copies_every_file_witness :
  exists m',
    process_directory_recursive (fun l => l) 3 ["src"] ["dest"]
      (Machine (<[ ["src"] := Dir ]>
                  (<[ ["src"; "sub"] := Dir ]>
                     (<[ ["src"; "sub"; "a.txt"] := File "A" 1 ]> ∅))) [] []) =
    (Return tt, m') /\
    exists nm,
      files m' !! joinpath (joinpath ["dest"]
                              (get_file_extension (["src"] ++ ["sub"; "a.txt"]))) nm =
      Some (File "A" 1).
Proof.
  destruct (process_directory_recursive (fun l => l) 3 ["src"] ["dest"]
              (Machine (<[ ["src"] := Dir ]>
                          (<[ ["src"; "sub"] := Dir ]>
                             (<[ ["src"; "sub"; "a.txt"] := File "A" 1 ]> ∅))) [] []))
    as [[[]|e|] m'] eqn:Hrun; [| vm_compute in Hrun; discriminate ..].
  exists m'. split; [reflexivity|].
  apply (process_directory_recursive_copies_every_file (fun l => l)
           (fun l => Permutation_refl l) _ _ _ _ _ _ _ _ Hrun);
    [discriminate | vm_compute; reflexivity |].
  intros rel1 rel2 Hsplit Hne1 Hne2.
  destruct rel1 as [|x [|y rel1]]; [contradiction | |].
  - injection Hsplit as <- _. vm_compute. reflexivity.
  - injection Hsplit as _ _ Hrest. destruct rel1; [|discriminate].
    simpl in Hrest. now subst rel2.
Defined.

End CopierTraversalCases.

Section RenameLoop.

Context {unicode : UnicodeData}.

Implicit Types (fs : gmap path node) (m : machine) (p q : path).

Lemma append_inv_tail (a b s : string) : a +:+ s = b +:+ s -> a = b.
Proof.
  revert b. induction a as [|x a IH]; intros b Heq.
  - destruct b as [|y b]; [reflexivity|]. exfalso.
    apply (f_equal String.length) in Heq. rewrite !length_append in Heq. simpl in Heq. lia.
  - destruct b as [|y b].
    + exfalso. apply (f_equal String.length) in Heq.
      rewrite !length_append in Heq. simpl in Heq. lia.
    + injection Heq as -> Heq. f_equal. now apply IH.
Qed.

Lemma numbered_inj stm sfx (j k : Z) : numbered stm sfx j = numbered stm sfx k -> j = k.
Proof.
  unfold numbered. intros Heq.
  apply String.app_inj in Heq. apply (String.app_inj "_") in Heq.
  apply append_inv_tail in Heq. now apply pretty_Z_inj in Heq.
Qed.

Lemma free_name_unfold fuel fs dir stm sfx candidate counter :
  free_name (Datatypes.S fuel) fs dir stm sfx candidate counter =
  if exists_ fs candidate
  then free_name fuel fs dir stm sfx (joinpath dir (numbered stm sfx counter)) (counter + 1)
  else Some candidate.
Proof. reflexivity. Qed.

Lemma free_name_None_taken fuel fs dir stm sfx candidate counter :
  free_name fuel fs dir stm sfx candidate counter = None -> exists_ fs candidate = true.
Proof.
  destruct fuel as [|fuel]; [simpl | rewrite free_name_unfold];
    destruct (exists_ fs candidate); congruence.
Qed.

Lemma free_name_None fuel : forall fs dir stm sfx candidate counter,
  free_name fuel fs dir stm sfx candidate counter = None ->
  forall j, counter <= j < counter + Z.of_nat fuel ->
            exists_ fs (joinpath dir (numbered stm sfx j)) = true.
Proof.
  induction fuel as [|fuel IH]; intros fs dir stm sfx candidate counter Hnone j Hj; [lia|].
  rewrite free_name_unfold in Hnone. destruct (exists_ fs candidate); [|discriminate].
  destruct (decide (j = counter)) as [->|Hne].
  - now apply free_name_None_taken in Hnone.
  - apply (IH _ _ _ _ _ _ Hnone). lia.
Qed.

Lemma exists_joined fs dir nm :
  exists_ fs (joinpath dir nm) = true -> is_Some (fs !! joinpath dir nm).
Proof.
  unfold exists_, joinpath. destruct (dir ++ [nm]) as [|x l] eqn:Hp.
  - now destruct dir.
  - destruct (fs !! (x :: l)); [eauto | discriminate].
Qed.

Lemma free_name_ends (fuel : nat) fs dir stm sfx candidate :
  (size fs < fuel)%nat -> free_name fuel fs dir stm sfx candidate 1 <> None.
Proof.
  intros Hsize Hnone.
  pose proof (free_name_None _ _ _ _ _ _ _ Hnone) as Htaken.
  set (taken := (fun j => joinpath dir (numbered stm sfx (Z.of_nat j))) <$> seq 1 fuel).
  assert (NoDup taken) as Hnodup.
  { apply NoDup_fmap_2; [|apply NoDup_seq].
    intros j k Heq. unfold joinpath in Heq. apply app_inv_head in Heq.
    injection Heq as Heq. apply numbered_inj in Heq. lia. }
  assert (taken ⊆+ (fst <$> map_to_list fs)) as Hsub.
  { apply NoDup_submseteq; [exact Hnodup|]. intros p Hp.
    apply list_elem_of_fmap in Hp as (j & -> & Hj). apply elem_of_seq in Hj.
    destruct (exists_joined fs dir (numbered stm sfx (Z.of_nat j))) as [n Hn].
    { apply Htaken. lia. }
    apply list_elem_of_fmap. exists (joinpath dir (numbered stm sfx (Z.of_nat j)), n). split; [reflexivity|].
    now apply elem_of_map_to_list. }
  apply submseteq_length in Hsub.
  unfold taken in Hsub. rewrite !length_fmap, length_seq, length_map_to_list in Hsub. lia.
Qed.

Lemma make_dirs_size todo : forall done fs fs',
  make_dirs done todo fs = inr fs' -> (size fs' <= size fs + length todo)%nat.
Proof.
  induction todo as [|child todo IH]; intros done fs fs' Hmk; simpl in Hmk.
  - injection Hmk as <-. lia.
  - destruct (fs !! joinpath done child) as [[content mtime|]|] eqn:Hp; [discriminate| |].
    + apply IH in Hmk. simpl. lia.
    + apply IH in Hmk. rewrite map_size_insert_None in Hmk by exact Hp. simpl. lia.
Qed.

(** X20. The renaming loop ends: whatever the file system, one
    [copy_file_to_destination] returns or raises within a number of turns
    of the loop that the number of entries of the file system and the depth
    of the destination bound. *)
Theorem copy_file_to_destination_ends
  (fuel : nat) (file_path destination_base : path) m :
  (size (files m) + length destination_base + 1 < fuel)%nat ->
  fst (copy_file_to_destination fuel file_path destination_base m) <> Diverge.
Proof.
  intros Hfuel. unfold copy_file_to_destination, reraising_OSError. cbv zeta.
  unfold bind at 1, mkdir.
  destruct (make_dirs [] (joinpath destination_base (get_file_extension file_path)) (files m))
    as [[msg|key|msg]|fs1] eqn:Hdirs; try discriminate.
  unfold bind at 1, get at 1. cbn [files].
  destruct (free_name fuel fs1 _ _ _ _ 1) as [destination_file|] eqn:Hfree.
  - unfold bind, copy2, print_out, modify. cbn [files out err].
    destruct (fs1 !! file_path) as [[content mtime|]|]; try discriminate.
    destruct (is_dir fs1 (removelast destination_file)); discriminate.
  - exfalso. apply free_name_ends in Hfree; [exact Hfree|].
    apply make_dirs_size in Hdirs. unfold joinpath in Hdirs.
    rewrite length_app in Hdirs. simpl in Hdirs. lia.
Qed.

End RenameLoop.

Section RenameLoopCases.

#[local] Existing Instance unicode_sample.

Lemma copy_file_to_destination_ends_witness :
  (size (files (Machine (<[ ["d"; "txt"; "a.txt"] := File "A" 1 ]> ∅) [] [])) +
   length ["d"] + 1 < 4)%nat /\
  fst (copy_file_to_destination 4 ["s"; "a.txt"] ["d"]
         (Machine (<[ ["d"; "txt"; "a.txt"] := File "A" 1 ]> ∅) [] [])) <> Diverge.
Proof.
  split; [vm_compute; lia|].
  apply (copy_file_to_destination_ends 4 ["s"; "a.txt"] ["d"]
           (Machine (<[ ["d"; "txt"; "a.txt"] := File "A" 1 ]> ∅) [] [])).
  vm_compute. lia.
Defined.

End RenameLoopCases.

(** ** File sorter: [parse_arguments] and [main] *)

Section CopierMain.

Context {unicode : UnicodeData}.

Variable to_path : string -> path.
Variable order : list path -> list path.
Hypothesis order_permutes : forall l, Permutation (order l) l.

Implicit Types (fs : gmap path node) (m : machine) (p q : path).

Lemma is_dir_exists fs p : is_dir fs p = true -> exists_ fs p = true.
Proof.
  unfold is_dir, exists_. destruct p as [|x p]; [reflexivity|].
  destruct (fs !! (x :: p)) as [[content mtime|]|]; congruence.
Qed.

Lemma parse_arguments_run (args : list string) m :
  match args with
  | [] => exists msg, CopierCli.parse_arguments to_path args m = (Raise (ValueError msg), m)
  | source :: rest =>
    if is_dir (files m) (to_path source)
    then CopierCli.parse_arguments to_path args m =
         (Return (to_path source, to_path (hd "dist" rest)), m)
    else exists msg, CopierCli.parse_arguments to_path args m = (Raise (ValueError msg), m)
  end.
Proof.
  destruct args as [|source rest]; [eexists; reflexivity|].
  unfold CopierCli.parse_arguments, bind, get. cbv zeta.
  destruct (is_dir (files m) (to_path source)) eqn:Hdir.
  - rewrite (is_dir_exists _ _ Hdir). simpl. now destruct rest.
  - destruct (exists_ (files m) (to_path source)); simpl; eexists; reflexivity.
Qed.

(** X24. [parse_arguments] accepts exactly the argument lists whose first
    entry names a directory: it then returns that path with the path of the
    second entry, or of [dist] when there is none (further entries are
    ignored); in every other case it raises a [ValueError]. It changes
    nothing: no directory is made, and nothing is printed. *)
Theorem parse_arguments_accepts_directories (args : list string) m
  (source_dir destination_dir : path) :
  snd (CopierCli.parse_arguments to_path args m) = m /\
  (fst (CopierCli.parse_arguments to_path args m) = Return (source_dir, destination_dir) <->
   exists source rest,
     args = source :: rest /\ source_dir = to_path source /\
     destination_dir = to_path (hd "dist" rest) /\
     is_dir (files m) source_dir = true) /\
  ((forall dirs, fst (CopierCli.parse_arguments to_path args m) <> Return dirs) ->
   exists msg, fst (CopierCli.parse_arguments to_path args m) = Raise (ValueError msg)).
Proof.
  pose proof (parse_arguments_run args m) as Hrun.
  destruct args as [|source rest].
  - destruct Hrun as [msg ->]. simpl. split_and!; [reflexivity | | eauto].
    split; [discriminate|]. intros (source & rest & Habs & _). discriminate.
  - destruct (is_dir (files m) (to_path source)) eqn:Hdir.
    + rewrite Hrun. simpl. split_and!; [reflexivity | |].
      * split.
        -- intros [= <- <-]. exists source, rest. now split_and!.
        -- intros (source' & rest' & [= <- <-] & -> & -> & _). reflexivity.
      * intros Hdirs. now contradiction (Hdirs _ eq_refl).
    + destruct Hrun as [msg ->]. simpl. split_and!; [reflexivity | | eauto].
      split; [discriminate|].
      intros (source' & rest' & [= <- <-] & -> & _ & Hdir'). congruence.
Qed.

Lemma run_rejected (fuel : nat) (argv : list string) m :
  (forall source, head (tail argv) = Some source ->
                  is_dir (files m) (to_path source) = false) ->
  exists msg, CopierCli.run to_path order fuel argv m = (Raise (ValueError msg), m).
Proof.
  intros Hbad. unfold CopierCli.run.
  pose proof (parse_arguments_run (tail argv) m) as Hparse.
  destruct (tail argv) as [|source rest].
  - destruct Hparse as [msg Hparse]. exists msg. now apply bind_Raise.
  - rewrite (Hbad source eq_refl) in Hparse. destruct Hparse as [msg Hparse].
    exists msg. now apply bind_Raise.
Qed.

Lemma run_accepted (fuel : nat) (argv : list string) m source rest :
  tail argv = source :: rest -> is_dir (files m) (to_path source) = true ->
  CopierCli.run to_path order fuel argv m =
  bind (process_directory_recursive order fuel (to_path source) (to_path (hd "dist" rest)))
       (fun _ => print_out (String "010" "File copying completed successfully!"))
       (Machine (files m)
                (((out m ++ ["Source directory: " +:+ render (to_path source)]) ++
                  ["Destination directory: " +:+ render (to_path (hd "dist" rest))]) ++
                 ["Starting file copying process..."])
                (err m)).
Proof.
  intros Hargs Hdir. unfold CopierCli.run.
  pose proof (parse_arguments_run (tail argv) m) as Hparse.
  rewrite Hargs in *. rewrite Hdir in Hparse.
  rewrite (bind_Return _ _ _ _ _ Hparse). reflexivity.
Qed.

Lemma only_adds_run (fuel : nat) (argv : list string) m :
  only_adds m (CopierCli.run to_path order fuel argv m).
Proof.
  pose proof (parse_arguments_run (tail argv) m) as Hparse.
  destruct (tail argv) as [|source rest] eqn:Hargs.
  - destruct (run_rejected fuel argv m) as [msg ->]; [now rewrite Hargs|].
    unfold only_adds. reflexivity.
  - destruct (is_dir (files m) (to_path source)) eqn:Hdir.
    + rewrite (run_accepted fuel argv m source rest Hargs Hdir).
      apply (only_adds_bind _ _ (Machine (files m) _ (err m))).
      * apply only_adds_process.
      * intros _ m'. apply only_adds_print_out.
    + destruct (run_rejected fuel argv m) as [msg ->].
      { rewrite Hargs. now intros source' [= <-]. }
      unfold only_adds. reflexivity.
Qed.

(** X25. [main] of the copier without an argument, or with a first
    argument that names no directory: it leaves through [sys.exit(1)] with
    the file system as it was, having printed the usage line and nothing
    else, and with one line [Error: ...] on the error stream. *)
Theorem copier_main_rejects_bad_source (fuel : nat) (argv : list string) m :
  (forall source, head (tail argv) = Some source ->
                  is_dir (files m) (to_path source) = false) ->
  exists msg,
    CopierCli.main to_path order fuel argv m =
    (Exited 1,
     Machine (files m) (out m ++ [CopierCli.usage]) (err m ++ ["Error: " +:+ msg])).
Proof.
  intros Hbad. destruct (run_rejected fuel argv m Hbad) as [msg Hrun].
  exists msg. unfold CopierCli.main. now rewrite Hrun.
Qed.

(** X26. When [main] of the copier returns, whatever the order in which
    directories are listed: its first argument named a directory; every
    entry the file system had is still there as it was; every file below
    that directory, at whatever depth, has a copy with its content and
    modification time in the bucket of its extension under the destination
    (the second argument, or [dist]); and the last line printed reports the
    success. *)
Theorem copier_main_finished (fuel : nat) (argv : list string) m m' :
  CopierCli.main to_path order fuel argv m = (Finished, m') ->
  exists source rest,
    tail argv = source :: rest /\
    is_dir (files m) (to_path source) = true /\
    files m ⊆ files m' /\
    last (out m') = Some (String "010" "File copying completed successfully!") /\
    forall (rel : list string) content mtime,
      rel <> [] ->
      files m !! (to_path source ++ rel) = Some (File content mtime) ->
      (forall rel1 rel2, rel = rel1 ++ rel2 -> rel1 <> [] -> rel2 <> [] ->
                         files m !! (to_path source ++ rel1) = Some Dir) ->
      exists nm,
        files m' !! joinpath (joinpath (to_path (hd "dist" rest))
                                       (get_file_extension (to_path source ++ rel))) nm =
        Some (File content mtime).
Proof.
  intros Hmain.
  assert (CopierCli.run to_path order fuel argv m = (Return tt, m')) as Hrun.
  { unfold CopierCli.main in Hmain.
    destruct (CopierCli.run to_path order fuel argv m) as [[[]|[msg|key|msg]|] m1];
      try discriminate. now injection Hmain as <-. }
  clear Hmain.
  pose proof (only_adds_run fuel argv m) as Hgrow. unfold only_adds in Hgrow.
  rewrite Hrun in Hgrow. simpl in Hgrow.
  destruct (tail argv) as [|source rest] eqn:Hargs.
  { destruct (run_rejected fuel argv m) as [msg Hrej]; [now rewrite Hargs|]. congruence. }
  destruct (is_dir (files m) (to_path source)) eqn:Hdir.
  2:{ destruct (run_rejected fuel argv m) as [msg Hrej]; [|congruence].
      rewrite Hargs. now intros source' [= <-]. }
  exists source, rest. split_and!; try reflexivity; try assumption.
  - rewrite (run_accepted fuel argv m source rest Hargs Hdir) in Hrun.
    apply bind_Return_inv in Hrun as ([] & m1 & _ & Hprint).
    unfold print_out, modify in Hprint. injection Hprint as <-. apply last_snoc.
  - intros rel content mtime Hrel Hfile Hdirs.
    rewrite (run_accepted fuel argv m source rest Hargs Hdir) in Hrun.
    apply bind_Return_inv in Hrun as ([] & m1 & Hprocess & Hprint).
    unfold print_out, modify in Hprint. injection Hprint as <-. cbn [files].
    apply (process_directory_recursive_reaches order order_permutes fuel _ _ _ _ _ _ _
             Hprocess Hrel); [exact Hfile | exact Hdirs].
Qed.

(** X27. [main] of the copier never overwrites and never deletes, whatever
    its arguments and however it ends: every file and directory that was
    there is there afterwards, as it was; and when it leaves through
    [sys.exit], the code is 1. *)
Theorem copier_main_never_overwrites (fuel : nat) (argv : list string) m
  (p : path) (n : node) :
  files m !! p = Some n ->
  files (snd (CopierCli.main to_path order fuel argv m)) !! p = Some n /\
  (forall code, fst (CopierCli.main to_path order fuel argv m) = Exited code -> code = 1).
Proof.
  intros Hp. pose proof (only_adds_run fuel argv m) as Hgrow. unfold only_adds in Hgrow.
  rewrite map_subseteq_spec in Hgrow. specialize (Hgrow p n Hp).
  unfold CopierCli.main.
  destruct (CopierCli.run to_path order fuel argv m) as [[[]|[msg|key|msg]|] m1];
    simpl in *; (split; [exact Hgrow|]); intros code; congruence.
Qed.

End CopierMain.

Section CopierMainCases.

#[local] Existing Instance unicode_sample.

Lemma copier_main_rejects_bad_source_witness :
  exists msg,
    CopierCli.main (fun s => [s]) (fun l => l) 1 ["file_copier.py"]
      (Machine (<[ ["src"] := Dir ]> ∅) [] []) =
    (Exited 1,
     Machine (files (Machine (<[ ["src"] := Dir ]> ∅) [] []))
             (out (Machine (<[ ["src"] := Dir ]> ∅) [] []) ++ [CopierCli.usage])
             (err (Machine (<[ ["src"] := Dir ]> ∅) [] []) ++ ["Error: " +:+ msg])).
Proof.
  apply (copier_main_rejects_bad_source (fun s => [s]) (fun l => l) 1 ["file_copier.py"]
           (Machine (<[ ["src"] := Dir ]> ∅) [] [])).
  intros source Hsource. discriminate.
Defined.

Lemma copier_main_finished_witness :
  (forall l : list path, Permutation ((fun l => l) l) l) /\
  exists m',
    CopierCli.main (fun s => [s]) (fun l => l) 2 ["file_copier.py"; "src"]
      (Machine (<[ ["src"] := Dir ]> (<[ ["src"; "a.txt"] := File "A" 1 ]> ∅)) [] []) =
    (Finished, m') /\
    exists nm,
      files m' !! joinpath (joinpath ["dist"] (get_file_extension (["src"] ++ ["a.txt"]))) nm =
      Some (File "A" 1).
Proof.
  split; [intros l; apply Permutation_refl|].
  destruct (CopierCli.main (fun s => [s]) (fun l => l) 2 ["file_copier.py"; "src"]
              (Machine (<[ ["src"] := Dir ]> (<[ ["src"; "a.txt"] := File "A" 1 ]> ∅)) [] []))
    as [e m'] eqn:Hmain.
  assert (e = Finished) as ->.
  { apply (f_equal fst) in Hmain. vm_compute in Hmain. congruence. }
  exists m'. split; [reflexivity|].
  destruct (copier_main_finished (fun s => [s]) (fun l => l)
              (fun l => Permutation_refl l) _ _ _ _ Hmain)
    as (source & rest & Hargs & _ & _ & _ & Hcopies).
  injection Hargs as <- <-.
  apply (Hcopies ["a.txt"] "A" 1); [discriminate | vm_compute; reflexivity |].
  intros rel1 rel2 Hsplit Hne1 Hne2.
  destruct rel1 as [|x rel1]; [contradiction|].
  injection Hsplit as _ Hrest. destruct rel1; [|discriminate].
  simpl in Hrest. now subst rel2.
Defined.

Lemma copier_main_never_overwrites_witness :
  files (Machine (<[ ["src"] := Dir ]> (<[ ["src"; "a.txt"] := File "A" 1 ]> ∅)) [] [])
    !! ["src"; "a.txt"] = Some (File "A" 1) /\
  files (snd (CopierCli.main (fun s => [s]) (fun l => l) 2 ["file_copier.py"; "src"; "src"]
                (Machine (<[ ["src"] := Dir ]> (<[ ["src"; "a.txt"] := File "A" 1 ]> ∅))
                         [] [])))
    !! ["src"; "a.txt"] = Some (File "A" 1).
Proof.
  assert (files (Machine (<[ ["src"] := Dir ]> (<[ ["src"; "a.txt"] := File "A" 1 ]> ∅))
                         [] [])
            !! ["src"; "a.txt"] = Some (File "A" 1)) as Hthere
    by (vm_compute; reflexivity).
  split; [exact Hthere|].
  exact (proj1 (copier_main_never_overwrites (fun s => [s]) (fun l => l) 2
                  ["file_copier.py"; "src"; "src"] _ _ _ Hthere)).
Defined.

End CopierMainCases.
